(** * Offline entry queue and synchronisation of the legal time tracker

    A shallow embedding of [static/offline.js] (class [OfflineManager]) and of
    the service worker's [sync] listener, with the properties of the offline
    queue stated and proved over it.

    Layout:
    - [JS]      : the JavaScript values the code manipulates (JSON-shaped
                  values, property access, truthiness, completions);
    - [JSON]    : the platform functions [JSON.stringify] and [JSON.parse];
    - [Offline] : [OfflineManager]: [loadPendingEntries], [saveOfflineEntry],
                  [syncPendingEntries], [handleOnline], [handleOffline];
    - [Worker]  : the service worker's [sync] listener;
    - the vocabulary of the statements, the lemmas, the properties, and
      the properties at concrete inputs.

    Scope of the model.  A call on the manager runs to completion before the
    next one starts: a pass of [syncPendingEntries] is one step, and two
    passes do not overlap.  Writes to [localStorage] succeed.  The queue in
    memory is an array of objects, each object occurring once in it.  The
    DOM is represented by the calls made to the notification surface;
    console output is left out of the page's state. *)

From Stdlib Require Import List String Ascii ZArith Lia Bool Arith.
From Stdlib Require DecimalString DecimalZ.
Import ListNotations.

Local Open Scope list_scope.
Local Open Scope Z_scope.

Infix "+++" := String.append (right associativity, at level 60).

(* ================================================================== *)
(** * JavaScript values *)
(* ================================================================== *)

Module JS.

(** The values that live in [this.pendingEntries], in [localStorage] (after
    [JSON.parse]) and in a request body.  A number [JNumber m e] is the exact
    decimal [m * 10^e]; rounding to binary64 is not part of the model (no
    property below depends on the numeric value of [hours] or [timestamp]).
    A string is a sequence of 8-bit characters; a code unit above 255 is
    held as the three bytes of its UTF-8 style encoding. *)
#[warnings="-register-all"]
Inductive JSValue : Type :=
| JNull
| JBool (b : bool)
| JNumber (m : Z) (e : Z)
| JString (s : string)
| JArray (elems : list JSValue)
| JObject (props : list (string * JSValue)).

(** An ordinary object: its own properties in insertion order. *)
Definition Obj := list (string * JSValue).

(** [o.k]: [None] is [undefined]. *)
Fixpoint Get (o : Obj) (k : string) : option JSValue :=
  match o with
  | [] => None
  | (k', v) :: o' => if String.eqb k' k then Some v else Get o' k
  end.

(** [o.k = v]: an existing property keeps its position, a new one goes last. *)
Fixpoint Put (o : Obj) (k : string) (v : JSValue) : Obj :=
  match o with
  | [] => [(k, v)]
  | (k', v') :: o' =>
      if String.eqb k' k then (k', v) :: o' else (k', v') :: Put o' k v
  end.

(** ToBoolean, as applied by [if (x)] and [!x]. *)
Definition ToBoolean (v : option JSValue) : bool :=
  match v with
  | None => false
  | Some JNull => false
  | Some (JBool b) => b
  | Some (JNumber m _) => negb (m =? 0)
  | Some (JString s) => negb (String.eqb s EmptyString)
  | Some (JArray _) => true
  | Some (JObject _) => true
  end.

(** Exceptions the modelled code can meet. *)
Inductive JSError : Type :=
| SyntaxError
| TypeError.

(** The outcome of evaluating a statement list: normal completion with a
    value, or an abrupt completion by [throw]. *)
Inductive Completion (A : Type) : Type :=
| Normal (a : A)
| Throw (err : JSError).
Arguments Normal {A} a.
Arguments Throw {A} err.

Definition bind {A B} (c : Completion A) (k : A -> Completion B) : Completion B :=
  match c with
  | Normal a => k a
  | Throw err => Throw err
  end.

(** [try { body } catch (e) { handler }] *)
Definition try_catch {A} (body : Completion A) (handler : JSError -> Completion A)
  : Completion A :=
  match body with
  | Normal a => Normal a
  | Throw err => handler err
  end.

(** [v.length], read for the log line of [loadPendingEntries]: reading a
    property of [null] throws a TypeError; arrays and strings have a length;
    on any other value the property is [undefined]. *)
Definition GetLength (v : JSValue) : Completion (option JSValue) :=
  match v with
  | JNull => Throw TypeError
  | JArray l => Normal (Some (JNumber (Z.of_nat (List.length l)) 0))
  | JString s => Normal (Some (JNumber (Z.of_nat (String.length s)) 0))
  | JObject o => Normal (Get o "length")
  | JBool _ | JNumber _ _ => Normal None
  end.

End JS.
Export JS.

Notation "x <- c ;; k" := (bind c (fun x => k))
  (at level 61, c at next level, right associativity).

(* ================================================================== *)
(** * JSON.stringify and JSON.parse *)
(* ================================================================== *)

(** The two platform functions the queue store relies on, after ECMA-262
    (25.5) and ECMA-404, over the values of [JS].  Limits of the model:
    numbers are exact decimals, strings are byte sequences (a [\uXXXX]
    escape above 127 is decoded to the bytes of its UTF-8 style encoding, and
    [stringify] does not re-escape lone surrogates), and object keys keep
    their textual order. *)
Module JSON.

Definition chars (s : string) : list ascii := list_ascii_of_string s.

Definition dquote : ascii := "034"%char.
Definition backslash : ascii := "092"%char.

(** ** Number to string (ECMA-262 Number::toString, radix 10) *)

Definition decimal_of_Z (z : Z) : list ascii :=
  chars (DecimalString.NilEmpty.string_of_int (Z.to_int z)).

Fixpoint drop_zeros (rev_digits : list ascii) (e : Z) : list ascii * Z :=
  match rev_digits with
  | c :: r => if Ascii.eqb c "0" then drop_zeros r (e + 1) else (rev_digits, e)
  | [] => ([], e)
  end.

Definition positive_to_chars (p : positive) (e : Z) : list ascii :=
  let '(rd, e') := drop_zeros (rev (decimal_of_Z (Zpos p))) e in
  let s := rev rd in
  let k := Z.of_nat (List.length s) in
  let n := k + e' in
  if (k <=? n) && (n <=? 21) then
    s ++ repeat "0"%char (Z.to_nat (n - k))
  else if (0 <? n) && (n <=? 21) then
    firstn (Z.to_nat n) s ++ "."%char :: skipn (Z.to_nat n) s
  else if (-6 <? n) && (n <=? 0) then
    "0"%char :: "."%char :: repeat "0"%char (Z.to_nat (- n)) ++ s
  else
    let ex := n - 1 in
    let exs := (if ex <? 0 then "-"%char else "+"%char) :: decimal_of_Z (Z.abs ex) in
    match s with
    | [] => []
    | [d] => d :: "e"%char :: exs
    | d :: ds => d :: "."%char :: ds ++ "e"%char :: exs
    end.

Definition number_to_chars (m e : Z) : list ascii :=
  match m with
  | Z0 => ["0"%char]
  | Zpos p => positive_to_chars p e
  | Zneg p => "-"%char :: positive_to_chars p e
  end.

(** ** String quoting (QuoteJSONString) *)

Definition hex_digit (n : nat) : ascii :=
  nth n (chars "0123456789abcdef") "0"%char.

Definition quote_char (c : ascii) : list ascii :=
  let n := nat_of_ascii c in
  if Ascii.eqb c dquote then [backslash; dquote]
  else if Ascii.eqb c backslash then [backslash; backslash]
  else if Nat.eqb n 8 then [backslash; "b"%char]
  else if Nat.eqb n 12 then [backslash; "f"%char]
  else if Nat.eqb n 10 then [backslash; "n"%char]
  else if Nat.eqb n 13 then [backslash; "r"%char]
  else if Nat.eqb n 9 then [backslash; "t"%char]
  else if Nat.ltb n 32 then
    backslash :: chars "u00" ++ [hex_digit (n / 16); hex_digit (n mod 16)]
  else [c].

Definition quote (s : string) : list ascii :=
  dquote :: flat_map quote_char (chars s) ++ [dquote].

Fixpoint join (sep : ascii) (parts : list (list ascii)) : list ascii :=
  match parts with
  | [] => []
  | [p] => p
  | p :: ps => p ++ sep :: join sep ps
  end.

(** ** JSON.stringify *)

Fixpoint stringify_chars (v : JSValue) : list ascii :=
  match v with
  | JNull => chars "null"
  | JBool true => chars "true"
  | JBool false => chars "false"
  | JNumber m e => number_to_chars m e
  | JString s => quote s
  | JArray l => "["%char :: join ","%char (map stringify_chars l) ++ ["]"%char]
  | JObject ps =>
      "{"%char ::
      join ","%char
        (map (fun kv => quote (fst kv) ++ ":"%char :: stringify_chars (snd kv)) ps)
      ++ ["}"%char]
  end.

Definition stringify (v : JSValue) : string :=
  string_of_list_ascii (stringify_chars v).

(** ** JSON.parse *)

Definition is_ws (c : ascii) : bool :=
  let n := nat_of_ascii c in
  Nat.eqb n 32 || Nat.eqb n 9 || Nat.eqb n 10 || Nat.eqb n 13.

Fixpoint skip_ws (s : list ascii) : list ascii :=
  match s with
  | c :: r => if is_ws c then skip_ws r else s
  | [] => []
  end.

Fixpoint strip_prefix (p s : list ascii) : option (list ascii) :=
  match p, s with
  | [], _ => Some s
  | a :: p', b :: s' => if Ascii.eqb a b then strip_prefix p' s' else None
  | _ :: _, [] => None
  end.

Definition is_digit (c : ascii) : bool :=
  let n := nat_of_ascii c in Nat.leb 48 n && Nat.leb n 57.

Fixpoint span_digits (s : list ascii) : list ascii * list ascii :=
  match s with
  | c :: r =>
      if is_digit c then let '(ds, rest) := span_digits r in (c :: ds, rest)
      else ([], s)
  | [] => ([], [])
  end.

Definition digits_value (ds : list ascii) : Z :=
  fold_left (fun a c => 10 * a + (Z.of_nat (nat_of_ascii c) - 48)) ds 0.

(** number = [ "-" ] int [ "." digits ] [ ("e"|"E") [sign] digits ] *)

Definition parse_sign (s : list ascii) : bool * list ascii :=
  match s with
  | c :: r => if Ascii.eqb c "-" then (true, r) else (false, s)
  | [] => (false, s)
  end.

(** int = "0" | digit1-9 *digit *)
Definition valid_int (ip : list ascii) : bool :=
  match ip with
  | [] => false
  | [_] => true
  | c :: _ :: _ => negb (Ascii.eqb c "0")
  end.

Definition parse_fraction (s : list ascii) : option (list ascii * list ascii) :=
  match s with
  | c :: r =>
      if Ascii.eqb c "." then
        match span_digits r with
        | ([], _) => None
        | (fp, s') => Some (fp, s')
        end
      else Some ([], s)
  | [] => Some ([], s)
  end.

Definition parse_exponent_sign (s : list ascii) : bool * list ascii :=
  match s with
  | c :: r =>
      if Ascii.eqb c "-" then (true, r)
      else if Ascii.eqb c "+" then (false, r)
      else (false, s)
  | [] => (false, s)
  end.

Definition parse_exponent (s : list ascii) : option (Z * list ascii) :=
  match s with
  | c :: r =>
      if Ascii.eqb c "e" || Ascii.eqb c "E" then
        let '(eneg, r') := parse_exponent_sign r in
        match span_digits r' with
        | ([], _) => None
        | (ep, s') => Some ((if eneg then - digits_value ep else digits_value ep), s')
        end
      else Some (0, s)
  | [] => Some (0, s)
  end.

Definition parse_number (s : list ascii) : option (JSValue * list ascii) :=
  let '(neg, s1) := parse_sign s in
  let '(ip, s2) := span_digits s1 in
  if valid_int ip then
    match parse_fraction s2 with
    | None => None
    | Some (fp, s3) =>
        match parse_exponent s3 with
        | None => None
        | Some (ex, s4) =>
            let mag := digits_value (ip ++ fp) in
            Some (JNumber (if neg then - mag else mag)
                          (ex - Z.of_nat (List.length fp)), s4)
        end
    end
  else None.

Definition hex_value (c : ascii) : option nat :=
  let n := nat_of_ascii c in
  if Nat.leb 48 n && Nat.leb n 57 then Some (n - 48)%nat
  else if Nat.leb 97 n && Nat.leb n 102 then Some (n - 87)%nat
  else if Nat.leb 65 n && Nat.leb n 70 then Some (n - 55)%nat
  else None.

(** The bytes that hold one UTF-16 code unit. *)
Definition encode_unit (u : nat) : list ascii :=
  if Nat.ltb u 128 then [ascii_of_nat u]
  else if Nat.ltb u 2048 then
    [ascii_of_nat (192 + u / 64); ascii_of_nat (128 + u mod 64)]
  else
    [ascii_of_nat (224 + u / 4096); ascii_of_nat (128 + (u / 64) mod 64);
     ascii_of_nat (128 + u mod 64)].

Definition unescape (c : ascii) : option ascii :=
  if Ascii.eqb c dquote then Some dquote
  else if Ascii.eqb c backslash then Some backslash
  else if Ascii.eqb c "/" then Some "/"%char
  else if Ascii.eqb c "b" then Some (ascii_of_nat 8)
  else if Ascii.eqb c "f" then Some (ascii_of_nat 12)
  else if Ascii.eqb c "n" then Some (ascii_of_nat 10)
  else if Ascii.eqb c "r" then Some (ascii_of_nat 13)
  else if Ascii.eqb c "t" then Some (ascii_of_nat 9)
  else None.

(** The characters of a string literal, after its opening quote. *)
Fixpoint parse_string (s : list ascii) (acc : list ascii)
  : option (string * list ascii) :=
  match s with
  | [] => None
  | c :: r =>
      if Ascii.eqb c dquote then Some (string_of_list_ascii (rev acc), r)
      else if Ascii.eqb c backslash then
        match r with
        | [] => None
        | e :: r' =>
            if Ascii.eqb e "u" then
              match r' with
              | h1 :: h2 :: h3 :: h4 :: r'' =>
                  match hex_value h1, hex_value h2, hex_value h3, hex_value h4 with
                  | Some a, Some b, Some c', Some d =>
                      parse_string r''
                        (rev (encode_unit (((a * 16 + b) * 16 + c') * 16 + d)) ++ acc)
                  | _, _, _, _ => None
                  end
              | _ => None
              end
            else
              match unescape e with
              | Some x => parse_string r' (x :: acc)
              | None => None
              end
        end
      else if Nat.ltb (nat_of_ascii c) 32 then None
      else parse_string r (c :: acc)
  end.

Fixpoint parse_value (fuel : nat) (s : list ascii) : option (JSValue * list ascii) :=
  match fuel with
  | O => None
  | S f =>
      match skip_ws s with
      | [] => None
      | c :: r =>
          if Ascii.eqb c "n" then
            option_map (fun r' => (JNull, r')) (strip_prefix (chars "ull") r)
          else if Ascii.eqb c "t" then
            option_map (fun r' => (JBool true, r')) (strip_prefix (chars "rue") r)
          else if Ascii.eqb c "f" then
            option_map (fun r' => (JBool false, r')) (strip_prefix (chars "alse") r)
          else if Ascii.eqb c dquote then
            option_map (fun p => (JString (fst p), snd p)) (parse_string r [])
          else if Ascii.eqb c "[" then
            match skip_ws r with
            | [] => None
            | c' :: r' =>
                if Ascii.eqb c' "]" then Some (JArray [], r')
                else parse_elements f r []
            end
          else if Ascii.eqb c "{" then
            match skip_ws r with
            | [] => None
            | c' :: r' =>
                if Ascii.eqb c' "}" then Some (JObject [], r')
                else parse_members f r []
            end
          else parse_number (c :: r)
      end
  end

with parse_elements (fuel : nat) (s : list ascii) (acc : list JSValue)
  : option (JSValue * list ascii) :=
  match fuel with
  | O => None
  | S f =>
      match parse_value f s with
      | None => None
      | Some (v, r) =>
          match skip_ws r with
          | [] => None
          | c :: r' =>
              if Ascii.eqb c "," then parse_elements f r' (v :: acc)
              else if Ascii.eqb c "]" then Some (JArray (rev (v :: acc)), r')
              else None
          end
      end
  end

with parse_members (fuel : nat) (s : list ascii) (acc : Obj)
  : option (JSValue * list ascii) :=
  match fuel with
  | O => None
  | S f =>
      match skip_ws s with
      | [] => None
      | q :: r =>
          if Ascii.eqb q dquote then
            match parse_string r [] with
            | None => None
            | Some (k, r1) =>
                match skip_ws r1 with
                | [] => None
                | c1 :: r2 =>
                    if Ascii.eqb c1 ":" then
                      match parse_value f r2 with
                      | None => None
                      | Some (v, r3) =>
                          match skip_ws r3 with
                          | [] => None
                          | c :: r4 =>
                              if Ascii.eqb c "," then parse_members f r4 (Put acc k v)
                              else if Ascii.eqb c "}" then Some (JObject (Put acc k v), r4)
                              else None
                          end
                      end
                    else None
                end
            end
          else None
      end
  end.

(** [JSON.parse(text)]: [None] is the SyntaxError. *)
Definition parse (text : string) : option JSValue :=
  let s := chars text in
  match parse_value (2 * List.length s + 2) s with
  | Some (v, r) => match skip_ws r with [] => Some v | _ :: _ => None end
  | None => None
  end.

End JSON.

(* ================================================================== *)
(** * OfflineManager (static/offline.js) *)
(* ================================================================== *)

Module Offline.

(** ** The queue store: [loadPendingEntries] *)

(** [JSON.parse(stored)] as a completion. *)
Definition JSON_parse (text : string) : Completion JSValue :=
  match JSON.parse text with
  | Some v => Normal v
  | None => Throw SyntaxError
  end.

(** [loadPendingEntries()] (offline.js, lines 97-108): [stored] is
    [localStorage.getItem('pendingEntries')]
    ([None] for [null]), [cur] the value of [this.pendingEntries] before the
    call; the result is its value after the call.  The [try] block assigns
    the parsed value and then reads its [length] for the log line; the
    [catch] block assigns the empty array. *)
Definition loadPendingEntries (stored : option string) (cur : JSValue)
  : Completion JSValue :=
  match stored with
  | None => Normal cur
  | Some text =>
      if String.eqb text EmptyString then Normal cur
      else
        try_catch
          (v <- JSON_parse text ;;
           _ <- GetLength v ;;
           Normal v)
          (fun _ => Normal (JArray []))
  end.

(** The constructor sets [this.pendingEntries = []] and [init()] loads
    (lines 4-17). *)
Definition constructor_pendingEntries (stored : option string) : Completion JSValue :=
  loadPendingEntries stored (JArray []).

(** ** Entries, requests, the world *)

(** An entry object held in [this.pendingEntries].  [addr] is the identity
    of the JavaScript object (two entries with equal fields are still two
    objects); [fields] are its current properties.  The loop variable of
    [syncPendingEntries] aliases the array element, so a write through it is
    a rewrite of that element in place. *)
Record Entry : Type := mkEntry { addr : nat; fields : Obj }.

(** [entry.synced] in a boolean position. *)
Definition synced (e : Entry) : bool := ToBoolean (Get (fields e) "synced").

(** [entry.synced = true] *)
Definition mark_synced (e : Entry) : Entry :=
  mkEntry (addr e) (Put (fields e) "synced" (JBool true)).

(** The value of [this.pendingEntries] as serialised by [JSON.stringify]. *)
Definition queue_value (q : list Entry) : JSValue :=
  JArray (map (fun e => JObject (fields e)) q).

Definition persist (q : list Entry) : string := JSON.stringify (queue_value q).

Record Request : Type := mkRequest {
  url : string;
  method : string;
  headers : list (string * string);
  body : string
}.

(** What [await fetch(...)] does: resolves with a response of some status,
    or rejects (the request could not complete). *)
Inductive FetchResult : Type :=
| Response (status : Z)
| NetworkError.

(** [response.ok] *)
Definition ok (status : Z) : bool := (200 <=? status) && (status <=? 299).

(** The remote side during one pass: the outcome of the [k]-th request. *)
Definition Network := nat -> Request -> FetchResult.

(** One request of a pass, with the entry it was issued for and its outcome. *)
Record Exchange : Type := mkExchange {
  subject : nat;
  request : Request;
  result : FetchResult
}.

Definition accepted (x : Exchange) : bool :=
  match result x with
  | Response status => ok status
  | NetworkError => false
  end.

Inductive UIEvent : Type :=
| ShowOfflineIndicator
| HideOfflineIndicator
| ShowSyncIndicator (count : nat)
| HideSyncIndicator
| ShowOfflineSuccess
| ShowSyncSuccess (count : nat)
| ReloadAfter (ms : Z).

(** The manager's fields together with the parts of the environment it
    touches: the [pendingEntries] key of [localStorage], the requests sent so
    far, the calls made to the notification surface.  [next_addr] is the
    identity the next object created by [saveOfflineEntry] gets.  Console
    output is left out. *)
Record World : Type := mkWorld {
  isOnline : bool;
  pendingEntries : list Entry;
  localStorage : option string;
  next_addr : nat;
  exchanges : list Exchange;
  ui : list UIEvent;
  pathname : string
}.

(** ** saveOfflineEntry *)

(** The template literal in [`offline_${timestamp}`]: [Date.now()] is an
    integral time value, whose string is its decimal numeral. *)
Definition timestamp_string (timestamp : Z) : string :=
  string_of_list_ascii (JSON.decimal_of_Z timestamp).

Definition offline_id (timestamp : Z) : string :=
  "offline_" +++ timestamp_string timestamp.

(** [{ ...entryData, id: `offline_${timestamp}`, timestamp, synced: false }] *)
Definition new_entry (entryData : Obj) (timestamp : Z) : Obj :=
  Put (Put (Put entryData "id" (JString (offline_id timestamp)))
           "timestamp" (JNumber timestamp 0))
      "synced" (JBool false).

(** [saveOfflineEntry(entryData)] (lines 81-95), with [now] the value of
    [Date.now()]: the entry is pushed and the whole array is written to
    [localStorage]. *)
Definition saveOfflineEntry (entryData : Obj) (now : Z) (w : World) : World :=
  let entry := mkEntry (next_addr w) (new_entry entryData now) in
  let q := pendingEntries w ++ [entry] in
  mkWorld (isOnline w) q (Some (persist q)) (S (next_addr w))
          (exchanges w) (ui w ++ [ShowOfflineSuccess]) (pathname w).

(** ** syncPendingEntries *)

(** The object literal of the request body (lines 127-133); a property whose
    value is [undefined] is left out by [JSON.stringify]. *)
Definition body_keys : list string :=
  ["client"; "matter"; "hours"; "desc"; "date_of_work"]%string.

Definition body_object (entry : Obj) : Obj :=
  flat_map (fun k => match Get entry k with
                     | Some v => [(k, v)]
                     | None => []
                     end) body_keys.

Definition quick_entry_request (entry : Entry) : Request :=
  mkRequest "/api/quick-entry" "POST"
    [("Content-Type", "application/json"); ("X-Requested-With", "XMLHttpRequest")]%string
    (JSON.stringify (JObject (body_object (fields entry)))).

(** The [for ... of] loop over [this.pendingEntries] (lines 117-147), from
    the [k]-th request of the pass on.  An entry whose [synced] is truthy is
    skipped; a response with [ok] marks the entry and records it; any other
    response goes on to the next entry; a rejected [fetch] leaves the loop.
    Result: the array after the loop (entries rewritten in place),
    [successfulSyncs], and the requests made. *)
Fixpoint sync_loop (fetch : Network) (k : nat) (todo : list Entry)
  : list Entry * list Entry * list Exchange :=
  match todo with
  | [] => ([], [], [])
  | entry :: rest =>
      if synced entry then
        let '(es, ss, xs) := sync_loop fetch k rest in (entry :: es, ss, xs)
      else
        let req := quick_entry_request entry in
        let x := mkExchange (addr entry) req (fetch k req) in
        match fetch k req with
        | Response status =>
            if ok status then
              let '(es, ss, xs) := sync_loop fetch (S k) rest in
              (mark_synced entry :: es, mark_synced entry :: ss, x :: xs)
            else
              let '(es, ss, xs) := sync_loop fetch (S k) rest in
              (entry :: es, ss, x :: xs)
        | NetworkError => (entry :: rest, [], [x])
        end
  end.

(** [syncPendingEntries()] (lines 110-162), run to completion against
    [fetch]: nothing happens on an empty array; otherwise the loop runs, the
    array is replaced by its entries whose [synced] is falsy and written to
    [localStorage], and the notification surface is updated. *)
Definition syncPendingEntries (fetch : Network) (w : World) : World :=
  match pendingEntries w with
  | [] => w
  | _ :: _ =>
      let '(es, ss, xs) := sync_loop fetch 0 (pendingEntries w) in
      let q := filter (fun entry => negb (synced entry)) es in
      mkWorld (isOnline w) q (Some (persist q)) (next_addr w)
              (exchanges w ++ xs)
              (ui w
               ++ [ShowSyncIndicator (List.length (pendingEntries w)); HideSyncIndicator]
               ++ match ss with
                  | [] => []
                  | _ :: _ =>
                      ShowSyncSuccess (List.length ss)
                      :: (if String.eqb (pathname w) "/entries"
                          then [ReloadAfter 1000] else [])
                  end)
              (pathname w)
  end.

(** ** Connectivity (lines 27-38) *)

Definition handleOnline (fetch : Network) (w : World) : World :=
  syncPendingEntries fetch
    (mkWorld true (pendingEntries w) (localStorage w) (next_addr w)
             (exchanges w) (ui w ++ [HideOfflineIndicator]) (pathname w)).

Definition handleOffline (w : World) : World :=
  mkWorld false (pendingEntries w) (localStorage w) (next_addr w)
          (exchanges w) (ui w ++ [ShowOfflineIndicator]) (pathname w).

(** ** Runs of the manager *)

(** The calls the page makes on the manager, each run to completion. *)
Inductive Op : Type :=
| SaveOfflineEntry (entryData : Obj) (now : Z)
| SyncPendingEntries (fetch : Network)
| HandleOnline (fetch : Network)
| HandleOffline.

Definition step (w : World) (op : Op) : World :=
  match op with
  | SaveOfflineEntry entryData now => saveOfflineEntry entryData now w
  | SyncPendingEntries fetch => syncPendingEntries fetch w
  | HandleOnline fetch => handleOnline fetch w
  | HandleOffline => handleOffline w
  end.

Definition run (w : World) (ops : list Op) : World := fold_left step ops w.

(** ** Start-up *)

(** Objects created by [JSON.parse] get the identities [n], [n+1], ... *)
Fixpoint allocate (n : nat) (os : list Obj) : list Entry :=
  match os with
  | [] => []
  | o :: os' => mkEntry n o :: allocate (S n) os'
  end.

(** The array elements, when the value is an array of objects. *)
Fixpoint objects (l : list JSValue) : option (list Obj) :=
  match l with
  | [] => Some []
  | JObject o :: l' => option_map (cons o) (objects l')
  | _ :: _ => None
  end.

(** [new OfflineManager()] on a page whose storage holds [stored]; defined
    when what was loaded is an array of objects. *)
Definition boot (online : bool) (path : string) (stored : option string)
  : option World :=
  match constructor_pendingEntries stored with
  | Normal (JArray l) =>
      match objects l with
      | Some os =>
          Some (mkWorld online (allocate 0 os) stored (List.length os) [] [] path)
      | None => None
      end
  | _ => None
  end.

(** A fresh installation: nothing stored. *)
Definition fresh (online : bool) (path : string) : World :=
  mkWorld online [] None 0 [] [] path.

End Offline.

(* ================================================================== *)
(** * The service worker's sync listener *)
(* ================================================================== *)

Module Worker.

(** Effects a handler of the worker script can have. *)
Inductive Effect : Type :=
| ConsoleLog (msg : string)
| CacheAddAll (cache : string) (urls : list string)
| CacheDelete (cache : string)
| Fetch (url : string)
| SkipWaiting.

(** [async function syncOfflineEntries()] (worker script, lines 67-70) *)
Definition syncOfflineEntries : list Effect :=
  [ConsoleLog "Background sync triggered"].

(** [self.addEventListener('sync', event => ...)] (lines 61-65) *)
Definition on_sync (tag : string) : list Effect :=
  if String.eqb tag "background-sync" then syncOfflineEntries else [].

Definition is_fetch (e : Effect) : bool :=
  match e with
  | Fetch _ => true
  | _ => false
  end.

End Worker.

(* ================================================================== *)
(** * The service worker's cache (worker script) *)
(* ================================================================== *)

(** The [install], [activate] and [fetch] listeners of the worker script,
    over a model of the Cache API: a cache storage is a list of named caches
    in creation order, a cache a list of stored responses keyed by URL.  Only
    GET requests match a cache entry; [Vary] headers are not modelled. *)
Module ShellCache.

Import Worker.

Definition CACHE_NAME : string := "legal-time-tracker-v1".

Definition urlsToCache : list string :=
  ["/"; "/entry"; "/entries"; "/options"; "/static/style.css"]%string.

Record Response : Type := mkResponse { status : Z; payload : string }.

Record Req : Type := mkReq { req_url : string; req_method : string; destination : string }.

(** The request [fetch(url)] and [caches.match(url)] make for a URL. *)
Definition GET (url : string) : Req := mkReq url "GET" EmptyString.

Definition Cache := list (string * Response).
Definition CacheStorage := list (string * Cache).

(** The network as the worker sees it: [None] is a rejected [fetch]. *)
Definition Net := Req -> option Response.

(** [response.ok] *)
Definition response_ok (r : Response) : bool :=
  (200 <=? status r) && (status r <=? 299).

(** ** Cache API *)

Fixpoint assoc {V : Type} (k : string) (l : list (string * V)) : option V :=
  match l with
  | [] => None
  | (k', v) :: l' => if String.eqb k' k then Some v else assoc k l'
  end.

Definition remove_key {V : Type} (k : string) (l : list (string * V)) : list (string * V) :=
  filter (fun kv => negb (String.eqb (fst kv) k)) l.

(** [caches.keys()] *)
Definition keys (cs : CacheStorage) : list string := map fst cs.

(** [caches.open(name)]: the cache is created when there is none. *)
Definition open (name : string) (cs : CacheStorage) : CacheStorage :=
  match assoc name cs with
  | Some _ => cs
  | None => cs ++ [(name, [])]
  end.

(** [caches.delete(name)] *)
Definition delete (name : string) (cs : CacheStorage) : CacheStorage :=
  remove_key name cs.

(** [cache.put(url, response)]: an entry for the same URL is replaced. *)
Definition put (c : Cache) (entry : string * Response) : Cache :=
  remove_key (fst entry) c ++ [entry].

(** The fetches of [cache.addAll(urls)]: every URL must be answered, with an
    [ok] status; otherwise the whole operation is rejected. *)
Fixpoint fetch_all (net : Net) (urls : list string) : option (list (string * Response)) :=
  match urls with
  | [] => Some []
  | u :: urls' =>
      match net (GET u) with
      | Some r =>
          if response_ok r
          then option_map (cons (u, r)) (fetch_all net urls')
          else None
      | None => None
      end
  end.

(** [cache.addAll(urls)]: nothing is stored unless everything was fetched. *)
Definition addAll (net : Net) (urls : list string) (c : Cache) : option Cache :=
  match fetch_all net urls with
  | Some entries => Some (fold_left put entries c)
  | None => None
  end.

(** The cache of that name, as a handle into the storage. *)
Definition cache_named (name : string) (cs : CacheStorage) : Cache :=
  match assoc name cs with
  | Some c => c
  | None => []
  end.

Definition update (name : string) (c : Cache) (cs : CacheStorage) : CacheStorage :=
  map (fun nc => if String.eqb (fst nc) name then (fst nc, c) else nc) cs.

(** [cache.match(request)] *)
Definition cache_match (req : Req) (c : Cache) : option Response :=
  if String.eqb (req_method req) "GET" then assoc (req_url req) c else None.

(** [caches.match(request)]: the caches are searched in creation order. *)
Fixpoint caches_match (req : Req) (cs : CacheStorage) : option Response :=
  match cs with
  | [] => None
  | (_, c) :: cs' =>
      match cache_match req c with
      | Some r => Some r
      | None => caches_match req cs'
      end
  end.

(** ** The listeners *)

Record Installed : Type := mkInstalled {
  caches_after : CacheStorage;
  succeeded : bool;
  install_effects : list Effect
}.

(** The [install] listener (lines 11-24): open the cache, add the shell
    URLs, then skip waiting.  When [addAll] is rejected the chain stops: the
    cache has been opened, nothing was stored, [skipWaiting] is not called. *)
Definition install (net : Net) (cs : CacheStorage) : Installed :=
  let cs1 := open CACHE_NAME cs in
  let before :=
    [ConsoleLog "Service Worker: Installing...";
     ConsoleLog "Service Worker: Caching files";
     CacheAddAll CACHE_NAME urlsToCache] in
  match addAll net urlsToCache (cache_named CACHE_NAME cs1) with
  | Some c =>
      mkInstalled (update CACHE_NAME c cs1) true
                  (before ++ [ConsoleLog "Service Worker: Installed"; SkipWaiting])
  | None => mkInstalled cs1 false before
  end.

(** The [activate] listener (lines 27-41): every cache whose name is not
    [CACHE_NAME] is deleted. *)
Definition activate_step (acc : CacheStorage * list Effect) (cacheName : string)
  : CacheStorage * list Effect :=
  if String.eqb cacheName CACHE_NAME then acc
  else (delete cacheName (fst acc),
        snd acc ++ [ConsoleLog "Service Worker: Deleting old cache";
                    CacheDelete cacheName]).

Definition activate (cs : CacheStorage) : CacheStorage * list Effect :=
  fold_left activate_step (keys cs) (cs, [ConsoleLog "Service Worker: Activating..."]).

(** The [fetch] listener (lines 44-58): the cached response if there is one,
    else the network's; when the network request is rejected, the cached
    root document for a navigation, and no response otherwise.  The result
    is what [respondWith] receives ([None] for [undefined]) and the network
    requests made. *)
Definition on_fetch (net : Net) (cs : CacheStorage) (req : Req)
  : option Response * list Effect :=
  match caches_match req cs with
  | Some r => (Some r, [])
  | None =>
      match net req with
      | Some r => (Some r, [Fetch (req_url req)])
      | None =>
          (if String.eqb (destination req) "document"
           then caches_match (GET "/") cs
           else None,
           [Fetch (req_url req)])
      end
  end.

End ShellCache.

(* ================================================================== *)
(** * The stopwatches (static/app.js) *)
(* ================================================================== *)

(** ** Formatting a count of seconds *)

(** [s] is the count of seconds a stopwatch holds: a natural number, on
    which [Math.floor(s/3600)] and [s % 60] are the integer quotient and
    remainder.  [toHours2], which rounds a floating-point quotient, is kept
    abstract wherever it occurs. *)
Module Format.

(** [String(n)] *)
Definition String_of (n : N) : string :=
  DecimalString.NilEmpty.string_of_uint (N.to_uint n).

(** [s.padStart(2, '0')] *)
Definition padStart2 (s : string) : string :=
  match String.length s with
  | 0%nat => "00"
  | 1%nat => "0" +++ s
  | _ => s
  end.

(** [pad] of the stopwatch helper (lines 3). *)
Definition pad (n : N) : string := padStart2 (String_of n).

(** [toHHMMSS(s)] (lines 4-9) *)
Definition toHHMMSS (s : N) : string :=
  let h := (s / 3600)%N in
  let m := ((s mod 3600) / 60)%N in
  let sec := (s mod 60)%N in
  pad h +++ ":" +++ pad m +++ ":" +++ pad sec.

(** [pad] inside [fmt]: [n < 10 ? '0' + n : '' + n] *)
Definition pad_lt10 (n : N) : string :=
  if (n <? 10)%N then "0" +++ String_of n else String_of n.

(** [fmt(s)] of the session stopwatch *)
Definition fmt (s : N) : string :=
  let h := (s / 3600)%N in
  let m := ((s mod 3600) / 60)%N in
  let sec := (s mod 60)%N in
  pad_lt10 h +++ ":" +++ pad_lt10 m +++ ":" +++ pad_lt10 sec.

End Format.

(** ** The stopwatch attached to the hours field: [attach(cfg)] *)

(** The closure state of [attach] together with the two elements it writes
    and the timeouts that are pending.  [toHours2_fixed s] stands for what
    the stop handler writes to the hours input: [toHours2(s).toFixed(2)]
    when [toHours2(s) >= 0.01], and nothing otherwise. *)
Module Stopwatch.

Record State : Type := mkState {
  running : bool;
  seconds : N;
  tickId : option nat;
  display : string;
  hoursInput : option string;
  timeouts : list nat;
  next_handle : nat
}.

(** What the environment does to the stopwatch. *)
Inductive Event : Type :=
| ClickStart
| ClickPause
| ClickStop
| TimeoutFires (handle : nat).

Definition remove_handle (h : nat) (l : list nat) : list nat :=
  filter (fun x => negb (Nat.eqb x h)) l.

(** The state when [attach] returns: [display_text] is what the page shows,
    [hours] the value of the hours input when the page has one.  Timer
    handles are positive numbers. *)
Definition init (display_text : string) (hours : option string) : State :=
  mkState false 0 None display_text hours [] 1.

(** [tick()] *)
Definition tick (st : State) : State :=
  if running st then
    mkState true (seconds st + 1) (Some (next_handle st))
            (Format.toHHMMSS (seconds st + 1)) (hoursInput st)
            (timeouts st ++ [next_handle st]) (S (next_handle st))
  else st.

(** [if(tickId) { clearTimeout(tickId); tickId = null; }]: the handle [0]
    is as falsy as [null]. *)
Definition clear_tick (st : State) : State :=
  match tickId st with
  | Some (S h) =>
      mkState (running st) (seconds st) None (display st) (hoursInput st)
              (remove_handle (S h) (timeouts st)) (next_handle st)
  | Some 0%nat | None => st
  end.

Section Handlers.

Variable toHours2_fixed : N -> option string.

Definition on_start (st : State) : State :=
  if running st then st
  else tick (mkState true (seconds st) (tickId st) (display st) (hoursInput st)
                     (timeouts st) (next_handle st)).

Definition on_pause (st : State) : State :=
  clear_tick (mkState false (seconds st) (tickId st) (display st) (hoursInput st)
                      (timeouts st) (next_handle st)).

Definition on_stop (st : State) : State :=
  let hours :=
    match hoursInput st, toHours2_fixed (seconds st) with
    | Some _, Some text => Some text
    | current, _ => current
    end in
  clear_tick (mkState false 0 (tickId st) "00:00:00" hours
                      (timeouts st) (next_handle st)).

(** A pending timeout fires: it leaves the pending set and [tick] runs. *)
Definition on_timeout (h : nat) (st : State) : State :=
  if existsb (Nat.eqb h) (timeouts st) then
    tick (mkState (running st) (seconds st) (tickId st) (display st) (hoursInput st)
                  (remove_handle h (timeouts st)) (next_handle st))
  else st.

Definition step (st : State) (ev : Event) : State :=
  match ev with
  | ClickStart => on_start st
  | ClickPause => on_pause st
  | ClickStop => on_stop st
  | TimeoutFires h => on_timeout h st
  end.

Definition run (st : State) (evs : list Event) : State := fold_left step evs st.

End Handlers.

End Stopwatch.

(** ** The session stopwatch: the second closure of static/app.js *)

(** The closure state ([running], [secs], [tickHandle]), the display, the
    intervals that are active, and what each press of Stop led to.  The page
    is taken to have the stopwatch card: its buttons, its display and the
    hidden form with its six inputs. *)
Module SessionTimer.

(** An element found by [document.querySelector('[name=...]')]: a form
    control, whose [value] is a string, empty where the element has none. *)
Record Field : Type := mkField { value : string; textContent : string }.

Definition Dom : Type := string -> option Field.

(** One answer of the user to [window.prompt]: a text, or Cancel followed by
    the answer to [window.confirm]. *)
Inductive Answer : Type :=
| Typed (txt : string)
| Cancelled (discard : bool).

(** What the hidden form holds when [swForm.submit()] runs. *)
Record Submission : Type := mkSubmission {
  sw_client : string;
  sw_matter : string;
  sw_date : string;
  sw_hours : string;
  sw_desc : string;
  sw_elapsed : string
}.

Inductive Outcome : Type :=
| NotLogged                         (* under the threshold: alert, return *)
| AwaitingDescription               (* the prompt is open, no answer yet *)
| Discarded                         (* askDescription returned null *)
| Failed (e : JSError)              (* the handler's promise rejected *)
| Submitted (form : Submission).

Record State : Type := mkState {
  running : bool;
  secs : N;
  tickHandle : option nat;
  display : string;
  intervals : list nat;
  next_handle : nat;
  outcomes : list Outcome
}.

Inductive Event : Type :=
| ClickStart
| ClickPause
| ClickStop (answers : list Answer) (dom : Dom)
| IntervalFires (handle : nat).

(** The state after the initial [render()]. *)
Definition init : State := mkState false 0 None (Format.fmt 0) [] 1 [].

Definition render (st : State) : State :=
  mkState (running st) (secs st) (tickHandle st) (Format.fmt (secs st))
          (intervals st) (next_handle st) (outcomes st).

Definition tick (st : State) : State :=
  render (mkState (running st) (secs st + 1) (tickHandle st) (display st)
                  (intervals st) (next_handle st) (outcomes st)).

Definition start (st : State) : State :=
  if running st then st
  else mkState true (secs st) (Some (next_handle st)) (display st)
               (intervals st ++ [next_handle st]) (S (next_handle st)) (outcomes st).

Definition pause (st : State) : State :=
  if running st then
    mkState false (secs st) None (display st)
            (match tickHandle st with
             | Some (S h) => Stopwatch.remove_handle (S h) (intervals st)
             | Some 0%nat | None => intervals st
             end)
            (next_handle st) (outcomes st)
  else st.

Definition reset (st : State) : State :=
  let st1 := pause st in
  render (mkState (running st1) 0 (tickHandle st1) (display st1)
                  (intervals st1) (next_handle st1) (outcomes st1)).

Definition truthy (s : string) : bool := negb (String.eqb s EmptyString).

Section Handlers.

(** [String.prototype.trim], the threshold the server renders into the
    page, [toHours2(s).toFixed(2)] and today's date
    ([(new Date()).toISOString().slice(0,10)]). *)
Variable trim : string -> string.
Variable STOP_MIN_SECONDS : N.
Variable toHours2_fixed : N -> string.
Variable today : string.

(** [askDescription()]: [None] while the user has not yet given the answer
    that ends the loop. *)
Fixpoint askDescription (answers : list Answer) : option (option string) :=
  match answers with
  | [] => None
  | Cancelled true :: _ => Some None
  | Cancelled false :: rest => askDescription rest
  | Typed txt :: rest =>
      if truthy (trim txt) then Some (Some (trim txt)) else askDescription rest
  end.

(** [getFieldVal(name, fallback)] *)
Definition getFieldVal (dom : Dom) (name fallback : string) : Completion string :=
  match dom name with
  | None => Throw TypeError                    (* [null.trim] *)
  | Some f =>
      let raw := if truthy (value f) then value f
                 else if truthy (textContent f) then textContent f else EmptyString in
      Normal (if truthy (trim raw) then trim raw else fallback)
  end.

(** The body of the Stop handler after [reset()]. *)
Definition conclude (elapsed : N) (answers : list Answer) (dom : Dom) : Outcome :=
  if (elapsed <? STOP_MIN_SECONDS)%N then NotLogged
  else match askDescription answers with
       | None => AwaitingDescription
       | Some None => Discarded
       | Some (Some desc) =>
           match getFieldVal dom "client" "(Unspecified)" with
           | Throw e => Failed e
           | Normal client =>
               match getFieldVal dom "matter" "(Unspecified)" with
               | Throw e => Failed e
               | Normal matter =>
                   match getFieldVal dom "date_of_work" today with
                   | Throw e => Failed e
                   | Normal date =>
                       Submitted (mkSubmission client matter date (toHours2_fixed elapsed)
                                               desc (Format.String_of elapsed))
                   end
               end
           end
       end.

Definition stop (answers : list Answer) (dom : Dom) (st : State) : State :=
  let elapsed := secs st in
  let st1 := reset st in
  mkState (running st1) (secs st1) (tickHandle st1) (display st1)
          (intervals st1) (next_handle st1)
          (outcomes st1 ++ [conclude elapsed answers dom]).

(** An active interval fires: [tick] runs, the interval stays active. *)
Definition on_interval (h : nat) (st : State) : State :=
  if existsb (Nat.eqb h) (intervals st) then tick st else st.

Definition step (st : State) (ev : Event) : State :=
  match ev with
  | ClickStart => start st
  | ClickPause => pause st
  | ClickStop answers dom => stop answers dom st
  | IntervalFires h => on_interval h st
  end.

Definition run (st : State) (evs : list Event) : State := fold_left step evs st.

End Handlers.

End SessionTimer.

(* ================================================================== *)
(** * The entry form (static/offline.js, [enhanceForm]) *)
(* ================================================================== *)

Module EntryForm.

Import Offline.

(** The entries of [new FormData(formElement)]: the form has no file
    inputs, so every value is a string. *)
Definition FormData : Type := list (string * string).

(** [formData.get(name)]: the first value of that name, [None] for
    [null]. *)
Fixpoint get (fd : FormData) (name : string) : option string :=
  match fd with
  | [] => None
  | (k, v) :: rest => if String.eqb k name then Some v else get rest name
  end.

Definition field (fd : FormData) (name : string) : JSValue :=
  match get fd name with
  | Some v => JString v
  | None => JNull
  end.

(** [formData.get(name) || fallback] *)
Definition get_or (fd : FormData) (name fallback : string) : string :=
  match get fd name with
  | Some v => if String.eqb v EmptyString then fallback else v
  | None => fallback
  end.

(** What [fetch(formElement.action, ...)] does: a response with its status
    and final URL, or a rejection. *)
Inductive PostResult : Type :=
| Answered (status : Z) (url : string)
| Unreachable.

Inductive PageEffect : Type :=
| Post (action : string) (fd : FormData)
| Navigate (href : string)
| ResetForm.

Section Handler.

(** [parseFloat]: the number read from the text; [JNull] stands for [NaN],
    which [JSON.stringify] writes as [null]. *)
Variable parseFloat : string -> JSValue.

(** The object literal of lines 222-229; [today] is
    [new Date().toISOString().split('T')[0]]. *)
Definition entryData (today : string) (fd : FormData) : Obj :=
  [("client", field fd "client");
   ("matter", field fd "matter");
   ("date_of_work", JString (get_or fd "date_of_work" today));
   ("hours", parseFloat (get_or fd "hours" "0"));
   ("timekeeper", field fd "timekeeper");
   ("desc", field fd "desc")]%string.

(** The submit listener (lines 218-258), run to completion: [server] is the
    remote side, [action] the form's action, [now] the value of
    [Date.now()] if the entry is saved. *)
Definition on_submit (server : string -> FormData -> PostResult)
    (action today : string) (now : Z) (fd : FormData) (w : World)
  : World * list PageEffect :=
  let data := entryData today fd in
  if isOnline w then
    match server action fd with
    | Answered status url =>
        if ok status then
          (w, [Post action fd;
               Navigate (if String.eqb url EmptyString then "/entries" else url)])
        else (saveOfflineEntry data now w, [Post action fd])
    | Unreachable => (saveOfflineEntry data now w, [Post action fd])
    end
  else (saveOfflineEntry data now w, [ResetForm; Navigate "/entries"]).

End Handler.

End EntryForm.

(* ================================================================== *)
(** * Touch gestures (static/offline.js) *)
(* ================================================================== *)

(** Touch positions are taken in whole pixels, on which the subtractions
    and comparisons of the handlers are exact. *)

(** ** Swipe to delete: the listeners [initTouchGestures] puts on one row *)
Module Swipe.

Record State : Type := mkState { startX : Z; currentX : Z; swiping : bool }.

Inductive Event : Type :=
| TouchStart (clientX : Z)
| TouchMove (clientX : Z)
| TouchEnd (confirmed : bool).       (* the answer [confirm] gets if it is asked *)

Inductive Effect : Type :=
| Slide (diffX : Z) (highlight : bool)   (* translateX(-diffX px), reddish if set *)
| AskDelete                              (* confirm('Delete this entry?') *)
| PostDelete (id : string)               (* the form [deleteEntry] submits *)
| ResetRow.

Definition init : State := mkState 0 0 false.

(** [deleteEntry(entryId)] (lines 640-655); [None] is [undefined]. *)
Definition deleteEntry (entryId : option string) : list Effect :=
  match entryId with
  | Some id => if String.eqb id EmptyString then [] else [PostDelete id]
  | None => []
  end.

Section Row.

(** [row.dataset.entryId] *)
Variable entryId : option string.

Definition step (st : State) (ev : Event) : State * list Effect :=
  match ev with
  | TouchStart x => (mkState x (currentX st) true, [])
  | TouchMove x =>
      if swiping st then
        let diffX := startX st - x in
        (mkState (startX st) x true,
         if (0 <? diffX) && (diffX <? 100) then [Slide diffX (50 <? diffX)] else [])
      else (st, [])
  | TouchEnd confirmed =>
      if swiping st then
        let diffX := startX st - currentX st in
        (mkState (startX st) (currentX st) false,
         (if 50 <? diffX
          then AskDelete :: (if confirmed then deleteEntry entryId else [])
          else [])
         ++ [ResetRow])
      else (st, [])
  end.

Fixpoint run (st : State) (evs : list Event) : State * list Effect :=
  match evs with
  | [] => (st, [])
  | ev :: rest =>
      let (st1, out1) := step st ev in
      let (st2, out2) := run st1 rest in
      (st2, out1 ++ out2)
  end.

End Row.

End Swipe.

(** ** Pull to refresh: the listeners of [addPullToRefresh] *)
Module Pull.

Definition threshold : Z := 80.

Record State : Type := mkState { startY : Z; currentY : Z; pulling : bool }.

Inductive Event : Type :=
| TouchStart (scrollY : Z) (clientY : Z)
| TouchMove (clientY : Z)
| TouchEnd.

Inductive Effect : Type :=
| PreventDefault
| ShowIndicator (diffY : Z)     (* updatePullIndicator(min(diffY / threshold, 1)) *)
| Refresh                        (* triggerRefresh(): reload after 500 ms *)
| HideIndicator.

Definition init : State := mkState 0 0 false.

Definition step (st : State) (ev : Event) : State * list Effect :=
  match ev with
  | TouchStart scrollY y =>
      if scrollY =? 0 then (mkState y (currentY st) true, []) else (st, [])
  | TouchMove y =>
      if pulling st then
        let diffY := y - startY st in
        (mkState (startY st) y true,
         if (0 <? diffY) && (diffY <? threshold * 2)
         then [PreventDefault; ShowIndicator diffY] else [])
      else (st, [])
  | TouchEnd =>
      if pulling st then
        let diffY := currentY st - startY st in
        (mkState (startY st) (currentY st) false,
         (if threshold <? diffY then [Refresh] else []) ++ [HideIndicator])
      else (st, [])
  end.

Fixpoint run (st : State) (evs : list Event) : State * list Effect :=
  match evs with
  | [] => (st, [])
  | ev :: rest =>
      let (st1, out1) := step st ev in
      let (st2, out2) := run st1 rest in
      (st2, out1 ++ out2)
  end.

End Pull.

(* ================================================================== *)
(** * Calls that overlap (static/offline.js) *)
(* ================================================================== *)

(** [syncPendingEntries] is an [async] function: it runs until its
    [await fetch(...)], returns to the event loop with the request in
    flight, and goes on when the request settles.  Nothing makes the page
    wait for it: [handleOnline] and the click listener of the sync button
    call it without [await], and there is no flag that tells a second call
    that a first one is at work.  Between the sending of a request and its
    settling the page handles other events: another call of
    [syncPendingEntries], a [saveOfflineEntry].

    The state below holds what such calls share.  Entry objects live in
    [heap] under their identity, array objects in [arrays] under theirs: the
    loop of a call iterates the array object [this.pendingEntries] named when
    the loop began, [filter] makes a new array, [push] extends the current
    one in place, and [entry.synced = true] is a write to the one object all
    arrays share.  [Offline] above describes calls that settle one after
    the other. *)
Module Async.

Import Offline.

(** A call of [syncPendingEntries] waiting at [await fetch]. *)
Record Pass : Type := mkPass {
  iterated : nat;                 (* the array object its loop iterates *)
  position : nat;                 (* the index its array iterator reads next *)
  successfulSyncs : list nat;
  awaited : nat;                  (* the entry whose request is in flight *)
  sent : Request
}.

Record Page : Type := mkPage {
  isOnline : bool;
  heap : list Obj;                (* entry objects, by identity *)
  arrays : list (list nat);       (* array objects, by identity *)
  pendingEntries : nat;           (* [this.pendingEntries]: an array object *)
  localStorage : option string;
  passes : list (option Pass);    (* the calls, in call order; [None] once returned *)
  exchanges : list Exchange;      (* the requests that settled *)
  ui : list UIEvent;
  pathname : string
}.

Inductive Event : Type :=
| SaveOfflineEntry (entryData : Obj) (now : Z)
| ManualSync                                   (* click on [#manual-sync] *)
| Online
| Offline
| Settles (call : nat) (result : FetchResult). (* the request of that call settles *)

Fixpoint update {A : Type} (l : list A) (n : nat) (f : A -> A) : list A :=
  match l, n with
  | [], _ => []
  | x :: l', O => f x :: l'
  | x :: l', S n' => x :: update l' n' f
  end.

Definition entry_at (h : list Obj) (a : nat) : Entry := mkEntry a (nth a h []).

Definition elements (p : Page) (array : nat) : list nat := nth array (arrays p) [].

(** The entries [this.pendingEntries] holds, as they are now. *)
Definition queue (p : Page) : list Entry :=
  map (entry_at (heap p)) (elements p (pendingEntries p)).

(** The loop from the element at index [i] on, up to its next request:
    the first entry whose [synced] is falsy, and the index after it. *)
Fixpoint next_unsynced (h : list Obj) (elems : list nat) (i : nat) : option (nat * nat) :=
  match elems with
  | [] => None
  | a :: rest =>
      if synced (entry_at h a) then next_unsynced h rest (S i) else Some (a, S i)
  end.

(** Lines 149-161: filter the current array, store it, report. *)
Definition finish (ss : list nat) (p : Page) : Page :=
  let kept := filter (fun a => negb (synced (entry_at (heap p) a)))
                     (elements p (pendingEntries p)) in
  mkPage (isOnline p) (heap p) (arrays p ++ [kept]) (List.length (arrays p))
         (Some (persist (map (entry_at (heap p)) kept)))
         (passes p) (exchanges p)
         (ui p ++ HideSyncIndicator
               :: match ss with
                  | [] => []
                  | _ :: _ =>
                      ShowSyncSuccess (List.length ss)
                      :: (if String.eqb (pathname p) "/entries"
                          then [ReloadAfter 1000] else [])
                  end)
         (pathname p).

Definition set_pass (call : nat) (v : option Pass) (p : Page) : Page :=
  mkPage (isOnline p) (heap p) (arrays p) (pendingEntries p) (localStorage p)
         (update (passes p) call (fun _ => v)) (exchanges p) (ui p) (pathname p).

(** The loop of the call [call] goes on at index [pos] of the array [array]:
    it sends the request for the next entry not marked synced and waits, or
    it is at the end of the array and the call finishes. *)
Definition loop (call array pos : nat) (ss : list nat) (p : Page) : Page :=
  match next_unsynced (heap p) (skipn pos (elements p array)) pos with
  | Some (a, pos') =>
      set_pass call
        (Some (mkPass array pos' ss a (quick_entry_request (entry_at (heap p) a)))) p
  | None => finish ss (set_pass call None p)
  end.

(** [syncPendingEntries()] up to its first [await], or to its end when it
    makes no request. *)
Definition syncPendingEntries (p : Page) : Page :=
  match elements p (pendingEntries p) with
  | [] => p
  | _ :: _ =>
      loop (List.length (passes p)) (pendingEntries p) 0 []
        (mkPage (isOnline p) (heap p) (arrays p) (pendingEntries p) (localStorage p)
                (passes p ++ [None]) (exchanges p)
                (ui p ++ [ShowSyncIndicator
                            (List.length (elements p (pendingEntries p)))])
                (pathname p))
  end.

(** The request of the call [call] settles with [result], and the call goes
    on to its next [await] or to its end.  Nothing happens when that call
    has no request in flight. *)
Definition settle (call : nat) (result : FetchResult) (p : Page) : Page :=
  match nth call (passes p) None with
  | None => p
  | Some pass =>
      let answered :=
        mkPage (isOnline p) (heap p) (arrays p) (pendingEntries p) (localStorage p)
               (passes p)
               (exchanges p ++ [mkExchange (awaited pass) (sent pass) result])
               (ui p) (pathname p) in
      match result with
      | Response status =>
          if ok status then
            loop call (iterated pass) (position pass)
                 (successfulSyncs pass ++ [awaited pass])
                 (mkPage (isOnline p)
                         (update (heap p) (awaited pass)
                                 (fun o => Put o "synced" (JBool true)))
                         (arrays p) (pendingEntries p) (localStorage p) (passes p)
                         (exchanges answered) (ui p) (pathname p))
          else loop call (iterated pass) (position pass) (successfulSyncs pass) answered
      | NetworkError => finish (successfulSyncs pass) (set_pass call None answered)
      end
  end.

(** [saveOfflineEntry(entryData)]: the new object is pushed onto the current
    array, and the whole array is written to storage as it is. *)
Definition saveOfflineEntry (entryData : Obj) (now : Z) (p : Page) : Page :=
  let a := List.length (heap p) in
  let h := heap p ++ [new_entry entryData now] in
  let arrs := update (arrays p) (pendingEntries p) (fun elems => elems ++ [a]) in
  mkPage (isOnline p) h arrs (pendingEntries p)
         (Some (persist (map (entry_at h) (nth (pendingEntries p) arrs []))))
         (passes p) (exchanges p) (ui p ++ [ShowOfflineSuccess]) (pathname p).

Definition handleOnline (p : Page) : Page :=
  syncPendingEntries
    (mkPage true (heap p) (arrays p) (pendingEntries p) (localStorage p) (passes p)
            (exchanges p) (ui p ++ [HideOfflineIndicator]) (pathname p)).

Definition handleOffline (p : Page) : Page :=
  mkPage false (heap p) (arrays p) (pendingEntries p) (localStorage p) (passes p)
         (exchanges p) (ui p ++ [ShowOfflineIndicator]) (pathname p).

Definition step (p : Page) (ev : Event) : Page :=
  match ev with
  | SaveOfflineEntry entryData now => saveOfflineEntry entryData now p
  | ManualSync => syncPendingEntries p
  | Online => handleOnline p
  | Offline => handleOffline p
  | Settles call result => settle call result p
  end.

Definition run (p : Page) (evs : list Event) : Page := fold_left step evs p.

(** The page after [new OfflineManager()] loaded the entry objects [os]
    from the stored text [stored]. *)
Definition loaded (online : bool) (path : string) (stored : option string)
    (os : list Obj) : Page :=
  mkPage online os [seq 0 (List.length os)] 0 stored [] [] [] path.

End Async.

(* ================================================================== *)
(** * A queue that is not an array *)
(* ================================================================== *)

(** [loadPendingEntries] assigns whatever [JSON.parse] returns, so
    [this.pendingEntries] can hold any JSON value. *)
Module Loaded.

Import Offline.

(** [this.pendingEntries.push(entry)] on such a value: only an array has a
    [push] method ([null] has no properties, and a property named [push] of
    a parsed object is no function). *)
Definition push (queue entry : JSValue) : Completion JSValue :=
  match queue with
  | JArray l => Normal (JArray (l ++ [entry]))
  | JNull | JBool _ | JNumber _ _ | JString _ | JObject _ => Throw TypeError
  end.

(** [saveOfflineEntry(entryData)] (lines 81-95) on such a value: the value
    of the field afterwards and the text written to storage.  When [push]
    throws, nothing is written and the exception leaves the function. *)
Definition saveOfflineEntry (queue : JSValue) (entryData : Obj) (now : Z)
  : Completion (JSValue * string) :=
  match push queue (JObject (new_entry entryData now)) with
  | Normal q => Normal (q, JSON.stringify q)
  | Throw e => Throw e
  end.

End Loaded.

(* ================================================================== *)
(** * Vocabulary of the statements *)
(* ================================================================== *)

Import Offline.

(** [entry.id] *)
Definition entry_id (e : Entry) : option JSValue := Get (fields e) "id".

Definition addrs (q : list Entry) : list nat := map addr q.

Definition unsynced (e : Entry) : bool := negb (synced e).

(** The three components of the loop's result. *)
Definition loop_entries (fetch : Network) (k : nat) (q : list Entry) : list Entry :=
  fst (fst (sync_loop fetch k q)).

Definition loop_successes (fetch : Network) (k : nat) (q : list Entry) : list Entry :=
  snd (fst (sync_loop fetch k q)).

Definition loop_exchanges (fetch : Network) (k : nat) (q : list Entry) : list Exchange :=
  snd (sync_loop fetch k q).

(** The exchange of the [k]-th request, issued for [e]. *)
Definition exchange_for (fetch : Network) (k : nat) (e : Entry) : Exchange :=
  mkExchange (addr e) (quick_entry_request e) (fetch k (quick_entry_request e)).

(** Requests issued one after the other for the entries of [l], the first
    being the [k]-th of the pass. *)
Fixpoint requests_from (fetch : Network) (k : nat) (l : list Entry) : list Exchange :=
  match l with
  | [] => []
  | e :: l' => exchange_for fetch k e :: requests_from fetch (S k) l'
  end.

(** The queue left by one pass over [q], and the requests the pass made. *)
Definition pass_queue (fetch : Network) (q : list Entry) : list Entry :=
  filter unsynced (loop_entries fetch 0 q).

Definition pass_exchanges (fetch : Network) (q : list Entry) : list Exchange :=
  loop_exchanges fetch 0 q.

(** An accepted request for the object [a] occurs in [xs]. *)
Definition accepted_for (a : nat) (x : Exchange) : bool :=
  accepted x && Nat.eqb (subject x) a.

Definition accepted_in (xs : list Exchange) (a : nat) : bool :=
  existsb (accepted_for a) xs.

(** How many times the remote endpoint accepted a request for [a]. *)
Definition accepted_count (a : nat) (xs : list Exchange) : nat :=
  List.length (filter (accepted_for a) xs).

(** The entry objects created by the [saveOfflineEntry] calls of a run. *)
Fixpoint appended (ops : list Op) : list Obj :=
  match ops with
  | [] => []
  | SaveOfflineEntry entryData now :: ops' => new_entry entryData now :: appended ops'
  | _ :: ops' => appended ops'
  end.

(** The values of [Date.now()] seen by the [saveOfflineEntry] calls of a run. *)
Fixpoint timestamps (ops : list Op) : list Z :=
  match ops with
  | [] => []
  | SaveOfflineEntry _ now :: ops' => now :: timestamps ops'
  | _ :: ops' => timestamps ops'
  end.

(** A state of the manager as the code produces them: the array holds each
    object once, objects have identities below [next_addr], every request
    sent was for such an object, and an object whose request was accepted is
    no longer in the array. *)
Record well_formed (w : World) : Prop := {
  wf_nodup : NoDup (addrs (pendingEntries w));
  wf_queue : Forall (fun e => (addr e < next_addr w)%nat) (pendingEntries w);
  wf_subjects : Forall (fun x => (subject x < next_addr w)%nat) (exchanges w);
  wf_accepted : forall a, accepted_in (exchanges w) a = true ->
                          ~ In a (addrs (pendingEntries w))
}.

(** A stored value is serialised queue data when it parses to an array. *)
Definition valid_queue_data (text : string) : Prop :=
  exists l, JSON.parse text = Some (JArray l).

(** The persisted queue is the queue in memory. *)
Definition in_sync (w : World) : Prop :=
  localStorage w = Some (persist (pendingEntries w)).

(** The entry is in the queue and no request for it was accepted so far. *)
Definition queued (w : World) (e : Entry) : Prop :=
  In e (pendingEntries w) /\ accepted_count (addr e) (exchanges w) = 0%nat.

(** The entry is out of the queue, and the remote endpoint accepted exactly
    one request for it, the request carrying that entry. *)
Definition delivered (w : World) (e : Entry) : Prop :=
  ~ In (addr e) (addrs (pendingEntries w))
  /\ accepted_count (addr e) (exchanges w) = 1%nat
  /\ exists x, In x (exchanges w) /\ accepted x = true
               /\ subject x = addr e /\ request x = quick_entry_request e.

(** The effect of one call on the queue, and the requests it makes. *)
Definition op_queue (op : Op) (n : nat) (q : list Entry) : list Entry :=
  match op with
  | SaveOfflineEntry entryData now => q ++ [mkEntry n (new_entry entryData now)]
  | SyncPendingEntries fetch | HandleOnline fetch => pass_queue fetch q
  | HandleOffline => q
  end.

Definition op_exchanges (op : Op) (q : list Entry) : list Exchange :=
  match op with
  | SyncPendingEntries fetch | HandleOnline fetch => pass_exchanges fetch q
  | SaveOfflineEntry _ _ | HandleOffline => []
  end.

Definition op_allocs (op : Op) : nat :=
  match op with
  | SaveOfflineEntry _ _ => 1%nat
  | _ => 0%nat
  end.

(** A point inside a pass started in [w] against [fetch]: the first [n]
    requests of the pass have been answered.  The loop does not write to
    [localStorage], so the persisted queue is still that of [w]; the requests
    sent so far are those of [w] and a prefix of those of the pass. *)
Definition exchanges_at (w : World) (fetch : Network) (n : nat) : list Exchange :=
  exchanges w ++ firstn n (pass_exchanges fetch (pendingEntries w)).

(** ** Sample inputs *)

(** What [enhanceForm] collects from the entry form. *)
Definition form_data (client desc : string) : Obj :=
  [("client", JString client); ("matter", JString "M-17");
   ("date_of_work", JString "2024-03-01"); ("hours", JNumber 15 (-1));
   ("timekeeper", JString "Alice"); ("desc", JString desc)]%string.

Definition entry_A : Entry := mkEntry 0 (new_entry (form_data "Acme" "call") 1000).
Definition entry_B : Entry := mkEntry 1 (new_entry (form_data "Birch" "draft") 1001).
Definition entry_C : Entry := mkEntry 2 (new_entry (form_data "Cole" "review") 1002).

(** Three submissions made while offline, on a fresh installation. *)
Definition world_ABC : World :=
  run (fresh false "/entry")
      [SaveOfflineEntry (form_data "Acme" "call") 1000;
       SaveOfflineEntry (form_data "Birch" "draft") 1001;
       SaveOfflineEntry (form_data "Cole" "review") 1002].

(** Two submissions. *)
Definition world_AB : World :=
  run (fresh false "/entry")
      [SaveOfflineEntry (form_data "Acme" "call") 1000;
       SaveOfflineEntry (form_data "Birch" "draft") 1001].

(** The first request is accepted, the second cannot complete. *)
Definition net_accept_then_drop : Network :=
  fun k _ => match k with
             | O => Response 201
             | _ => NetworkError
             end.

(** The first request is rejected with 422, the others are accepted. *)
Definition net_reject_then_accept : Network :=
  fun k _ => match k with
             | O => Response 422
             | _ => Response 200
             end.

Definition net_accept : Network := fun _ _ => Response 200.

Definition net_down : Network := fun _ _ => NetworkError.

(** A stored queue whose first entry carries [synced: true]. *)
Definition stale_entry : Obj :=
  Put (new_entry (form_data "Stale" "old") 900) "synced" (JBool true).

Definition stale_storage : string :=
  JSON.stringify
    (JArray [JObject stale_entry; JObject (new_entry (form_data "Birch" "draft") 1001)]).

Definition stale_world : World :=
  mkWorld true
    [mkEntry 0 stale_entry; mkEntry 1 (new_entry (form_data "Birch" "draft") 1001)]
    (Some stale_storage) 2 [] [] "/entry".

(** Two submissions within the same millisecond. *)
Definition world_same_ms : World :=
  run (fresh false "/entry")
      [SaveOfflineEntry (form_data "Acme" "call") 1000;
       SaveOfflineEntry (form_data "Birch" "draft") 1000].

(** The runs used to illustrate the statements. *)
Definition ops_ABC : list Op :=
  [SaveOfflineEntry (form_data "Acme" "call") 1000;
   SaveOfflineEntry (form_data "Birch" "draft") 1001;
   SaveOfflineEntry (form_data "Cole" "review") 1002].

Definition ops_ABC_then_sync : list Op :=
  ops_ABC ++ [HandleOnline net_accept_then_drop].

(* ================================================================== *)
(** * Further vocabulary *)
(* ================================================================== *)

(** [l1] is [l2] with some elements left out, the others in the same
    order. *)
Inductive subseq {A : Type} : list A -> list A -> Prop :=
| subseq_nil : subseq [] []
| subseq_skip (x : A) (l1 l2 : list A) : subseq l1 l2 -> subseq l1 (x :: l2)
| subseq_keep (x : A) (l1 l2 : list A) : subseq l1 l2 -> subseq (x :: l1) (x :: l2).

(** ** The service worker *)

(** The network answers a GET for [u] with an [ok] response. *)
Definition fetchable (net : ShellCache.Net) (u : string) : Prop :=
  exists r, net (ShellCache.GET u) = Some r /\ ShellCache.response_ok r = true.

(** The cache storage after the worker was installed against [net] and
    activated. *)
Definition activated (net : ShellCache.Net) (cs : ShellCache.CacheStorage)
  : ShellCache.CacheStorage :=
  fst (ShellCache.activate (ShellCache.caches_after (ShellCache.install net cs))).

(** A server that answers every shell URL with a page naming it. *)
Definition net_shell : ShellCache.Net :=
  fun req => Some (ShellCache.mkResponse 200 ("page " +++ ShellCache.req_url req)).

(** A server on which [/options] is missing. *)
Definition net_no_options : ShellCache.Net :=
  fun req =>
    if String.eqb (ShellCache.req_url req) "/options"
    then Some (ShellCache.mkResponse 404 "not found")
    else Some (ShellCache.mkResponse 200 ("page " +++ ShellCache.req_url req)).

Definition net_offline : ShellCache.Net := fun _ => None.

(** A storage left by an earlier version of the worker. *)
Definition old_caches : ShellCache.CacheStorage :=
  [("legal-time-tracker-v0"%string,
    [("/"%string, ShellCache.mkResponse 200 "old root")])].

(** ** The stopwatches *)

(** Reading a displayed time back: the text up to the first colon, and
    the rest after it. *)
Fixpoint split_colon (s : string) : string * string :=
  match s with
  | EmptyString => (EmptyString, EmptyString)
  | String c rest =>
      if Ascii.eqb c ":" then (EmptyString, rest)
      else let (a, b) := split_colon rest in (String c a, b)
  end.

(** The number a string of decimal digits denotes. *)
Definition read_digits (s : string) : option N :=
  option_map N.of_uint (DecimalString.NilEmpty.uint_of_string s).

(** The count of seconds a text [h:m:s] denotes. *)
Definition read_hhmmss (s : string) : option N :=
  let (a, r) := split_colon s in
  let (b, c) := split_colon r in
  match read_digits a, read_digits b, read_digits c with
  | Some h, Some m, Some sec => Some (3600 * h + 60 * m + sec)%N
  | _, _, _ => None
  end.

(** The timers the browser holds for a stopwatch are the one its handle
    names while it runs, and none while it does not. *)
Definition one_timer (running : bool) (handle : option nat) (timers : list nat) : Prop :=
  if running then exists h, handle = Some (S h) /\ timers = [S h]
  else handle = None /\ timers = [].

(** A press of Pause followed by a press of Start, [n] times. *)
Fixpoint pause_resume (n : nat) : list Stopwatch.Event :=
  match n with
  | O => []
  | S k => Stopwatch.ClickPause :: Stopwatch.ClickStart :: pause_resume k
  end.

(** The firings of an interval among the events. *)
Definition is_interval_firing (ev : SessionTimer.Event) : bool :=
  match ev with SessionTimer.IntervalFires _ => true | _ => false end.

(** An answer that makes [askDescription] ask again. *)
Definition asks_again (trim : string -> string) (a : SessionTimer.Answer) : bool :=
  match a with
  | SessionTimer.Typed txt => negb (SessionTimer.truthy (trim txt))
  | SessionTimer.Cancelled discard => negb discard
  end.

(** The last outcome a press of Stop had. *)
Definition last_outcome (st : SessionTimer.State) : option SessionTimer.Outcome :=
  last (map Some (SessionTimer.outcomes st)) None.

(** [toHours2(s).toFixed(2)] computed in exact arithmetic: the hundredths
    of an hour nearest to [s] seconds. *)
Definition hours_rounded (s : N) : string :=
  let k := ((s + 18) / 36)%N in
  Format.String_of (k / 100) +++ "." +++ Format.pad (k mod 100).

(** What the stop handler of the first stopwatch writes with it. *)
Definition hours_if_counted (s : N) : option string :=
  if (18 <=? s)%N then Some (hours_rounded s) else None.

(** [trim] on texts whose only white space is the space character. *)
Fixpoint drop_spaces (l : list ascii) : list ascii :=
  match l with
  | c :: rest => if Ascii.eqb c " " then drop_spaces rest else l
  | [] => []
  end.

Definition trim_spaces (s : string) : string :=
  string_of_list_ascii
    (rev (drop_spaces (rev (drop_spaces (list_ascii_of_string s))))).

(** A page with the entry form, and a page without it. *)
Definition entry_page : SessionTimer.Dom :=
  fun name =>
    if String.eqb name "client" then Some (SessionTimer.mkField " Smith " EmptyString)
    else if String.eqb name "matter" then Some (SessionTimer.mkField EmptyString "Lease")
    else if String.eqb name "date_of_work"
         then Some (SessionTimer.mkField "2024-05-01" EmptyString)
    else None.

Definition bare_page : SessionTimer.Dom := fun _ => None.

(** Five minutes on the session stopwatch. *)
Definition five_minutes : list SessionTimer.Event :=
  SessionTimer.ClickStart :: repeat (SessionTimer.IntervalFires 1) 300.

(** ** Values that survive storage *)

(** A number JavaScript writes without an exponent, held in the form
    [JSON.parse] reads it back in: an integer of at most 21 digits with
    exponent [0], or a decimal fraction whose last digit is not [0]. *)
Definition plain_number (m e : Z) : bool :=
  if m =? 0 then e =? 0
  else
    let k := Z.of_nat (List.length (JSON.decimal_of_Z (Z.abs m))) in
    ((e =? 0) && (k <=? 21))
    || ((e <? 0) && negb (Z.abs m mod 10 =? 0) && (-6 <? k + e) && (k + e <=? 21)).

Fixpoint distinct_keys (ks : list string) : bool :=
  match ks with
  | [] => true
  | k :: rest => negb (existsb (String.eqb k) rest) && distinct_keys rest
  end.

(** Values whose text [JSON.parse] reads back as the same value: plain
    numbers, and objects that name each property once. *)
Fixpoint storable (v : JSValue) : bool :=
  match v with
  | JNull | JBool _ | JString _ => true
  | JNumber m e => plain_number m e
  | JArray l => forallb storable l
  | JObject ps =>
      distinct_keys (map fst ps) && forallb (fun kv => storable (snd kv)) ps
  end.

(** What may follow a value inside a JSON text. *)
Definition closes (rest : list ascii) : Prop :=
  match rest with
  | [] => True
  | c :: _ => c = ","%char \/ c = "]"%char \/ c = "}"%char
  end.

(** A reading of [parseFloat] on texts that are decimal numerals. *)
Definition parseFloat_decimal (s : string) : JSValue :=
  match JSON.parse_number (JSON.chars s) with
  | Some (v, _) => v
  | None => JNull
  end.

(** A filled entry form. *)
Definition filled_form : EntryForm.FormData :=
  [("client", "Acme"); ("matter", "M-17"); ("date_of_work", EmptyString);
   ("hours", "1.5"); ("timekeeper", "Alice"); ("desc", "call")]%string.

(** A server for the form that cannot be reached. *)
Definition form_server_down : string -> EntryForm.FormData -> EntryForm.PostResult :=
  fun _ _ => EntryForm.Unreachable.

(** A call that saves data which survives storage, at a time of at most 21
    digits; the other calls save nothing. *)
Definition saves_storable (op : Op) : bool :=
  match op with
  | SaveOfflineEntry entryData now => storable (JObject entryData) && plain_number now 0
  | SyncPendingEntries _ | HandleOnline _ | HandleOffline => true
  end.

(** ** Values JavaScript reads back as they are written *)

(** A property name that is a numeral: JavaScript lists such properties
    first, in numeric order, whatever the order they were written in. *)
Definition numeral (k : string) : bool :=
  match DecimalString.NilEmpty.uint_of_string k with
  | Some _ => negb (String.eqb k EmptyString)
  | None => false
  end.

(** A plain number of at most 15 significant digits: binary64 holds any
    two of them apart, so the number read from the text is written with the
    same digits again. *)
Definition short_number (m e : Z) : bool :=
  plain_number m e
  && (Z.of_nat (List.length (JSON.decimal_of_Z (Z.abs m))) <=? 15).

(** Values on which reading and writing in JavaScript keep the text:
    short numbers, and objects that name each property once and none by a
    numeral. *)
Fixpoint portable (v : JSValue) : bool :=
  match v with
  | JNull | JBool _ | JString _ => true
  | JNumber m e => short_number m e
  | JArray l => forallb portable l
  | JObject ps =>
      distinct_keys (map fst ps)
      && forallb (fun kv => negb (numeral (fst kv)) && portable (snd kv)) ps
  end.

(* ================================================================== *)
(** * Vocabulary for calls that overlap *)
(* ================================================================== *)

(** The events of [n] rounds in which the request of the first call settles
    and then the request of the second, each with [result]. *)
Fixpoint in_turns (n : nat) (result : FetchResult) : list Async.Event :=
  match n with
  | O => []
  | S k => Async.Settles 0 result :: Async.Settles 1 result :: in_turns k result
  end.

(** The calls of [saveOfflineEntry] for a list of submissions, each given by
    its data and the time of the call. *)
Definition saves (submissions : list (Obj * Z)) : list Async.Event :=
  map (fun d => Async.SaveOfflineEntry (fst d) (snd d)) submissions.

(** The entry objects these calls create. *)
Definition saved (submissions : list (Obj * Z)) : list Obj :=
  map (fun d => new_entry (fst d) (snd d)) submissions.

(** A page on a fresh installation. *)
Definition fresh_page (online : bool) (path : string) : Async.Page :=
  Async.loaded online path None [].

(** The entry objects with [synced = true] written to the first [k]. *)
Definition marked (k : nat) (h : list Obj) : list Obj :=
  map (fun o => Put o "synced" (JBool true)) (firstn k h) ++ skipn k h.

(** The request sent for the entry object [a] of [h], settled with
    [result]. *)
Definition settled (h : list Obj) (result : FetchResult) (a : nat) : Exchange :=
  mkExchange a (quick_entry_request (Async.entry_at h a)) result.

(** Each of the first [k] entries answered twice, one entry after the
    other. *)
Definition each_twice (h : list Obj) (result : FetchResult) (k : nat) : list Exchange :=
  flat_map (fun a => [settled h result a; settled h result a]) (seq 0 k).

Definition is_array (v : JSValue) : bool :=
  match v with
  | JArray _ => true
  | _ => false
  end.

(** Three submissions, as the entry form makes them. *)
Definition submissions_ABC : list (Obj * Z) :=
  [(form_data "Acme" "call", 1000); (form_data "Birch" "draft", 1001);
   (form_data "Cole" "review", 1002)].

(** Two calls of [syncPendingEntries] over the array of the entry objects
    [h] both wait for the answer about the entry [k]: the entries before it
    are marked synced, and each of them was answered twice with
    [result]. *)
Definition both_wait (h : list Obj) (before : list Exchange) (result : FetchResult)
    (k : nat) (p : Async.Page) : Prop :=
  Async.heap p = marked k h
  /\ Async.arrays p = [seq 0 (List.length h)]
  /\ Async.pendingEntries p = 0%nat
  /\ (exists ss1 ss2,
         Async.passes p
         = [Some (Async.mkPass 0 (S k) ss1 k (quick_entry_request (Async.entry_at h k)));
            Some (Async.mkPass 0 (S k) ss2 k (quick_entry_request (Async.entry_at h k)))])
  /\ Async.exchanges p = before ++ each_twice h result k.

(* ================================================================== *)
(** * Lemmas *)
(* ================================================================== *)

Ltac distinct := vm_compute; repeat constructor; simpl; intuition discriminate.

(** ** Objects *)

Lemma Get_Put_same (o : Obj) (k : string) (v : JSValue) :
  Get (Put o k v) k = Some v.
Proof.
  induction o as [|[k' v'] o IH]; simpl.
  - now rewrite String.eqb_refl.
  - destruct (String.eqb k' k) eqn:E; simpl; rewrite E; auto.
Qed.

Lemma Get_Put_other (o : Obj) (k k' : string) (v : JSValue) :
  k <> k' -> Get (Put o k v) k' = Get o k'.
Proof.
  intros Hne. induction o as [|[k0 v0] o IH]; simpl.
  - destruct (String.eqb k k') eqn:E; auto.
    apply String.eqb_eq in E. contradiction.
  - destruct (String.eqb k0 k) eqn:E; simpl.
    + apply String.eqb_eq in E. subst k0.
      destruct (String.eqb k k') eqn:E'; auto.
      apply String.eqb_eq in E'. contradiction.
    + destruct (String.eqb k0 k'); auto.
Qed.

Lemma synced_mark_synced (e : Entry) : synced (mark_synced e) = true.
Proof. unfold synced, mark_synced. simpl. now rewrite Get_Put_same. Qed.

Lemma synced_new_entry (a : nat) (entryData : Obj) (now : Z) :
  synced (mkEntry a (new_entry entryData now)) = false.
Proof. unfold synced, new_entry. simpl. now rewrite Get_Put_same. Qed.

Lemma entry_id_new_entry (a : nat) (entryData : Obj) (now : Z) :
  entry_id (mkEntry a (new_entry entryData now)) = Some (JString (offline_id now)).
Proof.
  unfold entry_id, new_entry. simpl.
  rewrite Get_Put_other by discriminate.
  rewrite Get_Put_other by discriminate.
  apply Get_Put_same.
Qed.

(** ** Loading *)

(** A stored value that parses to something else than [null] becomes the
    value of [this.pendingEntries], whatever it is. *)
Lemma load_keeps_parsed_value (text : string) (v cur : JSValue) :
  text <> EmptyString ->
  JSON.parse text = Some v ->
  v <> JNull ->
  loadPendingEntries (Some text) cur = Normal v.
Proof.
  intros Hne Hp Hv. unfold loadPendingEntries, JSON_parse.
  apply String.eqb_neq in Hne. rewrite Hne, Hp.
  destruct v; try reflexivity. congruence.
Qed.

(** ** The parser's fuel *)

Section ParserFuel.

Import JSON.

Lemma length_skip_ws (s : list ascii) :
  (List.length (skip_ws s) <= List.length s)%nat.
Proof.
  induction s as [|c s IH]; simpl; [lia|].
  destruct (is_ws c); simpl; lia.
Qed.

Lemma length_strip_prefix (p s r : list ascii) :
  strip_prefix p s = Some r -> (List.length r <= List.length s)%nat.
Proof.
  revert s. induction p as [|a p IH]; intros s H; simpl in H.
  - injection H as <-. lia.
  - destruct s as [|b s]; [discriminate|].
    destruct (Ascii.eqb a b); [|discriminate].
    apply IH in H. simpl. lia.
Qed.

Lemma length_span_digits (s ds rest : list ascii) :
  span_digits s = (ds, rest) -> (List.length rest <= List.length s)%nat.
Proof.
  revert ds rest. induction s as [|c s IH]; intros ds rest H; simpl in H.
  - injection H as <- <-. simpl. lia.
  - destruct (is_digit c).
    + destruct (span_digits s) as [ds' rest'] eqn:E.
      injection H as <- <-. specialize (IH _ _ eq_refl). simpl. lia.
    + injection H as <- <-. lia.
Qed.

Lemma length_parse_string (n : nat) :
  forall s acc k r,
    (List.length s <= n)%nat ->
    parse_string s acc = Some (k, r) -> (List.length r <= List.length s)%nat.
Proof.
  induction n as [|n IH]; intros s acc k r Hn H.
  - destruct s; [discriminate | simpl in Hn; lia].
  - destruct s as [|c s]; [discriminate|]. simpl in H, Hn.
    destruct (Ascii.eqb c dquote).
    { injection H as <- <-. simpl. lia. }
    destruct (Ascii.eqb c backslash).
    + destruct s as [|e s]; [discriminate|].
      destruct (Ascii.eqb e "u").
      * destruct s as [|h1 [|h2 [|h3 [|h4 s]]]]; try discriminate.
        destruct (hex_value h1), (hex_value h2), (hex_value h3), (hex_value h4);
          try discriminate.
        apply IH in H; simpl in *; lia.
      * destruct (unescape e); [|discriminate].
        apply IH in H; simpl in *; lia.
    + destruct (Nat.ltb (nat_of_ascii c) 32); [discriminate|].
      apply IH in H; simpl in *; lia.
Qed.

Lemma length_parse_sign (s r : list ascii) (b : bool) :
  parse_sign s = (b, r) -> (List.length r <= List.length s)%nat.
Proof.
  unfold parse_sign. destruct s as [|c s]; [intros [= <- <-]; lia|].
  destruct (Ascii.eqb c "-"); intros [= <- <-]; simpl; lia.
Qed.

Lemma length_parse_fraction (s fp r : list ascii) :
  parse_fraction s = Some (fp, r) -> (List.length r <= List.length s)%nat.
Proof.
  unfold parse_fraction. destruct s as [|c s]; [intros [= <- <-]; lia|].
  destruct (Ascii.eqb c "."); [|intros [= <- <-]; lia].
  destruct (span_digits s) as [ds rest] eqn:E.
  apply length_span_digits in E.
  destruct ds; [discriminate|]. intros [= <- <-]. simpl. lia.
Qed.

Lemma length_parse_exponent_sign (s r : list ascii) (b : bool) :
  parse_exponent_sign s = (b, r) -> (List.length r <= List.length s)%nat.
Proof.
  unfold parse_exponent_sign. destruct s as [|c s]; [intros [= <- <-]; lia|].
  destruct (Ascii.eqb c "-"); [intros [= <- <-]; simpl; lia|].
  destruct (Ascii.eqb c "+"); intros [= <- <-]; simpl; lia.
Qed.

Lemma length_parse_exponent (s r : list ascii) (ex : Z) :
  parse_exponent s = Some (ex, r) -> (List.length r <= List.length s)%nat.
Proof.
  unfold parse_exponent. destruct s as [|c s]; [intros [= <- <-]; lia|].
  destruct (Ascii.eqb c "e" || Ascii.eqb c "E"); [|intros [= <- <-]; lia].
  destruct (parse_exponent_sign s) as [eneg r'] eqn:Es.
  apply length_parse_exponent_sign in Es.
  destruct (span_digits r') as [ds rest] eqn:E.
  apply length_span_digits in E.
  destruct ds; [discriminate|]. intros [= <- <-]. simpl. lia.
Qed.

Lemma length_parse_number (s : list ascii) (v : JSValue) (r : list ascii) :
  parse_number s = Some (v, r) -> (List.length r <= List.length s)%nat.
Proof.
  unfold parse_number.
  destruct (parse_sign s) as [neg s1] eqn:E1. apply length_parse_sign in E1.
  destruct (span_digits s1) as [ip s2] eqn:E2. apply length_span_digits in E2.
  destruct (valid_int ip); [|discriminate].
  destruct (parse_fraction s2) as [[fp s3]|] eqn:E3; [|discriminate].
  apply length_parse_fraction in E3.
  destruct (parse_exponent s3) as [[ex s4]|] eqn:E4; [|discriminate].
  apply length_parse_exponent in E4.
  intros [= <- <-]. lia.
Qed.

(** A parse that succeeds with some fuel succeeds with any fuel that is at
    least twice the number of characters it reads, plus one. *)
Lemma parse_fuel_enough (f' : nat) :
  (forall s v r,
      parse_value f' s = Some (v, r) ->
      (List.length r <= List.length s)%nat
      /\ forall f, (2 * (List.length s - List.length r) + 1 <= f)%nat ->
                   parse_value f s = Some (v, r))
  /\ (forall s acc v r,
         parse_elements f' s acc = Some (v, r) ->
         (List.length r < List.length s)%nat
         /\ forall f, (2 * (List.length s - List.length r) <= f)%nat ->
                      parse_elements f s acc = Some (v, r))
  /\ (forall s acc v r,
         parse_members f' s acc = Some (v, r) ->
         (List.length r < List.length s)%nat
         /\ forall f, (2 * (List.length s - List.length r) <= f)%nat ->
                      parse_members f s acc = Some (v, r)).
Proof.
  induction f' as [|f' [IHv [IHe IHm]]]; [repeat split; discriminate|].
  split; [|split].
  - (* a value *)
    intros s v r H. cbn [parse_value] in H.
    pose proof (length_skip_ws s) as Hws.
    destruct (skip_ws s) as [|c r0] eqn:Ews; [discriminate|]. simpl in Hws.
    destruct (Ascii.eqb c "n") eqn:E1.
    { destruct (strip_prefix (chars "ull") r0) as [r'|] eqn:Ep; [|discriminate].
      injection H as <- <-. apply length_strip_prefix in Ep as Hl.
      split; [lia|]. intros [|f] Hf; [lia|].
      cbn [parse_value]. now rewrite Ews, E1, Ep. }
    destruct (Ascii.eqb c "t") eqn:E2.
    { destruct (strip_prefix (chars "rue") r0) as [r'|] eqn:Ep; [|discriminate].
      injection H as <- <-. apply length_strip_prefix in Ep as Hl.
      split; [lia|]. intros [|f] Hf; [lia|].
      cbn [parse_value]. now rewrite Ews, E1, E2, Ep. }
    destruct (Ascii.eqb c "f") eqn:E3.
    { destruct (strip_prefix (chars "alse") r0) as [r'|] eqn:Ep; [|discriminate].
      injection H as <- <-. apply length_strip_prefix in Ep as Hl.
      split; [lia|]. intros [|f] Hf; [lia|].
      cbn [parse_value]. now rewrite Ews, E1, E2, E3, Ep. }
    destruct (Ascii.eqb c dquote) eqn:E4.
    { destruct (parse_string r0 []) as [[k r']|] eqn:Ep; [|discriminate].
      injection H as <- <-.
      apply (length_parse_string (List.length r0)) in Ep as Hl; [|lia].
      split; [simpl; lia|]. intros [|f] Hf; [lia|].
      cbn [parse_value]. now rewrite Ews, E1, E2, E3, E4, Ep. }
    destruct (Ascii.eqb c "[") eqn:E5.
    { pose proof (length_skip_ws r0) as Hws2.
      destruct (skip_ws r0) as [|c' r'] eqn:Ews2; [discriminate|]. simpl in Hws2.
      destruct (Ascii.eqb c' "]") eqn:E6.
      - injection H as <- <-.
        split; [lia|]. intros [|f] Hf; [lia|].
        cbn [parse_value]. now rewrite Ews, E1, E2, E3, E4, E5, Ews2, E6.
      - destruct (IHe _ _ _ _ H) as [Hl Hf'].
        split; [lia|]. intros [|f] Hf; [lia|].
        cbn [parse_value]. rewrite Ews, E1, E2, E3, E4, E5, Ews2, E6.
        apply Hf'. lia. }
    destruct (Ascii.eqb c "{") eqn:E6.
    { pose proof (length_skip_ws r0) as Hws2.
      destruct (skip_ws r0) as [|c' r'] eqn:Ews2; [discriminate|]. simpl in Hws2.
      destruct (Ascii.eqb c' "}") eqn:E7.
      - injection H as <- <-.
        split; [lia|]. intros [|f] Hf; [lia|].
        cbn [parse_value]. now rewrite Ews, E1, E2, E3, E4, E5, E6, Ews2, E7.
      - destruct (IHm _ _ _ _ H) as [Hl Hf'].
        split; [lia|]. intros [|f] Hf; [lia|].
        cbn [parse_value]. rewrite Ews, E1, E2, E3, E4, E5, E6, Ews2, E7.
        apply Hf'. lia. }
    apply length_parse_number in H as Hl. simpl in Hl.
    split; [lia|]. intros [|f] Hf; [lia|].
    cbn [parse_value]. now rewrite Ews, E1, E2, E3, E4, E5, E6.
  - (* the elements of an array *)
    intros s acc v r H. cbn [parse_elements] in H.
    destruct (parse_value f' s) as [[v1 r1]|] eqn:Ev; [|discriminate].
    destruct (IHv _ _ _ Ev) as [Hl1 Hf1].
    pose proof (length_skip_ws r1) as Hws.
    destruct (skip_ws r1) as [|c r'] eqn:Ews; [discriminate|]. simpl in Hws.
    destruct (Ascii.eqb c ",") eqn:E1.
    + destruct (IHe _ _ _ _ H) as [Hl Hf'].
      split; [lia|]. intros [|f] Hf; [lia|].
      cbn [parse_elements]. rewrite Hf1 by lia. rewrite Ews, E1.
      apply Hf'. lia.
    + destruct (Ascii.eqb c "]") eqn:E2; [|discriminate].
      injection H as <- <-.
      split; [lia|]. intros [|f] Hf; [lia|].
      cbn [parse_elements]. rewrite Hf1 by lia. now rewrite Ews, E1, E2.
  - (* the members of an object *)
    intros s acc v r H. cbn [parse_members] in H.
    pose proof (length_skip_ws s) as Hws.
    destruct (skip_ws s) as [|q r0] eqn:Ews; [discriminate|]. simpl in Hws.
    destruct (Ascii.eqb q dquote) eqn:E0; [|discriminate].
    destruct (parse_string r0 []) as [[k r1]|] eqn:Ep; [|discriminate].
    apply (length_parse_string (List.length r0)) in Ep as Hl0; [|lia].
    pose proof (length_skip_ws r1) as Hws1.
    destruct (skip_ws r1) as [|c1 r2] eqn:Ews1; [discriminate|]. simpl in Hws1.
    destruct (Ascii.eqb c1 ":") eqn:E1; [|discriminate].
    destruct (parse_value f' r2) as [[v1 r3]|] eqn:Ev; [|discriminate].
    destruct (IHv _ _ _ Ev) as [Hl1 Hf1].
    pose proof (length_skip_ws r3) as Hws3.
    destruct (skip_ws r3) as [|c r4] eqn:Ews3; [discriminate|]. simpl in Hws3.
    destruct (Ascii.eqb c ",") eqn:E2.
    + destruct (IHm _ _ _ _ H) as [Hl Hf'].
      split; [lia|]. intros [|f] Hf; [lia|].
      cbn [parse_members]. rewrite Ews, E0, Ep, Ews1, E1.
      rewrite Hf1 by lia. rewrite Ews3, E2. apply Hf'. lia.
    + destruct (Ascii.eqb c "}") eqn:E3; [|discriminate].
      injection H as <- <-.
      split; [lia|]. intros [|f] Hf; [lia|].
      cbn [parse_members]. rewrite Ews, E0, Ep, Ews1, E1.
      rewrite Hf1 by lia. now rewrite Ews3, E2, E3.
Qed.

(** The fuel [JSON.parse] gives the parser is enough: a text that the
    grammar accepts with any amount of fuel is accepted by [JSON.parse], with
    the same value. *)
Lemma parse_fuel_adequate (text : string) (f : nat) (v : JSValue) (r : list ascii) :
  parse_value f (chars text) = Some (v, r) ->
  skip_ws r = [] ->
  JSON.parse text = Some v.
Proof.
  intros H Hr. unfold JSON.parse.
  destruct (parse_fuel_enough f) as [Hv _].
  destruct (Hv _ _ _ H) as [Hl Hf].
  rewrite Hf by lia. now rewrite Hr.
Qed.

End ParserFuel.

(** ** The loop, by components *)

Lemma sync_loop_eta (fetch : Network) (k : nat) (q : list Entry) :
  sync_loop fetch k q
  = (loop_entries fetch k q, loop_successes fetch k q, loop_exchanges fetch k q).
Proof.
  unfold loop_entries, loop_successes, loop_exchanges.
  now destruct (sync_loop fetch k q) as [[es ss] xs].
Qed.

Lemma loop_entries_cons fetch k e rest :
  loop_entries fetch k (e :: rest) =
  if synced e then e :: loop_entries fetch k rest
  else match fetch k (quick_entry_request e) with
       | Response status =>
           (if ok status then mark_synced e else e) :: loop_entries fetch (S k) rest
       | NetworkError => e :: rest
       end.
Proof.
  unfold loop_entries. simpl.
  destruct (synced e).
  - now destruct (sync_loop fetch k rest) as [[es ss] xs].
  - destruct (fetch k (quick_entry_request e)) as [status|]; [|reflexivity].
    destruct (ok status);
      now destruct (sync_loop fetch (S k) rest) as [[es ss] xs].
Qed.

Lemma loop_exchanges_cons fetch k e rest :
  loop_exchanges fetch k (e :: rest) =
  if synced e then loop_exchanges fetch k rest
  else match fetch k (quick_entry_request e) with
       | Response _ => exchange_for fetch k e :: loop_exchanges fetch (S k) rest
       | NetworkError => [exchange_for fetch k e]
       end.
Proof.
  unfold loop_exchanges, exchange_for. simpl.
  destruct (synced e).
  - now destruct (sync_loop fetch k rest) as [[es ss] xs].
  - destruct (fetch k (quick_entry_request e)) as [status|]; [|reflexivity].
    destruct (ok status);
      now destruct (sync_loop fetch (S k) rest) as [[es ss] xs].
Qed.

Lemma loop_successes_cons fetch k e rest :
  loop_successes fetch k (e :: rest) =
  if synced e then loop_successes fetch k rest
  else match fetch k (quick_entry_request e) with
       | Response status =>
           if ok status then mark_synced e :: loop_successes fetch (S k) rest
           else loop_successes fetch (S k) rest
       | NetworkError => []
       end.
Proof.
  unfold loop_successes. simpl.
  destruct (synced e).
  - now destruct (sync_loop fetch k rest) as [[es ss] xs].
  - destruct (fetch k (quick_entry_request e)) as [status|]; [|reflexivity].
    destruct (ok status);
      now destruct (sync_loop fetch (S k) rest) as [[es ss] xs].
Qed.

Lemma pendingEntries_sync fetch w :
  pendingEntries (syncPendingEntries fetch w) = pass_queue fetch (pendingEntries w).
Proof.
  unfold syncPendingEntries, pass_queue.
  destruct (pendingEntries w) as [|e q] eqn:E; [now rewrite E|].
  rewrite sync_loop_eta. reflexivity.
Qed.

Lemma exchanges_sync fetch w :
  exchanges (syncPendingEntries fetch w)
  = exchanges w ++ pass_exchanges fetch (pendingEntries w).
Proof.
  unfold syncPendingEntries, pass_exchanges.
  destruct (pendingEntries w) as [|e q] eqn:E.
  - simpl. now rewrite app_nil_r.
  - rewrite sync_loop_eta. reflexivity.
Qed.

Lemma localStorage_sync fetch w :
  pendingEntries w <> [] ->
  localStorage (syncPendingEntries fetch w)
  = Some (persist (pass_queue fetch (pendingEntries w))).
Proof.
  unfold syncPendingEntries, pass_queue.
  destruct (pendingEntries w) as [|e q] eqn:E; [congruence|].
  intros _. rewrite sync_loop_eta. reflexivity.
Qed.

Lemma next_addr_sync fetch w :
  next_addr (syncPendingEntries fetch w) = next_addr w.
Proof.
  unfold syncPendingEntries.
  destruct (pendingEntries w) as [|e q]; [reflexivity|].
  rewrite sync_loop_eta. reflexivity.
Qed.

(** ** Lists of entries *)

Lemma NoDup_addrs_filter (p : Entry -> bool) (q : list Entry) :
  NoDup (addrs q) -> NoDup (addrs (filter p q)).
Proof.
  unfold addrs. induction q as [|e q IH]; simpl; intros H; [constructor|].
  inversion H as [|? ? Hnotin Hq]; subst.
  destruct (p e); simpl; auto.
  constructor; auto.
  intros Hin. apply Hnotin.
  apply in_map_iff in Hin. destruct Hin as [e' [Ha He']].
  apply filter_In in He'. apply in_map_iff. exists e'. tauto.
Qed.

Lemma NoDup_addrs_firstn (n : nat) (q : list Entry) :
  NoDup (addrs q) -> NoDup (addrs (firstn n q)).
Proof.
  unfold addrs. intros H.
  rewrite <- (firstn_skipn n q), map_app in H.
  now apply NoDup_app_remove_r in H.
Qed.

Lemma NoDup_addrs_entries (q : list Entry) : NoDup (addrs q) -> NoDup q.
Proof. apply NoDup_map_inv. Qed.

Lemma in_addrs (e : Entry) (q : list Entry) : In e q -> In (addr e) (addrs q).
Proof. apply in_map. Qed.

(** In an array without repeated objects, the object at an address is
    determined. *)
Lemma NoDup_addrs_inj (q : list Entry) (e e' : Entry) :
  NoDup (addrs q) -> In e q -> In e' q -> addr e = addr e' -> e = e'.
Proof.
  unfold addrs. induction q as [|x q IH]; simpl; intros H He He' Ha; [tauto|].
  inversion H as [|? ? Hnotin Hq]; subst.
  destruct He as [->|He], He' as [->|He']; auto.
  - exfalso. apply Hnotin. rewrite Ha. now apply in_map.
  - exfalso. apply Hnotin. rewrite <- Ha. now apply in_map.
Qed.

(** ** The loop *)

Section Loop.

Variable fetch : Network.

Lemma addrs_loop_entries (q : list Entry) :
  forall k, addrs (loop_entries fetch k q) = addrs q.
Proof.
  unfold addrs.
  induction q as [|e rest IH]; intros k; [reflexivity|].
  rewrite loop_entries_cons.
  destruct (synced e); [simpl; now rewrite IH|].
  destruct (fetch k (quick_entry_request e)) as [st|]; [|reflexivity].
  simpl. rewrite IH. now destruct (ok st).
Qed.

Lemma subject_requests_from (l : list Entry) :
  forall k, map subject (requests_from fetch k l) = addrs l.
Proof.
  induction l as [|e l IH]; intros k; simpl; [reflexivity|].
  now rewrite IH.
Qed.

Lemma request_requests_from (l : list Entry) :
  forall k, map request (requests_from fetch k l) = map quick_entry_request l.
Proof.
  induction l as [|e l IH]; intros k; simpl; [reflexivity|].
  now rewrite IH.
Qed.

Lemma length_requests_from (l : list Entry) :
  forall k, List.length (requests_from fetch k l) = List.length l.
Proof.
  induction l as [|e l IH]; intros k; simpl; [reflexivity|].
  now rewrite IH.
Qed.

(** The requests of a pass are issued for the entries that were unsynced at
    its start, one each, in queue order, up to the point where it stops. *)
Lemma loop_exchanges_prefix (q : list Entry) :
  forall k,
    loop_exchanges fetch k q
    = requests_from fetch k
        (firstn (List.length (loop_exchanges fetch k q)) (filter unsynced q)).
Proof.
  induction q as [|e rest IH]; intros k; [reflexivity|].
  rewrite loop_exchanges_cons. simpl filter.
  destruct (synced e) eqn:Es.
  - replace (unsynced e) with false by (unfold unsynced; now rewrite Es).
    apply IH.
  - replace (unsynced e) with true by (unfold unsynced; now rewrite Es).
    destruct (fetch k (quick_entry_request e)) as [st|] eqn:E; simpl.
    + f_equal. apply IH.
    + reflexivity.
Qed.

Lemma loop_exchanges_in (q : list Entry) :
  forall k x,
    In x (loop_exchanges fetch k q) ->
    exists e j, In e q /\ synced e = false /\ x = exchange_for fetch j e.
Proof.
  induction q as [|e rest IH]; intros k x; [simpl; tauto|].
  rewrite loop_exchanges_cons.
  destruct (synced e) eqn:Es.
  - intros H. destruct (IH _ _ H) as [e' [j [? [? ?]]]].
    exists e', j. simpl. tauto.
  - destruct (fetch k (quick_entry_request e)) as [st|] eqn:E; simpl.
    + intros [<-|H].
      * exists e, k. simpl. tauto.
      * destruct (IH _ _ H) as [e' [j [? [? ?]]]]. exists e', j. simpl. tauto.
    + intros [<-|[]]. exists e, k. simpl. tauto.
Qed.

Lemma loop_exchanges_subject (q : list Entry) (k : nat) (x : Exchange) :
  In x (loop_exchanges fetch k q) -> In (subject x) (addrs q).
Proof.
  intros H. destruct (loop_exchanges_in _ _ _ H) as [e [j [He [_ ->]]]].
  simpl. now apply in_addrs.
Qed.

Lemma accepted_in_outside (q : list Entry) (k : nat) (a : nat) :
  ~ In a (addrs q) -> accepted_in (loop_exchanges fetch k q) a = false.
Proof.
  intros Hn. unfold accepted_in.
  destruct (existsb _ _) eqn:E; [|reflexivity].
  apply existsb_exists in E. destruct E as [x [Hx Hacc]].
  unfold accepted_for in Hacc. apply andb_true_iff in Hacc.
  destruct Hacc as [_ Heq]. apply Nat.eqb_eq in Heq. subst a.
  exfalso. apply Hn. eapply loop_exchanges_subject; eauto.
Qed.

(** After the loop, the entries not marked synced are those that were
    unsynced before it and for which no request of the pass was accepted;
    they are unchanged and in their original order. *)
Lemma filter_loop_entries (q : list Entry) :
  forall k,
    NoDup (addrs q) ->
    filter unsynced (loop_entries fetch k q)
    = filter (fun e => unsynced e
                       && negb (accepted_in (loop_exchanges fetch k q) (addr e))) q.
Proof.
  induction q as [|e rest IH]; intros k Hnd; [reflexivity|].
  inversion Hnd as [|? ? Hnotin Hrest]; subst.
  assert (Hother : forall x r, subject x = addr e -> In r rest ->
                     accepted_for (addr r) x = false).
  { intros x r Hx Hr. unfold accepted_for. rewrite Hx.
    destruct (Nat.eqb (addr e) (addr r)) eqn:E; [|apply andb_false_r].
    apply Nat.eqb_eq in E. exfalso. apply Hnotin. rewrite E. now apply in_addrs. }
  assert (Hacc : forall x xs r, subject x = addr e -> In r rest ->
                   accepted_in (x :: xs) (addr r) = accepted_in xs (addr r)).
  { intros x xs r Hx Hr. unfold accepted_in. cbn [existsb].
    now rewrite (Hother x r Hx Hr). }
  rewrite loop_entries_cons, loop_exchanges_cons.
  destruct (synced e) eqn:Es.
  - assert (Hu : unsynced e = false) by (unfold unsynced; now rewrite Es).
    cbn [filter]. rewrite Hu. cbn [andb]. now apply IH.
  - assert (Hu : unsynced e = true) by (unfold unsynced; now rewrite Es).
    destruct (fetch k (quick_entry_request e)) as [st|] eqn:E.
    + assert (Hrest' : filter unsynced (loop_entries fetch (S k) rest)
                       = filter (fun r => unsynced r
                           && negb (accepted_in
                                (exchange_for fetch k e :: loop_exchanges fetch (S k) rest)
                                (addr r))) rest).
      { rewrite IH by assumption. apply filter_ext_in. intros r Hr.
        now rewrite Hacc. }
      assert (Hhead : accepted_in
                        (exchange_for fetch k e :: loop_exchanges fetch (S k) rest)
                        (addr e) = ok st).
      { unfold accepted_in. cbn [existsb].
        fold (accepted_in (loop_exchanges fetch (S k) rest) (addr e)).
        rewrite accepted_in_outside by assumption.
        unfold accepted_for, accepted, exchange_for. cbn [result subject].
        rewrite E, Nat.eqb_refl. now rewrite andb_true_r, orb_false_r. }
      cbn [filter]. rewrite Hhead, Hu.
      destruct (ok st) eqn:Eok; cbn [andb negb].
      * replace (unsynced (mark_synced e)) with false
          by (unfold unsynced; now rewrite synced_mark_synced).
        exact Hrest'.
      * rewrite Hu. f_equal. exact Hrest'.
    + apply filter_ext. intros r. unfold accepted_in, accepted_for, accepted.
      cbn [existsb exchange_for result]. rewrite E. cbn [andb orb negb].
      now rewrite andb_true_r.
Qed.

End Loop.

(** ** Counting accepted requests *)

Lemma accepted_in_app (xs ys : list Exchange) (a : nat) :
  accepted_in (xs ++ ys) a = accepted_in xs a || accepted_in ys a.
Proof. apply existsb_app. Qed.

Lemma accepted_count_app (a : nat) (xs ys : list Exchange) :
  accepted_count a (xs ++ ys) = (accepted_count a xs + accepted_count a ys)%nat.
Proof. unfold accepted_count. now rewrite filter_app, length_app. Qed.

Lemma accepted_count_zero (a : nat) (xs : list Exchange) :
  accepted_in xs a = false -> accepted_count a xs = 0%nat.
Proof.
  unfold accepted_in, accepted_count.
  induction xs as [|x xs IH]; simpl; [reflexivity|].
  intros H. apply orb_false_iff in H. destruct H as [Hx Hxs].
  rewrite Hx. auto.
Qed.

Lemma accepted_count_pos (a : nat) (xs : list Exchange) :
  accepted_in xs a = true -> (1 <= accepted_count a xs)%nat.
Proof.
  unfold accepted_in, accepted_count.
  induction xs as [|x xs IH]; simpl; [discriminate|].
  destruct (accepted_for a x); simpl; [lia | auto].
Qed.

Lemma accepted_count_absent (a : nat) (xs : list Exchange) :
  ~ In a (map subject xs) -> accepted_count a xs = 0%nat.
Proof.
  unfold accepted_count. induction xs as [|x xs IH]; simpl; [reflexivity|].
  intros H. unfold accepted_for at 1.
  destruct (Nat.eqb (subject x) a) eqn:E.
  - apply Nat.eqb_eq in E. tauto.
  - rewrite andb_false_r. apply IH. tauto.
Qed.

Lemma accepted_count_cons (a : nat) (x : Exchange) (xs : list Exchange) :
  accepted_count a (x :: xs)
  = ((if accepted_for a x then 1 else 0) + accepted_count a xs)%nat.
Proof. unfold accepted_count. simpl. now destruct (accepted_for a x). Qed.

Lemma accepted_count_NoDup (a : nat) (xs : list Exchange) :
  NoDup (map subject xs) -> (accepted_count a xs <= 1)%nat.
Proof.
  induction xs as [|x xs IH]; simpl; intros H; [unfold accepted_count; simpl; lia|].
  inversion H as [|? ? Hnotin Hxs]; subst.
  rewrite accepted_count_cons. unfold accepted_for.
  destruct (Nat.eqb (subject x) a) eqn:E.
  - apply Nat.eqb_eq in E. subst a.
    rewrite (accepted_count_absent _ _ Hnotin).
    destruct (accepted x); simpl; lia.
  - rewrite andb_false_r. simpl. now apply IH.
Qed.

Lemma NoDup_subjects_loop (fetch : Network) (q : list Entry) (k : nat) :
  NoDup (addrs q) -> NoDup (map subject (loop_exchanges fetch k q)).
Proof.
  intros H. rewrite loop_exchanges_prefix, subject_requests_from.
  now apply NoDup_addrs_firstn, NoDup_addrs_filter.
Qed.

Lemma accepted_count_loop (fetch : Network) (q : list Entry) (k : nat) (a : nat) :
  NoDup (addrs q) ->
  accepted_count a (loop_exchanges fetch k q)
  = if accepted_in (loop_exchanges fetch k q) a then 1%nat else 0%nat.
Proof.
  intros H. destruct (accepted_in _ _) eqn:E.
  - pose proof (accepted_count_pos _ _ E).
    pose proof (accepted_count_NoDup a _ (NoDup_subjects_loop fetch q k H)). lia.
  - now apply accepted_count_zero.
Qed.

(** ** One pass over a queue *)

Lemma pass_queue_spec (fetch : Network) (q : list Entry) :
  NoDup (addrs q) ->
  pass_queue fetch q
  = filter (fun e => unsynced e
                     && negb (accepted_in (pass_exchanges fetch q) (addr e))) q.
Proof. apply filter_loop_entries. Qed.

Lemma pass_queue_incl (fetch : Network) (q : list Entry) :
  NoDup (addrs q) -> incl (pass_queue fetch q) q.
Proof. intros H. rewrite pass_queue_spec by assumption. apply incl_filter. Qed.

Lemma pass_queue_NoDup (fetch : Network) (q : list Entry) :
  NoDup (addrs q) -> NoDup (addrs (pass_queue fetch q)).
Proof.
  intros H. unfold pass_queue. apply NoDup_addrs_filter.
  now rewrite addrs_loop_entries.
Qed.

Lemma pass_queue_addrs (fetch : Network) (q : list Entry) (a : nat) :
  In a (addrs (pass_queue fetch q)) -> In a (addrs q).
Proof.
  unfold pass_queue, addrs. intros H.
  apply in_map_iff in H. destruct H as [e [<- He]].
  apply filter_In in He. destruct He as [He _].
  fold (addrs q). rewrite <- (addrs_loop_entries fetch q 0).
  now apply in_addrs.
Qed.

Lemma pass_queue_not_accepted (fetch : Network) (q : list Entry) (a : nat) :
  NoDup (addrs q) ->
  accepted_in (pass_exchanges fetch q) a = true ->
  ~ In a (addrs (pass_queue fetch q)).
Proof.
  intros Hnd Hacc Hin. rewrite pass_queue_spec in Hin by assumption.
  apply in_map_iff in Hin. destruct Hin as [e [<- He]].
  apply filter_In in He. destruct He as [_ He].
  apply andb_true_iff in He. destruct He as [_ He].
  rewrite Hacc in He. discriminate.
Qed.

Lemma pass_queue_kept (fetch : Network) (q : list Entry) (e : Entry) :
  NoDup (addrs q) -> In e q -> synced e = false ->
  accepted_in (pass_exchanges fetch q) (addr e) = false ->
  In e (pass_queue fetch q).
Proof.
  intros Hnd He Hs Hacc. rewrite pass_queue_spec by assumption.
  apply filter_In. split; [assumption|].
  unfold unsynced. now rewrite Hs, Hacc.
Qed.

(** The accepted request for an entry of the queue carries that entry. *)
Lemma pass_accepted_request (fetch : Network) (q : list Entry) (e : Entry) :
  NoDup (addrs q) -> In e q ->
  accepted_in (pass_exchanges fetch q) (addr e) = true ->
  exists x, In x (pass_exchanges fetch q) /\ accepted x = true
            /\ subject x = addr e /\ request x = quick_entry_request e.
Proof.
  intros Hnd He Hacc. unfold accepted_in in Hacc.
  apply existsb_exists in Hacc. destruct Hacc as [x [Hx Hacc]].
  apply andb_true_iff in Hacc. destruct Hacc as [Hok Hsub].
  apply Nat.eqb_eq in Hsub.
  exists x. repeat split; try assumption.
  destruct (loop_exchanges_in _ _ _ _ Hx) as [e' [j [He' [_ ->]]]].
  simpl in Hsub. simpl.
  now rewrite (NoDup_addrs_inj q e' e Hnd He' He Hsub).
Qed.

(** ** One call on the manager *)

Lemma pendingEntries_step (w : World) (op : Op) :
  pendingEntries (step w op) = op_queue op (next_addr w) (pendingEntries w).
Proof.
  destruct op as [d now|f|f|]; simpl; try reflexivity.
  - apply pendingEntries_sync.
  - unfold handleOnline. now rewrite pendingEntries_sync.
Qed.

Lemma exchanges_step (w : World) (op : Op) :
  exchanges (step w op) = exchanges w ++ op_exchanges op (pendingEntries w).
Proof.
  destruct op as [d now|f|f|]; simpl; try (now rewrite app_nil_r).
  - apply exchanges_sync.
  - unfold handleOnline. now rewrite exchanges_sync.
Qed.

Lemma next_addr_step (w : World) (op : Op) :
  next_addr (step w op) = (next_addr w + op_allocs op)%nat.
Proof.
  destruct op as [d now|f|f|]; simpl; try lia.
  - rewrite next_addr_sync. lia.
  - unfold handleOnline. rewrite next_addr_sync. simpl. lia.
Qed.

Lemma in_sync_sync (fetch : Network) (w : World) :
  in_sync w -> in_sync (syncPendingEntries fetch w).
Proof.
  intros H.
  destruct (pendingEntries w) as [|e q] eqn:E.
  - replace (syncPendingEntries fetch w) with w; [exact H|].
    unfold syncPendingEntries. now rewrite E.
  - unfold in_sync.
    rewrite localStorage_sync, pendingEntries_sync by congruence. reflexivity.
Qed.

Lemma in_sync_step (w : World) (op : Op) : in_sync w -> in_sync (step w op).
Proof.
  destruct op as [d now|f|f|]; simpl; intros H.
  - reflexivity.
  - now apply in_sync_sync.
  - unfold handleOnline. now apply in_sync_sync.
  - exact H.
Qed.

Lemma in_sync_run (ops : list Op) :
  forall w, in_sync w -> in_sync (run w ops).
Proof.
  induction ops as [|op ops IH]; intros w H; [exact H|].
  simpl. apply IH. now apply in_sync_step.
Qed.

Lemma op_exchanges_subject (op : Op) (q : list Entry) (x : Exchange) :
  In x (op_exchanges op q) -> In (subject x) (addrs q).
Proof.
  destruct op as [d now|f|f|]; simpl; try tauto;
    apply loop_exchanges_subject.
Qed.

Lemma well_formed_step (w : World) (op : Op) :
  well_formed w -> well_formed (step w op).
Proof.
  intros [Hnd Hq Hx Hacc].
  assert (Hlt : forall a, In a (addrs (pendingEntries w)) -> (a < next_addr w)%nat).
  { intros a Ha. apply in_map_iff in Ha. destruct Ha as [e [<- He]].
    rewrite Forall_forall in Hq. now apply Hq. }
  constructor; rewrite ?pendingEntries_step, ?exchanges_step, ?next_addr_step.
  - (* no object twice *)
    destruct op as [d now|f|f|]; simpl; try assumption;
      try (now apply pass_queue_NoDup).
    unfold addrs. rewrite map_app. simpl.
    apply NoDup_app. repeat split; try assumption.
    + repeat constructor. simpl. tauto.
    + intros a Ha [<-|[]]. apply Hlt in Ha. lia.
  - (* identities are allocated *)
    apply Forall_forall. intros e He.
    assert (Hin : In e (pendingEntries w) \/ addr e = next_addr w /\ op_allocs op = 1%nat).
    { destruct op as [d now|f|f|]; simpl in He; auto.
      - apply in_app_or in He. destruct He as [He|[<-|[]]]; auto.
      - left. now apply (pass_queue_incl f).
      - left. now apply (pass_queue_incl f). }
    destruct Hin as [Hin|[-> ->]]; [|lia].
    apply in_addrs, Hlt in Hin. lia.
  - (* requests are for allocated objects *)
    apply Forall_app. split.
    + eapply Forall_impl; [|exact Hx]. simpl. intros; lia.
    + apply Forall_forall. intros x Hin.
      apply op_exchanges_subject, Hlt in Hin. lia.
  - (* an accepted object is out of the queue *)
    intros a Ha. rewrite accepted_in_app in Ha.
    destruct op as [d now|f|f|]; simpl in *;
      try (rewrite orb_false_r in Ha).
    + intros Hin. unfold addrs in Hin. rewrite map_app in Hin.
      apply in_app_or in Hin. destruct Hin as [Hin|[<-|[]]].
      * now apply (Hacc a).
      * unfold accepted_in in Ha. apply existsb_exists in Ha.
        destruct Ha as [x [Hin Hfor]].
        apply andb_true_iff in Hfor. destruct Hfor as [_ Heq].
        apply Nat.eqb_eq in Heq.
        rewrite Forall_forall in Hx. apply Hx in Hin. simpl in Heq. lia.
    + apply orb_true_iff in Ha. destruct Ha as [Ha|Ha].
      * intros Hin. apply pass_queue_addrs in Hin. now apply (Hacc a).
      * now apply pass_queue_not_accepted.
    + apply orb_true_iff in Ha. destruct Ha as [Ha|Ha].
      * intros Hin. apply pass_queue_addrs in Hin. now apply (Hacc a).
      * now apply pass_queue_not_accepted.
    + now apply Hacc.
Qed.

Lemma well_formed_run (ops : list Op) :
  forall w, well_formed w -> well_formed (run w ops).
Proof.
  induction ops as [|op ops IH]; intros w H; [exact H|].
  simpl. apply IH. now apply well_formed_step.
Qed.

Lemma well_formed_fresh (online : bool) (path : string) :
  well_formed (fresh online path).
Proof.
  constructor; simpl; try constructor.
  intros a H. discriminate.
Qed.

Lemma addrs_allocate (os : list Obj) :
  forall n, addrs (allocate n os) = seq n (List.length os).
Proof.
  induction os as [|o os IH]; intros n; simpl; [reflexivity|].
  f_equal. apply IH.
Qed.

(** The state a page starts in is well formed. *)
Lemma well_formed_boot (online : bool) (path : string) (stored : option string)
      (w : World) :
  boot online path stored = Some w -> well_formed w.
Proof.
  unfold boot. intros H.
  destruct (constructor_pendingEntries stored) as [v|]; [|discriminate].
  destruct v; try discriminate.
  destruct (objects elems) as [os|]; [|discriminate].
  injection H as <-.
  constructor; simpl.
  - rewrite addrs_allocate. apply seq_NoDup.
  - apply Forall_forall. intros e He.
    apply in_addrs in He. rewrite addrs_allocate in He.
    apply in_seq in He. lia.
  - constructor.
  - intros a Ha. discriminate.
Qed.

(** ** Following one entry through a run *)

Lemma tracked_step (w : World) (op : Op) (e : Entry) :
  well_formed w -> synced e = false -> (addr e < next_addr w)%nat ->
  queued w e \/ delivered w e ->
  queued (step w op) e \/ delivered (step w op) e.
Proof.
  intros Hwf Hs Hlt H. pose proof (wf_nodup w Hwf) as Hnd.
  unfold queued, delivered in *.
  rewrite pendingEntries_step, exchanges_step, accepted_count_app.
  assert (Hpass : forall f,
    (In e (pass_queue f (pendingEntries w)) /\
     (accepted_count (addr e) (exchanges w)
      + accepted_count (addr e) (pass_exchanges f (pendingEntries w)) = 0)%nat) \/
    (~ In (addr e) (addrs (pass_queue f (pendingEntries w))) /\
     (accepted_count (addr e) (exchanges w)
      + accepted_count (addr e) (pass_exchanges f (pendingEntries w)) = 1)%nat /\
     exists x, In x (exchanges w ++ pass_exchanges f (pendingEntries w))
               /\ accepted x = true /\ subject x = addr e
               /\ request x = quick_entry_request e)).
  { intros f. destruct H as [[Hin Hc]|[Hout [Hc [x [Hx Hrest]]]]].
    - assert (Hcnt : accepted_count (addr e) (pass_exchanges f (pendingEntries w))
                     = if accepted_in (pass_exchanges f (pendingEntries w)) (addr e)
                       then 1%nat else 0%nat)
        by (now apply accepted_count_loop).
      rewrite Hcnt.
      destruct (accepted_in (pass_exchanges f (pendingEntries w)) (addr e)) eqn:Ea.
      + right. split; [now apply pass_queue_not_accepted|].
        split; [lia|].
        destruct (pass_accepted_request f _ e Hnd Hin Ea) as [x [Hx Hrest]].
        exists x. split; [apply in_or_app; now right | exact Hrest].
      + left. split; [now apply pass_queue_kept | lia].
    - right. split; [intros Hin; now apply pass_queue_addrs in Hin|].
      assert (Hcnt : accepted_count (addr e) (pass_exchanges f (pendingEntries w))
                     = 0%nat)
        by (apply accepted_count_zero; now apply accepted_in_outside).
      rewrite Hcnt.
      split; [lia|].
      exists x. split; [apply in_or_app; now left | exact Hrest]. }
  destruct op as [d now|f|f|]; simpl op_queue; simpl op_exchanges;
    try apply Hpass.
  - (* saveOfflineEntry *)
    change (accepted_count (addr e) []) with 0%nat.
    rewrite Nat.add_0_r, app_nil_r.
    destruct H as [[Hin Hc]|[Hout Hrest]].
    + left. split; [apply in_or_app; now left | exact Hc].
    + right. split; [|exact Hrest].
      unfold addrs. rewrite map_app. intros Hin.
      apply in_app_or in Hin. destruct Hin as [Hin|[Heq|[]]]; [tauto|].
      simpl in Heq. lia.
  - (* handleOffline *)
    change (accepted_count (addr e) []) with 0%nat.
    rewrite Nat.add_0_r, app_nil_r. exact H.
Qed.

Lemma tracked_run (ops : list Op) :
  forall (w : World) (e : Entry),
    well_formed w -> synced e = false -> (addr e < next_addr w)%nat ->
    queued w e \/ delivered w e ->
    queued (run w ops) e \/ delivered (run w ops) e.
Proof.
  induction ops as [|op ops IH]; intros w e Hwf Hs Hlt H; [exact H|].
  simpl. apply IH.
  - now apply well_formed_step.
  - exact Hs.
  - rewrite next_addr_step. lia.
  - now apply tracked_step.
Qed.

Lemma appended_tracked (ops : list Op) :
  forall (w : World) (e : Entry),
    well_formed w ->
    In e (allocate (next_addr w) (appended ops)) ->
    in_sync (run w ops) /\ (queued (run w ops) e \/ delivered (run w ops) e).
Proof.
  induction ops as [|op ops IH]; intros w e Hwf He; [destruct He|].
  assert (Hother : op_allocs op = 0%nat ->
            In e (allocate (next_addr w) (appended ops)) ->
            in_sync (run w (op :: ops))
            /\ (queued (run w (op :: ops)) e \/ delivered (run w (op :: ops)) e)).
  { intros H0 He'. simpl. apply IH; [now apply well_formed_step|].
    rewrite next_addr_step, H0, Nat.add_0_r. exact He'. }
  destruct op as [d now|f|f|]; try (apply Hother; [reflexivity | exact He]).
  simpl in He. destruct He as [<-|He].
  - (* the entry created by this call *)
    split.
    + simpl. apply in_sync_run. reflexivity.
    + simpl. apply tracked_run.
      * now apply (well_formed_step w (SaveOfflineEntry d now)).
      * apply synced_new_entry.
      * simpl. lia.
      * left. split; [simpl; apply in_or_app; right; now left|].
        simpl. apply accepted_count_absent. intros Hin.
        apply in_map_iff in Hin. destruct Hin as [x [Hsub Hx]].
        pose proof (wf_subjects w Hwf) as Hall.
        rewrite Forall_forall in Hall. apply Hall in Hx. lia.
  - simpl. apply IH.
    + now apply (well_formed_step w (SaveOfflineEntry d now)).
    + exact He.
Qed.

(** ** Points inside a pass *)

Lemma in_firstn {A} (n : nat) (l : list A) (x : A) : In x (firstn n l) -> In x l.
Proof.
  intros H. rewrite <- (firstn_skipn n l). apply in_or_app. now left.
Qed.

Lemma tracked_inside_pass (w : World) (fetch : Network) (n : nat) (e : Entry) :
  well_formed w ->
  queued w e \/ delivered w e ->
  (In e (pendingEntries w)
   /\ (accepted_count (addr e) (exchanges_at w fetch n) <= 1)%nat)
  \/ (~ In (addr e) (addrs (pendingEntries w))
      /\ accepted_count (addr e) (exchanges_at w fetch n) = 1%nat).
Proof.
  intros Hwf H. pose proof (wf_nodup w Hwf) as Hnd.
  unfold exchanges_at. rewrite accepted_count_app.
  destruct H as [[Hin Hc]|[Hout [Hc _]]].
  - left. split; [exact Hin|]. rewrite Hc. simpl.
    apply accepted_count_NoDup.
    rewrite <- firstn_map.
    pose proof (NoDup_subjects_loop fetch _ 0 Hnd) as Hs.
    fold (pass_exchanges fetch (pendingEntries w)) in Hs.
    rewrite <- (firstn_skipn n (map subject _)) in Hs.
    now apply NoDup_app_remove_r in Hs.
  - right. split; [exact Hout|]. rewrite Hc.
    rewrite accepted_count_absent; [reflexivity|].
    intros Hin. apply in_map_iff in Hin. destruct Hin as [x [Hsub Hx]].
    apply in_firstn in Hx. apply loop_exchanges_subject in Hx.
    rewrite Hsub in Hx. contradiction.
Qed.

(** ** Requests made after an acceptance *)

Lemma exchanges_run_later (ops : list Op) :
  forall (w : World) (a : nat),
    well_formed w ->
    accepted_in (exchanges w) a = true ->
    exists later,
      exchanges (run w ops) = exchanges w ++ later
      /\ Forall (fun x => subject x <> a) later.
Proof.
  induction ops as [|op ops IH]; intros w a Hwf Ha.
  - exists []. simpl. now rewrite app_nil_r.
  - simpl.
    destruct (IH (step w op) a) as [later [Heq Hall]].
    + now apply well_formed_step.
    + rewrite exchanges_step, accepted_in_app, Ha. reflexivity.
    + exists (op_exchanges op (pendingEntries w) ++ later). split.
      * rewrite Heq, exchanges_step. now rewrite app_assoc.
      * apply Forall_app. split; [|exact Hall].
        apply Forall_forall. intros x Hx Hsub.
        apply op_exchanges_subject in Hx. rewrite Hsub in Hx.
        now apply (wf_accepted w Hwf a).
Qed.

(** ** Identifiers *)

Lemma timestamp_string_inj (t t' : Z) :
  timestamp_string t = timestamp_string t' -> t = t'.
Proof.
  unfold timestamp_string, JSON.decimal_of_Z, JSON.chars. intros H.
  rewrite !string_of_list_ascii_of_string in H.
  apply DecimalZ.to_int_inj.
  pose proof (DecimalString.NilEmpty.isi (Z.to_int t)) as H1.
  pose proof (DecimalString.NilEmpty.isi (Z.to_int t')) as H2.
  rewrite H in H1. congruence.
Qed.

Lemma offline_id_inj (t t' : Z) : offline_id t = offline_id t' -> t = t'.
Proof.
  unfold offline_id. simpl. intros H.
  apply timestamp_string_inj. now injection H.
Qed.

Lemma NoDup_map_inj_on {A B} (f : A -> B) (l : list A) (x y : A) :
  NoDup (map f l) -> In x l -> In y l -> f x = f y -> x = y.
Proof.
  induction l as [|z l IH]; simpl; intros H Hx Hy Hf; [tauto|].
  inversion H as [|? ? Hnotin Hl]; subst.
  destruct Hx as [->|Hx], Hy as [->|Hy]; auto.
  - exfalso. apply Hnotin. rewrite Hf. now apply in_map.
  - exfalso. apply Hnotin. rewrite <- Hf. now apply in_map.
Qed.

Lemma NoDup_map_incl {A B} (f : A -> B) (u q : list A) :
  NoDup (map f u) -> NoDup q -> incl q u -> NoDup (map f q).
Proof.
  intros Hu. induction q as [|x q IH]; simpl; intros Hq Hincl; [constructor|].
  inversion Hq as [|? ? Hnotin Hq']; subst.
  constructor.
  - intros Hin. apply in_map_iff in Hin. destruct Hin as [y [Hf Hy]].
    assert (y = x).
    { apply (NoDup_map_inj_on f u); auto.
      - apply Hincl. now right.
      - apply Hincl. now left. }
    subst y. contradiction.
  - apply IH; [assumption|]. intros z Hz. apply Hincl. now right.
Qed.

Lemma entry_id_allocate (ops : list Op) :
  forall n,
    map entry_id (allocate n (appended ops))
    = map (fun t => Some (JString (offline_id t))) (timestamps ops).
Proof.
  induction ops as [|op ops IH]; intros n; [reflexivity|].
  destruct op as [d now|f|f|]; simpl; try apply IH.
  rewrite IH. f_equal. apply entry_id_new_entry.
Qed.

Lemma queue_incl (ops : list Op) :
  forall w,
    well_formed w ->
    incl (pendingEntries (run w ops))
         (pendingEntries w ++ allocate (next_addr w) (appended ops)).
Proof.
  induction ops as [|op ops IH]; intros w Hwf.
  - simpl. rewrite app_nil_r. apply incl_refl.
  - simpl run. intros e He.
    apply (IH (step w op) (well_formed_step w op Hwf)) in He.
    rewrite pendingEntries_step, next_addr_step in He.
    apply in_app_or in He. apply in_or_app.
    destruct op as [d now|f|f|]; simpl in *.
    + rewrite Nat.add_1_r in He.
      destruct He as [He|He]; [|now (right; right)].
      apply in_app_or in He. destruct He as [He|[<-|[]]]; [now left|].
      right. now left.
    + rewrite Nat.add_0_r in He. destruct He as [He|He]; [left | now right].
      eapply pass_queue_incl; eauto using wf_nodup.
    + rewrite Nat.add_0_r in He. destruct He as [He|He]; [left | now right].
      eapply pass_queue_incl; eauto using wf_nodup.
    + rewrite Nat.add_0_r in He. exact He.
Qed.

(** ** The pass at a given entry *)

Lemma NoDup_addrs_middle (pre post : list Entry) (a : Entry) :
  NoDup (addrs (pre ++ a :: post)) ->
  ~ In (addr a) (addrs pre) /\ ~ In (addr a) (addrs post)
  /\ (forall n, In n (addrs pre) -> ~ In n (addrs post))
  /\ NoDup (addrs pre) /\ NoDup (addrs post).
Proof.
  unfold addrs. rewrite map_app. simpl. intros H.
  pose proof (NoDup_remove_2 _ _ _ H) as Hnotin.
  pose proof (NoDup_remove_1 _ _ _ H) as Hrest.
  repeat split.
  - intros Hin. apply Hnotin. apply in_or_app. now left.
  - intros Hin. apply Hnotin. apply in_or_app. now right.
  - clear H Hnotin. induction (map addr pre) as [|m l IH]; simpl in *; [tauto|].
    inversion Hrest as [|? ? Hm Hl]; subst.
    intros n [<-|Hn] Hin.
    + apply Hm. apply in_or_app. now right.
    + now apply (IH Hl n).
  - now apply NoDup_app_remove_r in Hrest.
  - now apply NoDup_app_remove_l in Hrest.
Qed.

(** If a pass makes a request for the entry [a] of the queue
    [pre ++ a :: post], the loop got to [a] after the requests for [pre], and
    what it does from there is what it does on [a :: post]. *)
Lemma loop_reaches (fetch : Network) (post : list Entry) (a : Entry) (x : Exchange) :
  forall (pre : list Entry) (k : nat),
    NoDup (addrs (pre ++ a :: post)) ->
    In x (loop_exchanges fetch k (pre ++ a :: post)) ->
    subject x = addr a ->
    exists j xs_pre,
      synced a = false
      /\ x = exchange_for fetch j a
      /\ loop_exchanges fetch k (pre ++ a :: post)
         = xs_pre ++ loop_exchanges fetch j (a :: post)
      /\ Forall (fun y => In (subject y) (addrs pre)) xs_pre.
Proof.
  induction pre as [|p pre IH]; intros k Hnd Hx Hsub.
  - simpl app in *.
    inversion Hnd as [|? ? Hnotin Hpost]; subst.
    exists k, []. simpl app.
    rewrite loop_exchanges_cons in Hx.
    destruct (synced a) eqn:Es.
    + exfalso. apply Hnotin. rewrite <- Hsub.
      eapply loop_exchanges_subject; eauto.
    + repeat split; [| constructor ].
      destruct (fetch k (quick_entry_request a)) as [st|] eqn:E.
      * destruct Hx as [<-|Hx]; [reflexivity|].
        exfalso. apply Hnotin. rewrite <- Hsub.
        eapply loop_exchanges_subject; eauto.
      * destruct Hx as [<-|[]]. reflexivity.
  - simpl app in *.
    inversion Hnd as [|? ? Hnotin Hrest]; subst.
    assert (Hne : addr p <> addr a).
    { intros Heq. apply Hnotin. rewrite Heq. unfold addrs.
      rewrite map_app. apply in_or_app. right. now left. }
    rewrite loop_exchanges_cons in Hx. rewrite loop_exchanges_cons.
    destruct (synced p) eqn:Es.
    + destruct (IH k Hrest Hx Hsub) as [j [xs_pre [Ha [Hxa [Heq Hall]]]]].
      exists j, xs_pre. repeat split; try assumption.
      eapply Forall_impl; [|exact Hall]. simpl. tauto.
    + destruct (fetch k (quick_entry_request p)) as [st|] eqn:E.
      * destruct Hx as [<-|Hx]; [simpl in Hsub; contradiction|].
        destruct (IH (S k) Hrest Hx Hsub) as [j [xs_pre [Ha [Hxa [Heq Hall]]]]].
        exists j, (exchange_for fetch k p :: xs_pre).
        repeat split; try assumption.
        -- simpl. now rewrite Heq.
        -- constructor; [simpl; now left|].
           eapply Forall_impl; [|exact Hall]. simpl. tauto.
      * destruct Hx as [<-|[]]. simpl in Hsub. contradiction.
Qed.

Lemma loop_exchanges_all_accepted (fetch : Network) (q : list Entry) :
  forall k,
    Forall (fun x => accepted x = true) (loop_exchanges fetch k q) ->
    loop_exchanges fetch k q = requests_from fetch k (filter unsynced q).
Proof.
  induction q as [|e rest IH]; intros k; [reflexivity|].
  rewrite loop_exchanges_cons. simpl filter.
  destruct (synced e) eqn:Es.
  - replace (unsynced e) with false by (unfold unsynced; now rewrite Es).
    apply IH.
  - replace (unsynced e) with true by (unfold unsynced; now rewrite Es).
    destruct (fetch k (quick_entry_request e)) as [st|] eqn:E; intros H.
    + inversion H; subst. simpl. f_equal. now apply IH.
    + inversion H as [|? ? Hacc _]; subst.
      unfold accepted, exchange_for in Hacc. simpl in Hacc.
      rewrite E in Hacc. discriminate.
Qed.

Lemma filter_unsynced_all (q : list Entry) :
  Forall (fun e => synced e = false) q -> filter unsynced q = q.
Proof.
  induction 1 as [|e q He Hq IH]; simpl; [reflexivity|].
  unfold unsynced at 1. rewrite He. simpl. now rewrite IH.
Qed.

Lemma accepted_in_none (xs : list Exchange) (a : nat) :
  Forall (fun x => subject x <> a) xs -> accepted_in xs a = false.
Proof.
  unfold accepted_in. induction 1 as [|x xs Hx Hxs IH]; simpl; [reflexivity|].
  rewrite IH, orb_false_r. unfold accepted_for.
  destruct (Nat.eqb (subject x) a) eqn:E; [|apply andb_false_r].
  apply Nat.eqb_eq in E. contradiction.
Qed.

(** ** Passes that stop, and passes that go on *)

Lemma pass_at_transport_error
      (fetch : Network) (pre post : list Entry) (b : Entry) :
  let q := pre ++ b :: post in
  let xs := pass_exchanges fetch q in
  NoDup (addrs q) ->
  In (mkExchange (addr b) (quick_entry_request b) NetworkError) xs ->
  Forall (fun x => ~ In (subject x) (addrs post)) xs
  /\ pass_queue fetch q
     = filter (fun e => unsynced e && negb (accepted_in xs (addr e))) pre
       ++ b :: filter unsynced post.
Proof.
  intros q xs Hnd Hx. subst q xs.
  destruct (NoDup_addrs_middle _ _ _ Hnd) as [Hpre [Hpost [Hdisj _]]].
  destruct (loop_reaches fetch post b _ pre 0%nat Hnd Hx eq_refl)
    as [j [xs_pre [Hb [Hxb [Heq Hall]]]]].
  assert (E : fetch j (quick_entry_request b) = NetworkError).
  { unfold exchange_for in Hxb. now injection Hxb. }
  rewrite loop_exchanges_cons, Hb, E in Heq.
  assert (Hnone : Forall (fun x => ~ In (subject x) (addrs post))
                    (pass_exchanges fetch (pre ++ b :: post))).
  { unfold pass_exchanges. rewrite Heq. apply Forall_app. split.
    - eapply Forall_impl; [|exact Hall]. simpl. intros y Hy. now apply Hdisj.
    - repeat constructor. exact Hpost. }
  split; [exact Hnone|].
  rewrite pass_queue_spec by assumption.
  rewrite filter_app. f_equal. cbn [filter].
  assert (Hub : unsynced b = true) by (unfold unsynced; now rewrite Hb).
  assert (Hab : accepted_in (pass_exchanges fetch (pre ++ b :: post)) (addr b) = false).
  { unfold pass_exchanges. rewrite Heq, accepted_in_app.
    rewrite (accepted_in_none xs_pre).
    - unfold accepted_in, accepted_for, accepted, exchange_for. simpl.
      now rewrite E.
    - eapply Forall_impl; [|exact Hall]. simpl. intros y Hy Hsub.
      rewrite Hsub in Hy. contradiction. }
  rewrite Hub, Hab. cbn [andb negb]. f_equal.
  apply filter_ext_in. intros e He.
  rewrite accepted_in_none.
  - now rewrite andb_true_r.
  - rewrite Forall_forall in Hnone. apply Forall_forall. intros x Hin Hsub.
    apply (Hnone x Hin). rewrite Hsub. now apply in_addrs.
Qed.

Lemma pass_at_rejection
      (fetch : Network) (pre post : list Entry) (a : Entry) (status : Z) :
  let q := pre ++ a :: post in
  let xs := pass_exchanges fetch q in
  NoDup (addrs q) ->
  In (mkExchange (addr a) (quick_entry_request a) (Response status)) xs ->
  ok status = false ->
  (exists j xs_pre,
      xs = xs_pre ++ exchange_for fetch j a :: loop_exchanges fetch (S j) post)
  /\ accepted_in xs (addr a) = false
  /\ synced a = false.
Proof.
  intros q xs Hnd Hx Hok. subst q xs.
  destruct (NoDup_addrs_middle _ _ _ Hnd) as [Hpre [Hpost _]].
  destruct (loop_reaches fetch post a _ pre 0%nat Hnd Hx eq_refl)
    as [j [xs_pre [Ha [Hxa [Heq Hall]]]]].
  assert (E : fetch j (quick_entry_request a) = Response status).
  { unfold exchange_for in Hxa. now injection Hxa. }
  rewrite loop_exchanges_cons, Ha, E in Heq.
  split; [now exists j, xs_pre|]. split; [|exact Ha].
  unfold pass_exchanges. rewrite Heq, accepted_in_app.
  rewrite (accepted_in_none xs_pre).
  - unfold accepted_in. cbn [existsb orb].
    fold (accepted_in (loop_exchanges fetch (S j) post) (addr a)).
    rewrite accepted_in_outside by assumption.
    unfold accepted_for, accepted, exchange_for. simpl.
    now rewrite E, Hok.
  - eapply Forall_impl; [|exact Hall]. simpl. intros y Hy Hsub.
    rewrite Hsub in Hy. contradiction.
Qed.

Lemma loop_exchanges_head (fetch : Network) (k : nat) (n : Entry) (rest : list Entry) :
  synced n = false ->
  In (exchange_for fetch k n) (loop_exchanges fetch k (n :: rest)).
Proof.
  intros Hn. rewrite loop_exchanges_cons, Hn.
  destruct (fetch k (quick_entry_request n)); now left.
Qed.

Lemma pass_skips_synced (fetch : Network) (q : list Entry) (s : Entry) :
  NoDup (addrs q) -> In s q -> synced s = true ->
  Forall (fun x => subject x <> addr s) (pass_exchanges fetch q)
  /\ ~ In (addr s) (addrs (pass_queue fetch q)).
Proof.
  intros Hnd Hs Hsy. split.
  - apply Forall_forall. intros x Hx Hsub.
    destruct (loop_exchanges_in _ _ _ _ Hx) as [e [j [He [Hes ->]]]].
    simpl in Hsub.
    rewrite (NoDup_addrs_inj q e s Hnd He Hs Hsub) in Hes. congruence.
  - intros Hin. rewrite pass_queue_spec in Hin by assumption.
    apply in_map_iff in Hin. destruct Hin as [e [Ha He]].
    apply filter_In in He. destruct He as [He Hc].
    rewrite (NoDup_addrs_inj q e s Hnd He Hs Ha) in Hc.
    unfold unsynced in Hc. rewrite Hsy in Hc. discriminate.
Qed.

(** ** The request body *)

Lemma Get_body_absent (o : Obj) (ks : list string) (k : string) :
  ~ In k ks ->
  Get (flat_map (fun k' => match Get o k' with
                           | Some v => [(k', v)]
                           | None => []
                           end) ks) k = None.
Proof.
  induction ks as [|k0 ks IH]; simpl; intros H; [reflexivity|].
  destruct (Get o k0) as [v|]; simpl.
  - destruct (String.eqb k0 k) eqn:E.
    + apply String.eqb_eq in E. tauto.
    + apply IH. tauto.
  - apply IH. tauto.
Qed.

Lemma Get_body_present (o : Obj) (ks : list string) (k : string) :
  NoDup ks -> In k ks ->
  Get (flat_map (fun k' => match Get o k' with
                           | Some v => [(k', v)]
                           | None => []
                           end) ks) k = Get o k.
Proof.
  induction ks as [|k0 ks IH]; simpl; intros Hnd Hin; [tauto|].
  inversion Hnd as [|? ? Hnotin Hks]; subst.
  destruct Hin as [->|Hin].
  - destruct (Get o k) as [v|] eqn:E; simpl.
    + now rewrite String.eqb_refl.
    + now apply Get_body_absent.
  - assert (Hne : String.eqb k0 k = false).
    { apply String.eqb_neq. intros ->. contradiction. }
    destruct (Get o k0) as [v|]; simpl; [rewrite Hne|]; now apply IH.
Qed.

Lemma body_object_keys (o : Obj) (k : string) :
  In k (map fst (body_object o)) -> In k body_keys.
Proof.
  unfold body_object. induction body_keys as [|k0 ks IH]; simpl; [tauto|].
  rewrite map_app, in_app_iff. intros [H|H].
  - left. destruct (Get o k0); simpl in H; [|tauto]. tauto.
  - right. now apply IH.
Qed.

Lemma NoDup_body_keys : NoDup body_keys.
Proof.
  unfold body_keys.
  repeat constructor; simpl; intuition discriminate.
Qed.

(** The body built for an entry: the five fields with the entry's values,
    and no [timekeeper]. *)
Lemma body_object_spec (o : Obj) :
  Forall (fun k => Get (body_object o) k = Get o k) body_keys
  /\ Get (body_object o) "timekeeper" = None
  /\ ~ In "timekeeper"%string (map fst (body_object o)).
Proof.
  repeat split.
  - apply Forall_forall. intros k Hk.
    apply Get_body_present; [apply NoDup_body_keys | exact Hk].
  - apply Get_body_absent. unfold body_keys. simpl. intuition discriminate.
  - intros H. apply body_object_keys in H.
    unfold body_keys in H. simpl in H. intuition discriminate.
Qed.

(* ================================================================== *)
(** * Calls that overlap *)
(* ================================================================== *)

Section AsyncFacts.
Import Async.

Lemma length_update {A : Type} (f : A -> A) (l : list A) :
  forall n, List.length (update l n f) = List.length l.
Proof.
  induction l as [|x l IH]; intros [|n]; simpl; auto.
Qed.

Lemma nth_update_same {A : Type} (f : A -> A) (d : A) (l : list A) :
  forall n, (n < List.length l)%nat -> nth n (update l n f) d = f (nth n l d).
Proof.
  induction l as [|x l IH]; intros [|n] H; simpl in *; try lia; auto.
  apply IH. lia.
Qed.

Lemma nth_update_other {A : Type} (f : A -> A) (d : A) (l : list A) :
  forall n m, n <> m -> nth m (update l n f) d = nth m l d.
Proof.
  induction l as [|x l IH]; intros [|n] [|m] H; simpl; auto; try congruence.
Qed.

Lemma Put_twice (o : Obj) (k : string) (v : JSValue) : Put (Put o k v) k v = Put o k v.
Proof.
  induction o as [|[k' v'] o IH]; cbn [Put].
  - now rewrite String.eqb_refl.
  - destruct (String.eqb k' k) eqn:E; cbn [Put]; rewrite E; [reflexivity | now rewrite IH].
Qed.

Lemma length_marked (k : nat) (h : list Obj) : List.length (marked k h) = List.length h.
Proof.
  unfold marked. rewrite length_app, length_map, <- length_app, firstn_skipn. reflexivity.
Qed.

Lemma nth_marked_below (k a : nat) (h : list Obj) :
  (a < k)%nat -> (a < List.length h)%nat ->
  nth a (marked k h) [] = Put (nth a h []) "synced" (JBool true).
Proof.
  revert a h. induction k as [|k IH]; intros a h Hk Hl; [lia|].
  destruct h as [|o h]; [simpl in Hl; lia|].
  destruct a as [|a]; [reflexivity|].
  change (marked (S k) (o :: h)) with (Put o "synced" (JBool true) :: marked k h).
  cbn [nth]. apply IH; simpl in Hl; lia.
Qed.

Lemma nth_marked_above (k a : nat) (h : list Obj) :
  (k <= a)%nat -> nth a (marked k h) [] = nth a h [].
Proof.
  revert a h. induction k as [|k IH]; intros a h Hk; [reflexivity|].
  destruct h as [|o h]; [now destruct a|].
  destruct a as [|a]; [lia|].
  change (marked (S k) (o :: h)) with (Put o "synced" (JBool true) :: marked k h).
  cbn [nth]. apply IH. lia.
Qed.

Lemma update_marked (k : nat) (h : list Obj) :
  (k < List.length h)%nat ->
  update (marked k h) k (fun o => Put o "synced" (JBool true)) = marked (S k) h.
Proof.
  revert h. induction k as [|k IH]; intros h Hl.
  - destruct h as [|o h]; [simpl in Hl; lia | reflexivity].
  - destruct h as [|o h]; [simpl in Hl; lia|].
    change (marked (S k) (o :: h)) with (Put o "synced" (JBool true) :: marked k h).
    change (marked (S (S k)) (o :: h)) with (Put o "synced" (JBool true) :: marked (S k) h).
    cbn [update]. rewrite IH; [reflexivity | simpl in Hl; lia].
Qed.

Lemma update_marked_again (k : nat) (h : list Obj) :
  update (marked (S k) h) k (fun o => Put o "synced" (JBool true)) = marked (S k) h.
Proof.
  revert h. induction k as [|k IH]; intros h.
  - destruct h as [|o h]; [reflexivity|].
    change (marked 1 (o :: h)) with (Put o "synced" (JBool true) :: h).
    cbn [update]. now rewrite Put_twice.
  - destruct h as [|o h]; [reflexivity|].
    change (marked (S (S k)) (o :: h)) with (Put o "synced" (JBool true) :: marked (S k) h).
    cbn [update]. now rewrite IH.
Qed.

Lemma settle_accepted_more
    (p : Page) (call : nat) (pass : Pass) (status : Z) (a pos : nat) :
  nth call (passes p) None = Some pass ->
  ok status = true ->
  next_unsynced (update (heap p) (awaited pass) (fun o => Put o "synced" (JBool true)))
                (skipn (position pass) (elements p (iterated pass))) (position pass)
  = Some (a, pos) ->
  settle call (Response status) p
  = mkPage (isOnline p)
           (update (heap p) (awaited pass) (fun o => Put o "synced" (JBool true)))
           (arrays p) (pendingEntries p) (localStorage p)
           (update (passes p) call
              (fun _ => Some (mkPass (iterated pass) pos
                                (successfulSyncs pass ++ [awaited pass]) a
                                (quick_entry_request
                                   (entry_at (update (heap p) (awaited pass)
                                                (fun o => Put o "synced" (JBool true)))
                                             a)))))
           (exchanges p ++ [mkExchange (awaited pass) (sent pass) (Response status)])
           (ui p) (pathname p).
Proof.
  intros Hn Hok Hnext. destruct p as [on hp arrs cur st ps xs u path].
  unfold elements in *.
  cbn [heap arrays pendingEntries localStorage passes exchanges ui pathname isOnline] in *.
  unfold settle. cbn [passes]. rewrite Hn, Hok.
  unfold loop, elements. cbn [heap arrays exchanges]. rewrite Hnext. reflexivity.
Qed.

Lemma settle_accepted_end (p : Page) (call : nat) (pass : Pass) (status : Z) :
  nth call (passes p) None = Some pass ->
  ok status = true ->
  next_unsynced (update (heap p) (awaited pass) (fun o => Put o "synced" (JBool true)))
                (skipn (position pass) (elements p (iterated pass))) (position pass)
  = None ->
  let h := update (heap p) (awaited pass) (fun o => Put o "synced" (JBool true)) in
  let kept := filter (fun a => negb (synced (entry_at h a)))
                     (elements p (pendingEntries p)) in
  exists shown,
    settle call (Response status) p
    = mkPage (isOnline p) h (arrays p ++ [kept]) (List.length (arrays p))
             (Some (persist (map (entry_at h) kept)))
             (update (passes p) call (fun _ => None))
             (exchanges p ++ [mkExchange (awaited pass) (sent pass) (Response status)])
             (ui p ++ shown) (pathname p).
Proof.
  intros Hn Hok Hnext. cbv zeta. destruct p as [on hp arrs cur st ps xs u path].
  unfold elements in *.
  cbn [heap arrays pendingEntries localStorage passes exchanges ui pathname isOnline] in *.
  unfold settle. cbn [passes]. rewrite Hn, Hok.
  unfold loop, elements. cbn [heap arrays exchanges]. rewrite Hnext.
  unfold finish, set_pass, elements.
  cbn [heap arrays pendingEntries localStorage passes exchanges ui pathname isOnline].
  eexists. reflexivity.
Qed.

Lemma sync_sends (p : Page) (a pos : nat) :
  elements p (pendingEntries p) <> [] ->
  next_unsynced (heap p) (elements p (pendingEntries p)) 0 = Some (a, pos) ->
  syncPendingEntries p
  = mkPage (isOnline p) (heap p) (arrays p) (pendingEntries p) (localStorage p)
           (update (passes p ++ [None]) (List.length (passes p))
              (fun _ => Some (mkPass (pendingEntries p) pos [] a
                                (quick_entry_request (entry_at (heap p) a)))))
           (exchanges p)
           (ui p ++ [ShowSyncIndicator (List.length (elements p (pendingEntries p)))])
           (pathname p).
Proof.
  intros Hne Hnext. destruct p as [on hp arrs cur st ps xs u path].
  unfold elements in *.
  cbn [heap arrays pendingEntries localStorage passes exchanges ui pathname isOnline] in *.
  unfold syncPendingEntries, elements. cbn [arrays pendingEntries].
  destruct (nth cur arrs []) as [|a0 l0] eqn:E; [congruence|].
  unfold loop, elements. cbn [heap arrays passes]. rewrite E. cbn [skipn].
  rewrite Hnext. reflexivity.
Qed.

End AsyncFacts.

Section Overlap.
Import Async.

Variable h : list Obj.
Hypothesis unsynced_h : Forall (fun o => ToBoolean (Get o "synced") = false) h.

Lemma synced_at_marked_below (k a : nat) :
  (a < k)%nat -> (a < List.length h)%nat -> synced (entry_at (marked k h) a) = true.
Proof.
  intros Hk Hl. unfold entry_at. rewrite nth_marked_below by assumption.
  apply (synced_mark_synced (mkEntry a (nth a h []))).
Qed.

Lemma synced_at_marked_above (k a : nat) :
  (k <= a)%nat -> (a < List.length h)%nat -> synced (entry_at (marked k h) a) = false.
Proof.
  intros Hk Hl. unfold entry_at, synced. cbn [fields].
  rewrite nth_marked_above by assumption.
  rewrite Forall_forall in unsynced_h. apply unsynced_h. now apply nth_In.
Qed.

Lemma entry_at_marked_above (k a : nat) :
  (k <= a)%nat -> entry_at (marked k h) a = entry_at h a.
Proof. intros Hk. unfold entry_at. now rewrite nth_marked_above. Qed.

Lemma next_unsynced_marked (k a : nat) :
  (k <= a)%nat -> (a < List.length h)%nat ->
  next_unsynced (marked k h) (skipn a (seq 0 (List.length h))) a = Some (a, S a).
Proof.
  intros Hk Hl. rewrite skipn_seq.
  replace (List.length h - a)%nat with (S (List.length h - S a)) by lia.
  cbn [seq next_unsynced Nat.add]. now rewrite synced_at_marked_above.
Qed.

Lemma next_unsynced_end (k : nat) :
  next_unsynced (marked k h) (skipn (List.length h) (seq 0 (List.length h)))
                (List.length h) = None.
Proof.
  rewrite skipn_seq. now rewrite Nat.sub_diag.
Qed.

Lemma filter_all_marked :
  filter (fun a => negb (synced (entry_at (marked (List.length h) h) a)))
         (seq 0 (List.length h)) = [].
Proof.
  assert (H : forall a, In a (seq 0 (List.length h)) ->
                        negb (synced (entry_at (marked (List.length h) h) a)) = false).
  { intros a Ha. apply in_seq in Ha.
    rewrite synced_at_marked_below by lia. reflexivity. }
  induction (seq 0 (List.length h)) as [|a l IH]; [reflexivity|].
  cbn [filter]. rewrite H by now left. apply IH. intros b Hb. apply H. now right.
Qed.


Lemma each_twice_S (result : FetchResult) (k : nat) :
  each_twice h result (S k)
  = each_twice h result k ++ [settled h result k; settled h result k].
Proof.
  unfold each_twice. rewrite seq_S, flat_map_app. cbn [flat_map Nat.add app]. reflexivity.
Qed.

Lemma both_wait_round (before : list Exchange) (status : Z) (k : nat) (p : Page) :
  ok status = true ->
  (S k < List.length h)%nat ->
  both_wait h before (Response status) k p ->
  both_wait h before (Response status) (S k)
            (run p [Settles 0 (Response status); Settles 1 (Response status)]).
Proof.
  intros Hok Hk H.
  destruct p as [on hp arrs cur st ps xs u path].
  unfold both_wait in H. cbn [heap arrays pendingEntries passes exchanges] in H.
  destruct H as (-> & -> & -> & (ss1 & ss2 & ->) & ->).
  cbn [run fold_left step].
  erewrite (settle_accepted_more _ 0 _ status (S k) (S (S k)));
    [ | reflexivity | exact Hok
      | unfold elements;
        cbn [heap arrays passes nth awaited position iterated];
        rewrite update_marked by lia;
        apply next_unsynced_marked; lia ].
  cbn [heap arrays pendingEntries localStorage passes exchanges ui pathname isOnline
       awaited position iterated successfulSyncs sent update].
  rewrite update_marked by lia.
  erewrite (settle_accepted_more _ 1 _ status (S k) (S (S k)));
    [ | reflexivity | exact Hok
      | unfold elements;
        cbn [heap arrays passes nth awaited position iterated];
        rewrite update_marked_again;
        apply next_unsynced_marked; lia ].
  cbn [heap arrays pendingEntries localStorage passes exchanges ui pathname isOnline
       awaited position iterated successfulSyncs sent update].
  rewrite update_marked_again.
  unfold both_wait. cbn [heap arrays pendingEntries passes exchanges].
  rewrite entry_at_marked_above by lia.
  repeat split.
  - eexists. eexists. reflexivity.
  - rewrite each_twice_S, <- !app_assoc. reflexivity.
Qed.

Lemma both_wait_last (before : list Exchange) (status : Z) (k : nat) (p : Page) :
  ok status = true ->
  S k = List.length h ->
  both_wait h before (Response status) k p ->
  let p' := run p [Settles 0 (Response status); Settles 1 (Response status)] in
  exchanges p' = before ++ each_twice h (Response status) (S k)
  /\ queue p' = []
  /\ localStorage p' = Some (persist [])
  /\ passes p' = [None; None].
Proof.
  intros Hok Hk H.
  destruct p as [on hp arrs cur st ps xs u path].
  unfold both_wait in H. cbn [heap arrays pendingEntries passes exchanges] in H.
  destruct H as (-> & -> & -> & (ss1 & ss2 & ->) & ->).
  cbv zeta. cbn [run fold_left step].
  assert (Hend : forall j, next_unsynced (marked j h) (skipn (S k) (seq 0 (List.length h)))
                                         (S k) = None).
  { intros j. rewrite Hk. apply next_unsynced_end. }
  destruct (settle_accepted_end
              (mkPage on (marked k h) [seq 0 (List.length h)] 0 st
                 [Some (mkPass 0 (S k) ss1 k (quick_entry_request (entry_at h k)));
                  Some (mkPass 0 (S k) ss2 k (quick_entry_request (entry_at h k)))]
                 (before ++ each_twice h (Response status) k) u path)
              0 _ status eq_refl Hok) as [shown1 E1].
  { unfold elements. cbn [heap arrays passes nth awaited position iterated].
    rewrite update_marked by lia. apply Hend. }
  rewrite E1. clear E1.
  unfold elements.
  cbn [heap arrays pendingEntries localStorage passes exchanges ui pathname isOnline
       awaited position iterated successfulSyncs sent update nth List.length].
  rewrite update_marked by lia.
  replace (marked (S k) h) with (marked (List.length h) h) by now rewrite Hk.
  rewrite filter_all_marked. cbn [map].
  match goal with
  | |- context [settle 1 _ ?P] =>
      destruct (settle_accepted_end P 1 _ status eq_refl Hok) as [shown2 E2]
  end.
  { unfold elements. cbn [heap arrays passes nth awaited position iterated app].
    rewrite <- Hk at 1. rewrite update_marked_again. apply Hend. }
  cbn [app] in *. rewrite E2. clear E2.
  unfold queue, elements.
  cbn [heap arrays pendingEntries localStorage passes exchanges ui pathname isOnline
       awaited position iterated successfulSyncs sent update nth List.length app
       filter map].
  repeat split. rewrite each_twice_S, <- !app_assoc. reflexivity.
Qed.

Lemma both_wait_runs (before : list Exchange) (status : Z) (m : nat) :
  ok status = true ->
  forall k p,
    (k + S m = List.length h)%nat ->
    both_wait h before (Response status) k p ->
    let p' := run p (in_turns (S m) (Response status)) in
    exchanges p' = before ++ each_twice h (Response status) (List.length h)
    /\ queue p' = []
    /\ localStorage p' = Some (persist [])
    /\ passes p' = [None; None].
Proof.
  intros Hok. induction m as [|m IH]; intros k p Hk H.
  - replace (List.length h) with (S k) by lia.
    apply both_wait_last; [exact Hok | lia | exact H].
  - change (in_turns (S (S m)) (Response status))
      with ([Settles 0 (Response status); Settles 1 (Response status)]
            ++ in_turns (S m) (Response status)).
    unfold run. rewrite fold_left_app.
    apply (IH (S k)); [lia|].
    apply both_wait_round; [exact Hok | lia | exact H].
Qed.

Lemma both_wait_start (before : list Exchange) (result : FetchResult) (p : Page) :
  h <> [] ->
  heap p = h ->
  arrays p = [seq 0 (List.length h)] ->
  pendingEntries p = 0%nat ->
  passes p = [] ->
  exchanges p = before ->
  both_wait h before result 0 (run p [Online; ManualSync]).
Proof.
  intros Hne Hh Ha Hc Hp Hx.
  destruct p as [on hp arrs cur st ps xs u path].
  cbn [heap arrays pendingEntries passes exchanges] in *. subst.
  assert (Hl : (0 < List.length h)%nat) by (destruct h; [congruence | simpl; lia]).
  assert (Hseq : seq 0 (List.length h) <> []).
  { intros E. apply (f_equal (@List.length nat)) in E. rewrite length_seq in E.
    simpl in E. lia. }
  assert (Hnext : next_unsynced h (seq 0 (List.length h)) 0 = Some (0, 1)%nat).
  { exact (next_unsynced_marked 0 0 (Nat.le_refl 0) Hl). }
  cbn [run fold_left step]. unfold handleOnline.
  cbn [heap arrays pendingEntries localStorage passes exchanges ui pathname isOnline].
  rewrite (sync_sends
             (mkPage true h [seq 0 (List.length h)] 0 st [] before
                     (u ++ [HideOfflineIndicator]) path) 0 1);
    [ | unfold elements; cbn [arrays pendingEntries nth]; exact Hseq
      | unfold elements; cbn [heap arrays pendingEntries nth]; exact Hnext ].
  unfold elements.
  cbn [heap arrays pendingEntries localStorage passes exchanges ui pathname isOnline
       update nth List.length app].
  match goal with
  | |- context [syncPendingEntries ?P] => rewrite (sync_sends P 0 1)
  end;
    [ | unfold elements; cbn [arrays pendingEntries nth]; exact Hseq
      | unfold elements; cbn [heap arrays pendingEntries nth]; exact Hnext ].
  unfold elements.
  cbn [heap arrays pendingEntries localStorage passes exchanges ui pathname isOnline
       update nth List.length app].
  unfold both_wait. cbn [heap arrays pendingEntries passes exchanges].
  repeat split.
  - eexists. eexists. reflexivity.
  - unfold each_twice. cbn [seq flat_map]. now rewrite app_nil_r.
Qed.

End Overlap.

Section OverlapRuns.
Import Async.

Lemma run_saves (submissions : list (Obj * Z)) :
  forall p,
    arrays p = [seq 0 (List.length (heap p))] ->
    pendingEntries p = 0%nat ->
    heap (run p (saves submissions)) = heap p ++ saved submissions
    /\ arrays (run p (saves submissions))
       = [seq 0 (List.length (heap p ++ saved submissions))]
    /\ pendingEntries (run p (saves submissions)) = 0%nat
    /\ passes (run p (saves submissions)) = passes p
    /\ exchanges (run p (saves submissions)) = exchanges p.
Proof.
  induction submissions as [|[d now] subs IH]; intros p Ha Hc.
  - cbn [saves saved map run fold_left]. rewrite app_nil_r. now repeat split.
  - cbn [saves saved map run fold_left step fst snd].
    destruct (IH (saveOfflineEntry d now p)) as (H1 & H2 & H3 & H4 & H5).
    + unfold saveOfflineEntry. cbn [heap arrays pendingEntries]. rewrite Ha, Hc.
      cbn [update]. rewrite length_app. cbn [List.length].
      rewrite Nat.add_1_r, seq_S. reflexivity.
    + unfold saveOfflineEntry. cbn [pendingEntries]. exact Hc.
    + unfold saves, saved in *. unfold run in *. rewrite H1, H2, H3, H4, H5.
      unfold saveOfflineEntry. cbn [heap passes exchanges].
      rewrite <- !app_assoc. now repeat split.
Qed.

Lemma saved_unsynced (submissions : list (Obj * Z)) :
  Forall (fun o => ToBoolean (Get o "synced") = false) (saved submissions).
Proof.
  apply Forall_forall. intros o Ho. unfold saved in Ho. apply in_map_iff in Ho.
  destruct Ho as ([d now] & <- & _). apply (synced_new_entry 0 d now).
Qed.

Lemma accepted_count_settled (h : list Obj) (status : Z) (a k : nat) :
  ok status = true ->
  accepted_count a [settled h (Response status) k; settled h (Response status) k]
  = if Nat.eqb k a then 2%nat else 0%nat.
Proof.
  intros Hok. unfold accepted_count, accepted_for, accepted, settled.
  cbn [filter result subject]. rewrite Hok. cbn [andb].
  now destruct (Nat.eqb k a).
Qed.

Lemma accepted_count_each_twice (h : list Obj) (status : Z) (a : nat) :
  ok status = true ->
  forall n,
    accepted_count a (each_twice h (Response status) n)
    = if Nat.ltb a n then 2%nat else 0%nat.
Proof.
  intros Hok. induction n as [|n IH]; [reflexivity|].
  rewrite each_twice_S, accepted_count_app, IH, accepted_count_settled by exact Hok.
  destruct (Nat.ltb_spec a n), (Nat.eqb_spec n a), (Nat.ltb_spec a (S n)); lia.
Qed.

End OverlapRuns.

(* ================================================================== *)
(** * The properties of the offline queue *)
(* ================================================================== *)

(** ** No loss *)

(** Calls that do not overlap.  From any well-formed state of the manager,
    after any sequence of [saveOfflineEntry] calls and sync passes (manual or
    triggered by the online event) each of which settles before the next
    call, with arbitrary outcomes of the individual requests, the persisted
    queue is the queue in memory, and every entry created by one of the
    [saveOfflineEntry] calls is either still in that queue, unchanged and
    with no accepted request, or out of the queue with exactly one accepted
    request, which carried that entry.  The same holds at every point inside
    a following pass. *)
Lemma no_loss_without_overlap (w0 : World) (ops : list Op) (e : Entry) :
  well_formed w0 ->
  In e (allocate (next_addr w0) (appended ops)) ->
  let w := run w0 ops in
  in_sync w
  /\ (queued w e \/ delivered w e)
  /\ ~ (~ In e (pendingEntries w)
        /\ accepted_count (addr e) (exchanges w) = 0%nat)
  /\ (forall fetch n,
        (In e (pendingEntries w)
         /\ (accepted_count (addr e) (exchanges_at w fetch n) <= 1)%nat)
        \/ (~ In (addr e) (addrs (pendingEntries w))
            /\ accepted_count (addr e) (exchanges_at w fetch n) = 1%nat)).
Proof.
  intros Hwf He w. subst w.
  destruct (appended_tracked ops w0 e Hwf He) as [Hsync Htr].
  split; [exact Hsync|]. split; [exact Htr|]. split.
  - intros [Hout Hzero].
    destruct Htr as [[Hin _]|[_ [Hone _]]]; [contradiction | lia].
  - intros fetch n. apply tracked_inside_pass; [|exact Htr].
    now apply well_formed_run.
Qed.

(** C1, where the code breaks it.  Nothing keeps two calls of
    [syncPendingEntries] apart: when the online event and a click on the
    sync button both arrive before the first request has settled, the two
    calls walk the same array, each sends a request for every entry before
    the other has marked it, and the server, which accepts every request,
    accepts every entry twice.  This holds for any submissions saved
    before, on a fresh installation; the queue and the stored queue end
    empty. *)
Theorem C1_overlapping_passes_accept_twice
    (online : bool) (path : string) (submissions : list (Obj * Z)) (status : Z) :
  submissions <> [] ->
  ok status = true ->
  let n := List.length submissions in
  let p :=
    Async.run (fresh_page online path)
      (saves submissions
       ++ Async.Online :: Async.ManualSync :: in_turns n (Response status)) in
  Forall (fun a => accepted_count a (Async.exchanges p) = 2%nat) (seq 0 n)
  /\ Async.exchanges p = each_twice (saved submissions) (Response status) n
  /\ Async.queue p = []
  /\ Async.localStorage p = Some (persist []).
Proof.
  intros Hne Hok n p.
  assert (Hn : n = List.length (saved submissions))
    by (unfold saved; now rewrite length_map).
  destruct (run_saves submissions (fresh_page online path) eq_refl eq_refl)
    as (H1 & H2 & H3 & H4 & H5).
  cbn [fresh_page Async.loaded Async.heap Async.passes Async.exchanges app] in H1, H2, H4, H5.
  assert (Hstart : both_wait (saved submissions) [] (Response status) 0
                     (Async.run (Async.run (fresh_page online path) (saves submissions))
                                [Async.Online; Async.ManualSync])).
  { apply both_wait_start; try assumption.
    - apply saved_unsynced.
    - intros E. apply Hne. unfold saved in E. now apply map_eq_nil in E. }
  assert (Hpos : (0 < n)%nat) by (subst n; destruct submissions; [congruence | simpl; lia]).
  destruct (both_wait_runs (saved submissions) (saved_unsynced submissions) [] status
              (n - 1) Hok 0%nat _ ltac:(lia) Hstart) as (Hx & Hq & Hs & _).
  replace (S (n - 1)) with n in * by lia.
  assert (Hp : p = Async.run
                     (Async.run (Async.run (fresh_page online path) (saves submissions))
                                [Async.Online; Async.ManualSync])
                     (in_turns n (Response status))).
  { subst p. unfold Async.run. rewrite fold_left_app. reflexivity. }
  rewrite Hp, Hx, Hq, Hs, <- Hn. cbn [app].
  split; [|now repeat split].
  apply Forall_forall. intros a Ha. apply in_seq in Ha.
  rewrite accepted_count_each_twice by exact Hok.
  destruct (Nat.ltb_spec a n); [reflexivity | lia].
Qed.

(** ** No duplication *)

(** C2. Once a request for an entry has been accepted (2xx) in a run of the
    manager, no later call issues a request for that entry: the requests made
    by any continuation of the run are all for other entries. *)
Theorem C2_no_duplication (w0 : World) (ops1 ops2 : list Op) (a : nat) :
  well_formed w0 ->
  accepted_in (exchanges (run w0 ops1)) a = true ->
  exists later,
    exchanges (run (run w0 ops1) ops2) = exchanges (run w0 ops1) ++ later
    /\ Forall (fun x => subject x <> a) later.
Proof.
  intros Hwf Ha.
  apply exchanges_run_later; [|exact Ha].
  now apply well_formed_run.
Qed.

(** ** One pass: abort, rejection, order *)

(** C3, as the code has it.  When the request for an entry [b] of the queue
    [pre ++ b :: post] fails with a transport error, the pass makes no request
    for any entry of [post], and the queue it leaves and persists consists of
    the entries of [pre] that were unsynced at the start and whose request was
    not accepted, then [b], then the entries of [post] that were unsynced at
    the start, in their original order.  When no entry was marked synced at
    the start, that is exactly the entries without an accepted request; for
    [A; B; C] with A accepted and the transport error at B, it is [B; C]. *)
Theorem C3_abort_on_transport_error
        (w : World) (fetch : Network) (pre post : list Entry) (b : Entry) :
  NoDup (addrs (pendingEntries w)) ->
  pendingEntries w = pre ++ b :: post ->
  In (mkExchange (addr b) (quick_entry_request b) NetworkError)
     (pass_exchanges fetch (pendingEntries w)) ->
  let w' := syncPendingEntries fetch w in
  let xs := pass_exchanges fetch (pendingEntries w) in
  exchanges w' = exchanges w ++ xs
  /\ Forall (fun x => ~ In (subject x) (addrs post)) xs
  /\ pendingEntries w'
     = filter (fun e => unsynced e && negb (accepted_in xs (addr e))) pre
       ++ b :: filter unsynced post
  /\ localStorage w' = Some (persist (pendingEntries w'))
  /\ (Forall (fun e => synced e = false) (pendingEntries w) ->
      pendingEntries w'
      = filter (fun e => negb (accepted_in xs (addr e))) (pendingEntries w))
  /\ (forall a c, pre = [a] -> post = [c] -> synced c = false ->
                  accepted_in xs (addr a) = true ->
                  pendingEntries w' = [b; c]).
Proof.
  intros Hnd Hq Hx w' xs. subst w' xs.
  assert (Hne : pendingEntries w <> []) by (rewrite Hq; now destruct pre).
  pose proof Hnd as Hnd'. pose proof Hx as Hx'. rewrite Hq in Hnd', Hx'.
  destruct (pass_at_transport_error fetch pre post b Hnd' Hx') as [Hnone Hqueue].
  rewrite <- Hq in Hnone, Hqueue.
  rewrite pendingEntries_sync, exchanges_sync, localStorage_sync by assumption.
  repeat split; try assumption.
  - intros Hall. rewrite pass_queue_spec by assumption.
    apply filter_ext_in. intros e He.
    rewrite Forall_forall in Hall. unfold unsynced. now rewrite (Hall e He).
  - intros a c -> -> Hc Ha. rewrite Hqueue. cbn [filter app].
    rewrite Ha. unfold unsynced at 2. rewrite Hc.
    now rewrite andb_false_r.
Qed.

(** C4.  When the request for an entry [a] of the queue [pre ++ a :: post] is
    answered with a non-2xx status, the loop goes on with the entries after
    [a] (a following unsynced entry gets the next request), and [a] is in the
    queue that the pass leaves and persists.  For the queue [A; B] with A
    rejected and B accepted that queue is [A]. *)
Theorem C4_rejected_entry_is_kept
        (w : World) (fetch : Network) (pre post : list Entry) (a : Entry)
        (status : Z) :
  NoDup (addrs (pendingEntries w)) ->
  pendingEntries w = pre ++ a :: post ->
  In (mkExchange (addr a) (quick_entry_request a) (Response status))
     (pass_exchanges fetch (pendingEntries w)) ->
  ok status = false ->
  let w' := syncPendingEntries fetch w in
  let xs := pass_exchanges fetch (pendingEntries w) in
  (exists j xs_pre,
      xs = xs_pre ++ exchange_for fetch j a :: loop_exchanges fetch (S j) post
      /\ forall n post', post = n :: post' -> synced n = false ->
                         In (exchange_for fetch (S j) n) xs)
  /\ In a (pendingEntries w')
  /\ localStorage w' = Some (persist (pendingEntries w'))
  /\ (forall b, pre = [] -> post = [b] -> accepted_in xs (addr b) = true ->
                pendingEntries w' = [a]).
Proof.
  intros Hnd Hq Hx Hok w' xs. subst w' xs.
  assert (Hne : pendingEntries w <> []) by (rewrite Hq; now destruct pre).
  assert (Hin : In a (pendingEntries w))
    by (rewrite Hq; apply in_or_app; right; now left).
  pose proof Hnd as Hnd'. pose proof Hx as Hx'. rewrite Hq in Hnd', Hx'.
  destruct (pass_at_rejection fetch pre post a status Hnd' Hx' Hok)
    as [[j [xs_pre Heq]] [Hacc Ha]].
  rewrite <- Hq in Heq, Hacc.
  rewrite pendingEntries_sync, localStorage_sync by assumption.
  repeat split.
  - exists j, xs_pre. split; [exact Heq|].
    intros n post' -> Hn. rewrite Heq.
    apply in_or_app. right. right. now apply loop_exchanges_head.
  - now apply pass_queue_kept.
  - intros b Hpre Hpost Hb. rewrite pass_queue_spec by assumption.
    subst pre post. simpl app in Hq.
    remember (pass_exchanges fetch (pendingEntries w)) as xs.
    rewrite Hq. cbn [filter].
    rewrite Hacc, Hb. unfold unsynced at 1. rewrite Ha.
    now rewrite andb_false_r.
Qed.

(** C5, as the code has it.  In a pass all of whose requests are accepted,
    one request is issued for each entry that was not marked synced at the
    start, the [i]-th of them receiving the [i]-th answer of the network, in
    queue order.  When no entry was marked synced at the start these are [n]
    requests, for [e1], ..., [en] in this order. *)
Theorem C5_requests_in_queue_order (w : World) (fetch : Network) :
  Forall (fun x => accepted x = true) (pass_exchanges fetch (pendingEntries w)) ->
  let xs := pass_exchanges fetch (pendingEntries w) in
  exchanges (syncPendingEntries fetch w) = exchanges w ++ xs
  /\ xs = requests_from fetch 0 (filter unsynced (pendingEntries w))
  /\ (Forall (fun e => synced e = false) (pendingEntries w) ->
      xs = requests_from fetch 0 (pendingEntries w)
      /\ List.length xs = List.length (pendingEntries w)
      /\ map subject xs = addrs (pendingEntries w)
      /\ map request xs = map quick_entry_request (pendingEntries w)).
Proof.
  intros Hall xs. subst xs.
  assert (Heq : pass_exchanges fetch (pendingEntries w)
                = requests_from fetch 0 (filter unsynced (pendingEntries w)))
    by (now apply loop_exchanges_all_accepted).
  split; [apply exchanges_sync|]. split; [exact Heq|].
  intros Hun. rewrite Heq, (filter_unsynced_all _ Hun).
  rewrite length_requests_from, subject_requests_from, request_requests_from.
  repeat split.
Qed.

(** ** Loading the stored queue *)

(** What the [try] and [catch] of [loadPendingEntries] recover from.  When
    the stored string cannot be deserialised ([JSON.parse] throws), or
    deserialises to [null], the manager starts with the empty array, and so
    does any later [loadPendingEntries] on a non-empty such string; and
    [loadPendingEntries] completes normally for every stored value and every
    previous value of the field. *)
Lemma load_recovers_from_failed_parse (text : string) :
  JSON.parse text = None \/ JSON.parse text = Some JNull ->
  constructor_pendingEntries (Some text) = Normal (JArray [])
  /\ (forall cur, text <> EmptyString ->
                  loadPendingEntries (Some text) cur = Normal (JArray []))
  /\ (forall stored cur, exists v, loadPendingEntries stored cur = Normal v).
Proof.
  intros Hparse.
  assert (Hload : forall cur, String.eqb text EmptyString = false ->
                    loadPendingEntries (Some text) cur = Normal (JArray [])).
  { intros cur E. unfold loadPendingEntries, JSON_parse. rewrite E.
    destruct Hparse as [-> | ->]; reflexivity. }
  repeat split.
  - unfold constructor_pendingEntries.
    destruct (String.eqb text EmptyString) eqn:E; [|now apply Hload].
    unfold loadPendingEntries. now rewrite E.
  - intros cur Hne. apply Hload. now apply String.eqb_neq.
  - intros stored cur. unfold loadPendingEntries, JSON_parse.
    destruct stored as [s|]; [|now exists cur].
    destruct (String.eqb s EmptyString); [now exists cur|].
    destruct (JSON.parse s) as [v|]; simpl; [|now exists (JArray [])].
    destruct v; simpl; eauto.
Qed.

(** C6, where the code breaks it.  A stored string that deserialises to a
    value that is neither an array nor [null] (an object, a number, a
    string, a boolean) is not serialised queue data, yet nothing checks what
    [JSON.parse] returned: the manager keeps that value as its queue instead
    of the empty array, and every [saveOfflineEntry] from then on fails with
    a TypeError before anything is stored. *)
Theorem C6_non_array_is_kept (text : string) (v : JSValue) :
  JSON.parse text = Some v ->
  is_array v = false ->
  v <> JNull ->
  exists kept,
    constructor_pendingEntries (Some text) = Normal kept
    /\ is_array kept = false
    /\ forall entryData now,
         Loaded.saveOfflineEntry kept entryData now = Throw TypeError.
Proof.
  intros Hparse Harr Hnull. exists v.
  assert (Hne : String.eqb text EmptyString = false).
  { destruct (String.eqb_spec text EmptyString) as [->|]; [|reflexivity].
    vm_compute in Hparse. discriminate. }
  split; [|split; [exact Harr|]].
  - unfold constructor_pendingEntries, loadPendingEntries, JSON_parse.
    rewrite Hne, Hparse. destruct v; try reflexivity. congruence.
  - intros entryData now. unfold Loaded.saveOfflineEntry, Loaded.push.
    destruct v; try reflexivity. simpl in Harr. discriminate.
Qed.

(** ** Identifiers *)

(** C7, as the code has it.  The [id] of an entry is derived from
    [Date.now()] alone.  If the identifiers already in the queue are pairwise
    distinct, the timestamps seen by the [saveOfflineEntry] calls of a run are
    pairwise distinct, and no new identifier repeats one already queued, then
    the identifiers in the queue are pairwise distinct after the run. *)
Theorem C7_ids_distinct_when_timestamps_distinct (w0 : World) (ops : list Op) :
  well_formed w0 ->
  NoDup (map entry_id (pendingEntries w0)) ->
  NoDup (timestamps ops) ->
  (forall e t, In e (pendingEntries w0) -> In t (timestamps ops) ->
               entry_id e <> Some (JString (offline_id t))) ->
  NoDup (map entry_id (pendingEntries (run w0 ops))).
Proof.
  intros Hwf Hq0 Hts Hnew.
  apply (NoDup_map_incl entry_id
           (pendingEntries w0 ++ allocate (next_addr w0) (appended ops))).
  - rewrite map_app, entry_id_allocate. apply NoDup_app.
    + exact Hq0.
    + clear Hnew. induction (timestamps ops) as [|t ts IH]; simpl; [constructor|].
      inversion Hts as [|? ? Hnotin Hts']; subst.
      constructor; [|now apply IH].
      intros Hin. apply in_map_iff in Hin. destruct Hin as [t' [Heq Ht']].
      assert (Hid : offline_id t' = offline_id t) by congruence.
      apply offline_id_inj in Hid. subst t'. contradiction.
    + intros v Hv Hv'.
      apply in_map_iff in Hv. destruct Hv as [e [<- He]].
      apply in_map_iff in Hv'. destruct Hv' as [t [Heq Ht]].
      apply (Hnew e t He Ht). now symmetry.
  - apply NoDup_addrs_entries, wf_nodup. now apply well_formed_run.
  - now apply queue_incl.
Qed.

(** ** The request body *)

(** C8.  Every request issued by a pass is a POST to [/api/quick-entry] for
    an entry of the queue, and its body is the serialisation of an object
    whose properties are among [client], [matter], [hours], [desc] and
    [date_of_work], each with the value the entry has for it; there is no
    [timekeeper] property in it, whatever the entry holds. *)
Theorem C8_request_body_fields (w : World) (fetch : Network) (x : Exchange) :
  In x (pass_exchanges fetch (pendingEntries w)) ->
  exists e,
    In e (pendingEntries w)
    /\ subject x = addr e
    /\ url (request x) = "/api/quick-entry"%string
    /\ method (request x) = "POST"%string
    /\ body (request x) = JSON.stringify (JObject (body_object (fields e)))
    /\ Forall (fun k => Get (body_object (fields e)) k = Get (fields e) k) body_keys
    /\ Get (body_object (fields e)) "timekeeper" = None
    /\ ~ In "timekeeper"%string (map fst (body_object (fields e))).
Proof.
  intros Hx.
  destruct (loop_exchanges_in _ _ _ _ Hx) as [e [j [He [_ ->]]]].
  exists e. destruct (body_object_spec (fields e)) as [H1 [H2 H3]].
  repeat split; assumption.
Qed.

(** The body sent for a queued entry whose [timekeeper] is "Alice". *)
Example C8_body_of_entry_A :
  Get (fields entry_A) "timekeeper" = Some (JString "Alice")
  /\ JSON.parse (body (quick_entry_request entry_A))
     = Some (JObject [("client", JString "Acme"); ("matter", JString "M-17");
                      ("hours", JNumber 15 (-1)); ("desc", JString "call");
                      ("date_of_work", JString "2024-03-01")]%string).
Proof. split; vm_compute; reflexivity. Qed.

(** ** The background sync hook *)

(** C9.  On a [sync] event with the tag ['background-sync'] the worker's
    handler writes one line to the console and does nothing else: it issues
    no request. *)
Theorem C9_background_sync_only_logs :
  Worker.on_sync "background-sync" = [Worker.ConsoleLog "Background sync triggered"]
  /\ existsb Worker.is_fetch (Worker.on_sync "background-sync") = false.
Proof. split; reflexivity. Qed.

(** ** Entries already marked synced *)

(** C10.  An entry whose [synced] field is already truthy when a pass begins
    gets no request in that pass, and is not in the queue that the pass
    leaves in memory and persists. *)
Theorem C10_synced_entry_dropped_unsent
        (w : World) (fetch : Network) (s : Entry) :
  NoDup (addrs (pendingEntries w)) ->
  In s (pendingEntries w) ->
  synced s = true ->
  let w' := syncPendingEntries fetch w in
  exists xs,
    exchanges w' = exchanges w ++ xs
    /\ Forall (fun x => subject x <> addr s) xs
    /\ ~ In (addr s) (addrs (pendingEntries w'))
    /\ ~ In s (pendingEntries w')
    /\ localStorage w' = Some (persist (pendingEntries w')).
Proof.
  intros Hnd Hs Hsy w'. subst w'.
  assert (Hne : pendingEntries w <> []) by (intros E; now rewrite E in Hs).
  destruct (pass_skips_synced fetch _ s Hnd Hs Hsy) as [Hnone Hout].
  exists (pass_exchanges fetch (pendingEntries w)).
  rewrite pendingEntries_sync, exchanges_sync, localStorage_sync by assumption.
  repeat split; try assumption.
  intros Hin. apply Hout. now apply in_addrs.
Qed.

(* ================================================================== *)
(** * The statements at concrete inputs *)
(* ================================================================== *)

(** A, B and C queued offline; the online event and a click on the sync
    button arrive together and every request is answered 200: six requests,
    each entry accepted twice. *)
Lemma C1_overlap_witness :
  submissions_ABC <> []
  /\ ok 200 = true
  /\ Forall (fun a =>
               accepted_count a
                 (Async.exchanges
                    (Async.run (fresh_page false "/entry")
                       (saves submissions_ABC
                        ++ Async.Online :: Async.ManualSync
                           :: in_turns 3 (Response 200))))
               = 2%nat) [0; 1; 2]%nat
  /\ List.length
       (Async.exchanges
          (Async.run (fresh_page false "/entry")
             (saves submissions_ABC
              ++ Async.Online :: Async.ManualSync :: in_turns 3 (Response 200))))
     = 6%nat.
Proof.
  assert (H1 : submissions_ABC <> []) by discriminate.
  assert (H2 : ok 200 = true) by reflexivity.
  destruct (C1_overlapping_passes_accept_twice false "/entry" submissions_ABC 200 H1 H2)
    as [Hc [Hx _]].
  exact (conj H1 (conj H2 (conj Hc (f_equal (@List.length Exchange) Hx)))).
Defined.

(** A pass that runs alone: the online event after three saves, the first
    request accepted, the second rejected by the network.  The page ends as
    the run of calls that settle one after the other says. *)
Example pass_alone_agrees :
  let w := run (fresh false "/entry") ops_ABC_then_sync in
  let p :=
    Async.run (fresh_page false "/entry")
      (saves submissions_ABC
       ++ [Async.Online; Async.Settles 0 (Response 201); Async.Settles 0 NetworkError]) in
  Async.queue p = pendingEntries w
  /\ Async.localStorage p = localStorage w
  /\ Async.exchanges p = exchanges w
  /\ Async.ui p = ui w
  /\ Async.isOnline p = isOnline w.
Proof. vm_compute. repeat split. Qed.

(** A, B and C queued offline; on reconnection A is accepted and the request
    for B cannot complete.  A is delivered once. *)
Lemma no_loss_without_overlap_example :
  well_formed (fresh false "/entry")
  /\ In entry_A (allocate (next_addr (fresh false "/entry")) (appended ops_ABC_then_sync))
  /\ in_sync (run (fresh false "/entry") ops_ABC_then_sync)
  /\ (queued (run (fresh false "/entry") ops_ABC_then_sync) entry_A
      \/ delivered (run (fresh false "/entry") ops_ABC_then_sync) entry_A).
Proof.
  assert (H1 : well_formed (fresh false "/entry")) by apply well_formed_fresh.
  assert (H2 : In entry_A (allocate (next_addr (fresh false "/entry"))
                                    (appended ops_ABC_then_sync)))
    by (simpl; left; reflexivity).
  destruct (no_loss_without_overlap (fresh false "/entry") ops_ABC_then_sync entry_A H1 H2)
    as [Hs [Ht _]].
  exact (conj H1 (conj H2 (conj Hs Ht))).
Defined.

(** After that run, a further pass makes no request for A. *)
Lemma C2_no_duplication_witness :
  well_formed (fresh false "/entry")
  /\ accepted_in (exchanges (run (fresh false "/entry") ops_ABC_then_sync)) 0 = true
  /\ exists later,
      exchanges (run (run (fresh false "/entry") ops_ABC_then_sync)
                     [SyncPendingEntries net_accept])
      = exchanges (run (fresh false "/entry") ops_ABC_then_sync) ++ later
      /\ Forall (fun x => subject x <> 0%nat) later.
Proof.
  assert (H1 : well_formed (fresh false "/entry")) by apply well_formed_fresh.
  assert (H2 : accepted_in (exchanges (run (fresh false "/entry") ops_ABC_then_sync)) 0
               = true) by (vm_compute; reflexivity).
  exact (conj H1 (conj H2
           (C2_no_duplication (fresh false "/entry") ops_ABC_then_sync
                              [SyncPendingEntries net_accept] 0%nat H1 H2))).
Defined.

(** The queue [A; B; C], A accepted, transport error at B: [B; C] is left
    and no request is made for C. *)
Lemma C3_abort_witness :
  NoDup (addrs (pendingEntries world_ABC))
  /\ pendingEntries world_ABC = [entry_A] ++ entry_B :: [entry_C]
  /\ In (mkExchange (addr entry_B) (quick_entry_request entry_B) NetworkError)
        (pass_exchanges net_accept_then_drop (pendingEntries world_ABC))
  /\ pendingEntries (syncPendingEntries net_accept_then_drop world_ABC)
     = [entry_B; entry_C]
  /\ Forall (fun x => ~ In (subject x) (addrs [entry_C]))
            (pass_exchanges net_accept_then_drop (pendingEntries world_ABC)).
Proof.
  assert (H1 : NoDup (addrs (pendingEntries world_ABC))) by distinct.
  assert (H2 : pendingEntries world_ABC = [entry_A] ++ entry_B :: [entry_C])
    by reflexivity.
  assert (H3 : In (mkExchange (addr entry_B) (quick_entry_request entry_B) NetworkError)
                  (pass_exchanges net_accept_then_drop (pendingEntries world_ABC)))
    by (vm_compute; right; left; reflexivity).
  destruct (C3_abort_on_transport_error world_ABC net_accept_then_drop
              [entry_A] [entry_C] entry_B H1 H2 H3)
    as [_ [Hnone [_ [_ [_ Hex]]]]].
  refine (conj H1 (conj H2 (conj H3 (conj _ Hnone)))).
  apply (Hex entry_A entry_C); reflexivity.
Defined.

(** The queue [A; B], A rejected with 422, B accepted: [A] is left. *)
Lemma C4_rejection_witness :
  NoDup (addrs (pendingEntries world_AB))
  /\ pendingEntries world_AB = [] ++ entry_A :: [entry_B]
  /\ In (mkExchange (addr entry_A) (quick_entry_request entry_A) (Response 422))
        (pass_exchanges net_reject_then_accept (pendingEntries world_AB))
  /\ ok 422 = false
  /\ pendingEntries (syncPendingEntries net_reject_then_accept world_AB) = [entry_A]
  /\ localStorage (syncPendingEntries net_reject_then_accept world_AB)
     = Some (persist (pendingEntries (syncPendingEntries net_reject_then_accept world_AB))).
Proof.
  assert (H1 : NoDup (addrs (pendingEntries world_AB))) by distinct.
  assert (H2 : pendingEntries world_AB = [] ++ entry_A :: [entry_B]) by reflexivity.
  assert (H3 : In (mkExchange (addr entry_A) (quick_entry_request entry_A) (Response 422))
                  (pass_exchanges net_reject_then_accept (pendingEntries world_AB)))
    by (vm_compute; left; reflexivity).
  assert (H4 : ok 422 = false) by reflexivity.
  destruct (C4_rejected_entry_is_kept world_AB net_reject_then_accept
              [] [entry_B] entry_A 422 H1 H2 H3 H4)
    as [_ [_ [Hst Hex]]].
  refine (conj H1 (conj H2 (conj H3 (conj H4 (conj _ Hst))))).
  apply (Hex entry_B); reflexivity.
Defined.

(** The queue [A; B; C], every request accepted: three requests, for A, B
    and C in this order. *)
Lemma C5_order_witness :
  Forall (fun x => accepted x = true)
         (pass_exchanges net_accept (pendingEntries world_ABC))
  /\ Forall (fun e => synced e = false) (pendingEntries world_ABC)
  /\ map subject (pass_exchanges net_accept (pendingEntries world_ABC))
     = [addr entry_A; addr entry_B; addr entry_C]
  /\ List.length (pass_exchanges net_accept (pendingEntries world_ABC)) = 3%nat.
Proof.
  assert (H1 : Forall (fun x => accepted x = true)
                      (pass_exchanges net_accept (pendingEntries world_ABC)))
    by (vm_compute; repeat constructor).
  assert (H2 : Forall (fun e => synced e = false) (pendingEntries world_ABC))
    by (repeat constructor).
  destruct (C5_requests_in_queue_order world_ABC net_accept H1) as [_ [_ Hun]].
  destruct (Hun H2) as [_ [Hlen [Hsub _]]].
  exact (conj H1 (conj H2 (conj Hsub Hlen))).
Defined.

(** A stored value cut short. *)
Lemma load_recovers_example :
  (JSON.parse "[1," = None \/ JSON.parse "[1," = Some JNull)
  /\ constructor_pendingEntries (Some "[1,"%string) = Normal (JArray []).
Proof.
  assert (H : JSON.parse "[1," = None \/ JSON.parse "[1," = Some JNull)
    by (left; vm_compute; reflexivity).
  split; [exact H|].
  exact (proj1 (load_recovers_from_failed_parse "[1," H)).
Defined.

(** The stored string ["{}"]: the manager starts with an object as its
    queue, and a save fails. *)
Lemma C6_non_array_witness :
  JSON.parse "{}" = Some (JObject [])
  /\ is_array (JObject []) = false
  /\ JObject [] <> JNull
  /\ exists kept,
       constructor_pendingEntries (Some "{}"%string) = Normal kept
       /\ is_array kept = false
       /\ forall entryData now,
            Loaded.saveOfflineEntry kept entryData now = Throw TypeError.
Proof.
  assert (H1 : JSON.parse "{}" = Some (JObject [])) by (vm_compute; reflexivity).
  assert (H2 : is_array (JObject []) = false) by reflexivity.
  assert (H3 : JObject [] <> JNull) by discriminate.
  exact (conj H1 (conj H2 (conj H3 (C6_non_array_is_kept "{}" (JObject []) H1 H2 H3)))).
Defined.

(** Two submissions one millisecond apart. *)
Lemma C7_distinct_witness :
  well_formed (fresh false "/entry")
  /\ NoDup (map entry_id (pendingEntries (fresh false "/entry")))
  /\ NoDup (timestamps ops_ABC)
  /\ NoDup (map entry_id (pendingEntries (run (fresh false "/entry") ops_ABC))).
Proof.
  assert (H1 : well_formed (fresh false "/entry")) by apply well_formed_fresh.
  assert (H2 : NoDup (map entry_id (pendingEntries (fresh false "/entry"))))
    by constructor.
  assert (H3 : NoDup (timestamps ops_ABC)) by distinct.
  refine (conj H1 (conj H2 (conj H3 _))).
  apply (C7_ids_distinct_when_timestamps_distinct _ _ H1 H2 H3).
  intros e t [].
Defined.

(** The first request of a pass over [A; B; C]: A's [timekeeper] is "Alice",
    and the body has no [timekeeper]. *)
Lemma C8_body_witness :
  In (exchange_for net_accept 0 entry_A)
     (pass_exchanges net_accept (pendingEntries world_ABC))
  /\ Get (fields entry_A) "timekeeper" = Some (JString "Alice")
  /\ exists e,
      In e (pendingEntries world_ABC)
      /\ subject (exchange_for net_accept 0 entry_A) = addr e
      /\ body (request (exchange_for net_accept 0 entry_A))
         = JSON.stringify (JObject (body_object (fields e)))
      /\ Get (body_object (fields e)) "timekeeper" = None.
Proof.
  assert (H : In (exchange_for net_accept 0 entry_A)
                 (pass_exchanges net_accept (pendingEntries world_ABC)))
    by (vm_compute; left; reflexivity).
  refine (conj H (conj eq_refl _)).
  destruct (C8_request_body_fields world_ABC net_accept _ H)
    as [e [He [Hs [_ [_ [Hb [_ [Ht _]]]]]]]].
  exists e. exact (conj He (conj Hs (conj Hb Ht))).
Defined.

(** A stored queue with a stale first entry: the pass sends nothing for it
    and drops it. *)
Lemma C10_stale_witness :
  NoDup (addrs (pendingEntries stale_world))
  /\ In (mkEntry 0 stale_entry) (pendingEntries stale_world)
  /\ synced (mkEntry 0 stale_entry) = true
  /\ exists xs,
      exchanges (syncPendingEntries net_accept stale_world)
      = exchanges stale_world ++ xs
      /\ Forall (fun x => subject x <> 0%nat) xs
      /\ ~ In 0%nat (addrs (pendingEntries (syncPendingEntries net_accept stale_world))).
Proof.
  assert (H1 : NoDup (addrs (pendingEntries stale_world))) by distinct.
  assert (H2 : In (mkEntry 0 stale_entry) (pendingEntries stale_world))
    by (left; reflexivity).
  assert (H3 : synced (mkEntry 0 stale_entry) = true) by reflexivity.
  destruct (C10_synced_entry_dropped_unsent stale_world net_accept
              (mkEntry 0 stale_entry) H1 H2 H3)
    as [xs [Hxs [Hnone [Hout _]]]].
  refine (conj H1 (conj H2 (conj H3 _))).
  exists xs. exact (conj Hxs (conj Hnone Hout)).
Defined.

(** ** Where the statements of the specification fail *)

(** C3 as stated fails: with a stale first entry in the stored queue and a
    transport error at the second entry, the queue left by the pass is not
    the list of the entries without an accepted request: the stale entry,
    for which no request was made, is gone. *)
Lemma C3_counterexample_stale_entry :
  boot true "/entry" (Some stale_storage) = Some stale_world
  /\ In (mkExchange 1 (quick_entry_request
                         (mkEntry 1 (new_entry (form_data "Birch" "draft") 1001)))
                    NetworkError)
        (pass_exchanges net_down (pendingEntries stale_world))
  /\ pendingEntries (syncPendingEntries net_down stale_world)
     <> filter (fun e => negb (accepted_in
                                 (pass_exchanges net_down (pendingEntries stale_world))
                                 (addr e)))
               (pendingEntries stale_world).
Proof.
  split; [vm_compute; reflexivity|].
  split; [vm_compute; left; reflexivity|].
  vm_compute. discriminate.
Qed.

(** C5 as stated fails: the same stored queue has two entries, and a pass in
    which every request is accepted issues one request. *)
Lemma C5_counterexample_stale_entry :
  boot true "/entry" (Some stale_storage) = Some stale_world
  /\ Forall (fun x => accepted x = true)
            (pass_exchanges net_accept (pendingEntries stale_world))
  /\ List.length (pendingEntries stale_world) = 2%nat
  /\ List.length (pass_exchanges net_accept (pendingEntries stale_world)) = 1%nat
  /\ List.length (pass_exchanges net_accept (pendingEntries stale_world))
     <> List.length (pendingEntries stale_world).
Proof.
  split; [vm_compute; reflexivity|].
  split; [vm_compute; repeat constructor|].
  repeat split. vm_compute. discriminate.
Qed.

(** C7 as stated fails: two submissions within one millisecond give two
    queued entries with the same [id]. *)
Lemma C7_counterexample_same_millisecond :
  map entry_id (pendingEntries world_same_ms)
  = [Some (JString "offline_1000"); Some (JString "offline_1000")]
  /\ ~ NoDup (map entry_id (pendingEntries world_same_ms)).
Proof.
  split; [vm_compute; reflexivity|].
  vm_compute. intros H. inversion H as [|? ? Hnotin _]; subst.
  apply Hnotin. left. reflexivity.
Qed.

(* ================================================================== *)
(** * Further properties of the code *)
(* ================================================================== *)

(** ** The sync engine *)

Lemma in_requests_from (fetch : Network) (l : list Entry) (e : Entry) :
  forall k0, In e l -> exists k, In (exchange_for fetch k e) (requests_from fetch k0 l).
Proof.
  induction l as [|x l IH]; intros k0 H; [destruct H|].
  destruct H as [->|H].
  - exists k0. now left.
  - destruct (IH (S k0) H) as [k Hk]. exists k. now right.
Qed.

Lemma length_loop_successes (fetch : Network) (q : list Entry) :
  forall k,
    List.length (loop_successes fetch k q)
    = List.length (filter accepted (loop_exchanges fetch k q)).
Proof.
  induction q as [|e rest IH]; intros k; [reflexivity|].
  rewrite loop_successes_cons, loop_exchanges_cons.
  destruct (synced e); [apply IH|].
  destruct (fetch k (quick_entry_request e)) as [st|] eqn:E.
  - cbn [filter]. unfold accepted at 1, exchange_for. cbn [result].
    rewrite E. destruct (ok st); simpl; now rewrite IH.
  - cbn [filter]. unfold accepted, exchange_for. cbn [result]. now rewrite E.
Qed.

Lemma ui_sync (fetch : Network) (w : World) :
  pendingEntries w <> [] ->
  ui (syncPendingEntries fetch w)
  = ui w
    ++ [ShowSyncIndicator (List.length (pendingEntries w)); HideSyncIndicator]
    ++ match loop_successes fetch 0 (pendingEntries w) with
       | [] => []
       | ss =>
           ShowSyncSuccess (List.length ss)
           :: (if String.eqb (pathname w) "/entries" then [ReloadAfter 1000] else [])
       end.
Proof.
  unfold syncPendingEntries.
  destruct (pendingEntries w) as [|e q] eqn:E; [congruence|]. intros _.
  rewrite sync_loop_eta. cbn [ui].
  now destruct (loop_successes fetch 0 (e :: q)).
Qed.

(** X1.  A pass all of whose requests are accepted leaves the queue empty and
    writes the empty array to storage (entries already marked synced are
    dropped as well). *)
Theorem sync_all_accepted_empties_queue (w : World) (fetch : Network) :
  pendingEntries w <> [] ->
  NoDup (addrs (pendingEntries w)) ->
  Forall (fun x => accepted x = true) (pass_exchanges fetch (pendingEntries w)) ->
  pendingEntries (syncPendingEntries fetch w) = []
  /\ localStorage (syncPendingEntries fetch w) = Some (JSON.stringify (JArray [])).
Proof.
  intros Hne Hnd Hall.
  assert (Hq : pass_queue fetch (pendingEntries w) = []).
  { rewrite pass_queue_spec by assumption.
    destruct (filter _ _) as [|e l] eqn:Ef; [reflexivity|]. exfalso.
    assert (He : In e (e :: l)) by now left.
    rewrite <- Ef in He. apply filter_In in He. destruct He as [He Hc].
    apply andb_true_iff in Hc. destruct Hc as [Hu Hacc].
    assert (Hin : In e (filter unsynced (pendingEntries w)))
      by (apply filter_In; now split).
    destruct (in_requests_from fetch _ e 0%nat Hin) as [k Hk].
    rewrite <- (loop_exchanges_all_accepted fetch _ 0%nat Hall) in Hk.
    fold (pass_exchanges fetch (pendingEntries w)) in Hk.
    rewrite Forall_forall in Hall. pose proof (Hall _ Hk) as Hok.
    assert (Hin' : accepted_in (pass_exchanges fetch (pendingEntries w)) (addr e) = true).
    { unfold accepted_in. apply existsb_exists.
      exists (exchange_for fetch k e). split; [exact Hk|].
      unfold accepted_for. rewrite Hok. simpl. apply Nat.eqb_refl. }
    rewrite Hin' in Hacc. discriminate. }
  rewrite pendingEntries_sync, localStorage_sync by assumption.
  now rewrite Hq.
Qed.

Lemma sync_all_accepted_empties_queue_witness :
  pendingEntries world_ABC <> []
  /\ NoDup (addrs (pendingEntries world_ABC))
  /\ Forall (fun x => accepted x = true)
            (pass_exchanges net_accept (pendingEntries world_ABC))
  /\ pendingEntries (syncPendingEntries net_accept world_ABC) = []
  /\ localStorage (syncPendingEntries net_accept world_ABC)
     = Some (JSON.stringify (JArray [])).
Proof.
  assert (H1 : pendingEntries world_ABC <> []) by discriminate.
  assert (H2 : NoDup (addrs (pendingEntries world_ABC))) by distinct.
  assert (H3 : Forall (fun x => accepted x = true)
                      (pass_exchanges net_accept (pendingEntries world_ABC)))
    by (vm_compute; repeat constructor).
  exact (conj H1 (conj H2 (conj H3
           (sync_all_accepted_empties_queue world_ABC net_accept H1 H2 H3)))).
Defined.

(** X2.  A pass none of whose requests is accepted (the network is down, or
    the server rejects everything) leaves a queue of unsynced entries exactly
    as it was, in memory and in storage. *)
Theorem sync_nothing_accepted_keeps_queue (w : World) (fetch : Network) :
  pendingEntries w <> [] ->
  NoDup (addrs (pendingEntries w)) ->
  Forall (fun e => synced e = false) (pendingEntries w) ->
  Forall (fun x => accepted x = false) (pass_exchanges fetch (pendingEntries w)) ->
  pendingEntries (syncPendingEntries fetch w) = pendingEntries w
  /\ localStorage (syncPendingEntries fetch w) = Some (persist (pendingEntries w)).
Proof.
  intros Hne Hnd Hun Hall.
  assert (Hq : pass_queue fetch (pendingEntries w) = pendingEntries w).
  { rewrite pass_queue_spec by assumption.
    etransitivity; [|apply (filter_unsynced_all _ Hun)].
    apply filter_ext. intros e.
    replace (accepted_in (pass_exchanges fetch (pendingEntries w)) (addr e)) with false.
    - now rewrite andb_true_r.
    - symmetry. unfold accepted_in.
      induction Hall as [|x xs Hx _ IH]; simpl; [reflexivity|].
      unfold accepted_for at 1. now rewrite Hx, IH. }
  rewrite pendingEntries_sync, localStorage_sync by assumption.
  now rewrite Hq.
Qed.

Lemma sync_nothing_accepted_keeps_queue_witness :
  pendingEntries world_ABC <> []
  /\ NoDup (addrs (pendingEntries world_ABC))
  /\ Forall (fun e => synced e = false) (pendingEntries world_ABC)
  /\ Forall (fun x => accepted x = false)
            (pass_exchanges net_down (pendingEntries world_ABC))
  /\ pendingEntries (syncPendingEntries net_down world_ABC) = pendingEntries world_ABC
  /\ localStorage (syncPendingEntries net_down world_ABC)
     = Some (persist (pendingEntries world_ABC)).
Proof.
  assert (H1 : pendingEntries world_ABC <> []) by discriminate.
  assert (H2 : NoDup (addrs (pendingEntries world_ABC))) by distinct.
  assert (H3 : Forall (fun e => synced e = false) (pendingEntries world_ABC))
    by (repeat constructor).
  assert (H4 : Forall (fun x => accepted x = false)
                      (pass_exchanges net_down (pendingEntries world_ABC)))
    by (vm_compute; repeat constructor).
  exact (conj H1 (conj H2 (conj H3 (conj H4
           (sync_nothing_accepted_keeps_queue world_ABC net_down H1 H2 H3 H4))))).
Defined.

(** X3.  The notifications of a pass over a non-empty queue: the sync
    indicator is shown with the length of the queue and hidden again; the
    success toast appears exactly when at least one request was accepted, and
    carries the number of accepted requests; the reload is scheduled exactly
    when, in addition, the page is [/entries]. *)
Theorem sync_notifications (w : World) (fetch : Network) :
  pendingEntries w <> [] ->
  let n := List.length (filter accepted (pass_exchanges fetch (pendingEntries w))) in
  ui (syncPendingEntries fetch w)
  = ui w
    ++ [ShowSyncIndicator (List.length (pendingEntries w)); HideSyncIndicator]
    ++ (if Nat.ltb 0 n
        then ShowSyncSuccess n
             :: (if String.eqb (pathname w) "/entries" then [ReloadAfter 1000] else [])
        else []).
Proof.
  intros Hne n. subst n. rewrite ui_sync by assumption.
  unfold pass_exchanges. rewrite <- length_loop_successes.
  now destruct (loop_successes fetch 0 (pendingEntries w)).
Qed.

Lemma sync_notifications_witness :
  pendingEntries world_ABC <> []
  /\ ui (syncPendingEntries net_accept_then_drop world_ABC)
     = ui world_ABC ++ [ShowSyncIndicator 3; HideSyncIndicator; ShowSyncSuccess 1].
Proof.
  assert (H1 : pendingEntries world_ABC <> []) by discriminate.
  split; [exact H1|].
  exact (sync_notifications world_ABC net_accept_then_drop H1).
Defined.

Lemma synced_false_step (w : World) (op : Op) :
  Forall (fun e => synced e = false) (pendingEntries w) ->
  Forall (fun e => synced e = false) (pendingEntries (step w op)).
Proof.
  intros H. rewrite pendingEntries_step.
  assert (Hpass : forall f, Forall (fun e => synced e = false)
                              (pass_queue f (pendingEntries w))).
  { intros f. apply Forall_forall. intros e He.
    unfold pass_queue in He. apply filter_In in He. destruct He as [_ He].
    unfold unsynced in He. now destruct (synced e). }
  destruct op as [d now|f|f|]; simpl; auto.
  apply Forall_app. split; [exact H|].
  repeat constructor. apply synced_new_entry.
Qed.

(** Calls that do not overlap never persist [synced: true].  From a state
    whose stored queue is the queue in memory, with no entry marked synced,
    every run of calls each of which settles before the next leads to such
    a state again. *)
Lemma synced_flag_stays_out_without_overlap (w0 : World) (ops : list Op) :
  in_sync w0 ->
  Forall (fun e => synced e = false) (pendingEntries w0) ->
  in_sync (run w0 ops)
  /\ Forall (fun e => synced e = false) (pendingEntries (run w0 ops)).
Proof.
  intros Hs Hu. split; [now apply in_sync_run|].
  revert w0 Hs Hu. induction ops as [|op ops IH]; intros w0 Hs Hu; [exact Hu|].
  simpl. apply IH; [now apply in_sync_step | now apply synced_false_step].
Qed.

Lemma synced_flag_stays_out_example :
  in_sync world_AB
  /\ Forall (fun e => synced e = false) (pendingEntries world_AB)
  /\ in_sync (run world_AB [HandleOnline net_reject_then_accept])
  /\ Forall (fun e => synced e = false)
            (pendingEntries (run world_AB [HandleOnline net_reject_then_accept])).
Proof.
  assert (H1 : in_sync world_AB) by reflexivity.
  assert (H2 : Forall (fun e => synced e = false) (pendingEntries world_AB))
    by (repeat constructor).
  exact (conj H1 (conj H2
           (synced_flag_stays_out_without_overlap world_AB
              [HandleOnline net_reject_then_accept] H1 H2))).
Defined.

Lemma map_entry_at_seq (l : list Obj) :
  forall pre post,
    map (Async.entry_at (pre ++ l ++ post)) (seq (List.length pre) (List.length l))
    = allocate (List.length pre) l.
Proof.
  induction l as [|o l IH]; intros pre post; [reflexivity|].
  cbn [List.length seq map allocate app]. f_equal.
  - unfold Async.entry_at. now rewrite nth_middle.
  - specialize (IH (pre ++ [o]) post).
    rewrite <- app_assoc, length_app, Nat.add_1_r in IH. exact IH.
Qed.

(** X4.  [synced: true] can reach storage.  [saveOfflineEntry] writes the
    whole array as it is, so a save made while a call of
    [syncPendingEntries] waits for an answer, after an earlier request of
    that call was accepted, stores the accepted entry with [synced: true]
    next to the others. *)
Theorem save_during_pass_persists_synced_flag
    (online : bool) (path : string) (stored : option string) (os : list Obj)
    (status : Z) (entryData : Obj) (now : Z) :
  (2 <= List.length os)%nat ->
  Forall (fun o => ToBoolean (Get o "synced") = false) os ->
  ok status = true ->
  let p :=
    Async.run (Async.loaded online path stored os)
      [Async.ManualSync; Async.Settles 0 (Response status);
       Async.SaveOfflineEntry entryData now] in
  Async.queue p = allocate 0 (marked 1 os ++ [new_entry entryData now])
  /\ Async.localStorage p = Some (persist (Async.queue p))
  /\ Exists (fun e => synced e = true) (Async.queue p)
  /\ nth 0 (Async.passes p) None <> None.
Proof.
  intros Hlen Hun Hok p.
  assert (Hq : Async.queue p = allocate 0 (marked 1 os ++ [new_entry entryData now])
               /\ Async.localStorage p = Some (persist (Async.queue p))
               /\ nth 0 (Async.passes p) None <> None).
  { subst p. cbn [Async.run fold_left Async.step].
    assert (Hseq : seq 0 (List.length os) <> []).
    { intros E. apply (f_equal (@List.length nat)) in E. rewrite length_seq in E.
      simpl in E. lia. }
    assert (Hn0 : Async.next_unsynced os (seq 0 (List.length os)) 0 = Some (0, 1)%nat).
    { apply (next_unsynced_marked os Hun 0 0); lia. }
    assert (Hm1 : Async.update os 0 (fun o => Put o "synced" (JBool true)) = marked 1 os).
    { apply (update_marked 0 os). lia. }
    rewrite (sync_sends (Async.loaded online path stored os) 0 1);
      [ | exact Hseq | exact Hn0 ].
    unfold Async.loaded, Async.elements.
    cbn [Async.heap Async.arrays Async.pendingEntries Async.localStorage Async.passes
         Async.exchanges Async.ui Async.pathname Async.isOnline Async.update nth
         List.length app].
    match goal with
    | |- context [Async.settle 0 _ ?P] =>
        erewrite (settle_accepted_more P 0 _ status 1 2);
          [ | reflexivity | exact Hok
            | unfold Async.elements;
              cbn [Async.heap Async.arrays Async.passes nth Async.awaited
                   Async.position Async.iterated];
              rewrite Hm1; apply (next_unsynced_marked os Hun 1 1); lia ]
    end.
    cbn [Async.heap Async.arrays Async.pendingEntries Async.localStorage Async.passes
         Async.exchanges Async.ui Async.pathname Async.isOnline Async.update nth
         Async.awaited Async.position Async.iterated Async.successfulSyncs Async.sent].
    rewrite Hm1.
    unfold Async.saveOfflineEntry, Async.queue, Async.elements.
    cbn [Async.heap Async.arrays Async.pendingEntries Async.localStorage Async.passes
         Async.exchanges Async.ui Async.pathname Async.isOnline Async.update nth].
    rewrite length_marked, <- seq_S.
    replace (S (List.length os))
      with (List.length (marked 1 os ++ [new_entry entryData now]))
      by (rewrite length_app, length_marked; simpl; lia).
    pose proof (map_entry_at_seq (marked 1 os ++ [new_entry entryData now]) [] [])
      as Hm.
    cbn [app List.length] in Hm. rewrite app_nil_r in Hm. rewrite Hm.
    repeat split. discriminate. }
  destruct Hq as (Hq & Hs & Hp). repeat split; try assumption.
  rewrite Hq. destruct os as [|o0 os']; [simpl in Hlen; lia|].
  change (marked 1 (o0 :: os')) with (Put o0 "synced" (JBool true) :: os').
  cbn [app allocate]. apply Exists_cons_hd.
  apply (synced_mark_synced (mkEntry 0 o0)).
Qed.

Lemma save_during_pass_persists_synced_flag_witness :
  let p :=
    Async.run
      (Async.loaded false "/entry" (Some (persist (allocate 0 (saved submissions_ABC))))
                    (saved submissions_ABC))
      [Async.ManualSync; Async.Settles 0 (Response 200);
       Async.SaveOfflineEntry (form_data "Dale" "memo") 1003] in
  (2 <= List.length (saved submissions_ABC))%nat
  /\ Forall (fun o => ToBoolean (Get o "synced") = false) (saved submissions_ABC)
  /\ ok 200 = true
  /\ Async.queue p
     = allocate 0 (marked 1 (saved submissions_ABC)
                   ++ [new_entry (form_data "Dale" "memo") 1003])
  /\ Async.localStorage p = Some (persist (Async.queue p))
  /\ Exists (fun e => synced e = true) (Async.queue p)
  /\ nth 0 (Async.passes p) None <> None.
Proof.
  intros p.
  assert (H1 : (2 <= List.length (saved submissions_ABC))%nat) by (simpl; lia).
  assert (H2 : Forall (fun o => ToBoolean (Get o "synced") = false)
                      (saved submissions_ABC)) by (repeat constructor).
  assert (H3 : ok 200 = true) by reflexivity.
  exact (conj H1 (conj H2 (conj H3
           (save_during_pass_persists_synced_flag false "/entry" _
              (saved submissions_ABC) 200 (form_data "Dale" "memo") 1003 H1 H2 H3)))).
Defined.

(** X5.  A pass sends at most one request per entry: the entries its
    requests are for are pairwise distinct, and there are at most as many
    requests as the queue has entries not marked synced. *)
Theorem sync_one_request_per_entry (w : World) (fetch : Network) :
  NoDup (addrs (pendingEntries w)) ->
  NoDup (map subject (pass_exchanges fetch (pendingEntries w)))
  /\ (List.length (pass_exchanges fetch (pendingEntries w))
      <= List.length (filter unsynced (pendingEntries w)))%nat.
Proof.
  intros Hnd. split; [now apply NoDup_subjects_loop|].
  unfold pass_exchanges. rewrite loop_exchanges_prefix at 1.
  rewrite length_requests_from, length_firstn. apply Nat.le_min_r.
Qed.

Lemma sync_one_request_per_entry_witness :
  NoDup (addrs (pendingEntries world_ABC))
  /\ NoDup (map subject (pass_exchanges net_accept (pendingEntries world_ABC)))
  /\ (List.length (pass_exchanges net_accept (pendingEntries world_ABC))
      <= List.length (filter unsynced (pendingEntries world_ABC)))%nat.
Proof.
  assert (H1 : NoDup (addrs (pendingEntries world_ABC))) by distinct.
  exact (conj H1 (sync_one_request_per_entry world_ABC net_accept H1)).
Defined.

(** ** Order of the queue *)

Lemma subseq_refl {A} (l : list A) : subseq l l.
Proof. induction l; [apply subseq_nil | now apply subseq_keep]. Qed.

Lemma subseq_filter {A} (p : A -> bool) (l : list A) : subseq (filter p l) l.
Proof.
  induction l as [|x l IH]; simpl; [apply subseq_nil|].
  destruct (p x); [now apply subseq_keep | now apply subseq_skip].
Qed.

Lemma subseq_trans {A} (l1 l2 l3 : list A) :
  subseq l1 l2 -> subseq l2 l3 -> subseq l1 l3.
Proof.
  intros H12 H23. revert l1 H12.
  induction H23 as [|x l2 l3 H IH|x l2 l3 H IH]; intros l1 H12.
  - exact H12.
  - apply subseq_skip. now apply IH.
  - inversion H12; subst.
    + apply subseq_skip. now apply IH.
    + apply subseq_keep. now apply IH.
Qed.

Lemma subseq_app {A} (l1 l2 r : list A) :
  subseq l1 l2 -> subseq (l1 ++ r) (l2 ++ r).
Proof.
  induction 1; simpl.
  - apply subseq_refl.
  - now apply subseq_skip.
  - now apply subseq_keep.
Qed.

(** X6.  The queue is never reordered: after any run of calls it consists of
    entries of the starting queue followed by entries created during the
    run, each group in its original order. *)
Theorem queue_order_is_stable (w : World) (ops : list Op) :
  well_formed w ->
  subseq (pendingEntries (run w ops))
         (pendingEntries w ++ allocate (next_addr w) (appended ops)).
Proof.
  revert w. induction ops as [|op ops IH]; intros w Hwf.
  - simpl. rewrite app_nil_r. apply subseq_refl.
  - simpl run.
    eapply subseq_trans; [apply IH; now apply well_formed_step|].
    rewrite pendingEntries_step, next_addr_step.
    pose proof (wf_nodup w Hwf) as Hnd.
    destruct op as [d now|f|f|]; cbn [op_queue op_allocs appended allocate].
    + rewrite Nat.add_1_r, <- app_assoc. apply subseq_refl.
    + rewrite Nat.add_0_r, pass_queue_spec by assumption.
      apply subseq_app. apply subseq_filter.
    + rewrite Nat.add_0_r, pass_queue_spec by assumption.
      apply subseq_app. apply subseq_filter.
    + rewrite Nat.add_0_r. apply subseq_refl.
Qed.

Lemma queue_order_is_stable_witness :
  well_formed (fresh false "/entry")
  /\ subseq (pendingEntries (run (fresh false "/entry") ops_ABC_then_sync))
            (pendingEntries (fresh false "/entry")
             ++ allocate (next_addr (fresh false "/entry"))
                         (appended ops_ABC_then_sync)).
Proof.
  assert (H1 : well_formed (fresh false "/entry")) by apply well_formed_fresh.
  exact (conj H1 (queue_order_is_stable (fresh false "/entry") ops_ABC_then_sync H1)).
Defined.

(* ------------------------------------------------------------------ *)
(** ** The service worker's cache *)
(* ------------------------------------------------------------------ *)

Section ShellCacheProps.

Import ShellCache.

Lemma filter_filter {A} (p q : A -> bool) (l : list A) :
  filter p (filter q l) = filter (fun x => q x && p x) l.
Proof.
  induction l as [|x l IH]; simpl; [reflexivity|].
  destruct (q x); simpl; [destruct (p x)|]; now rewrite IH.
Qed.

Lemma assoc_app {V} (k : string) (l1 l2 : list (string * V)) :
  assoc k (l1 ++ l2) = match assoc k l1 with Some v => Some v | None => assoc k l2 end.
Proof.
  induction l1 as [|[k' v] l1 IH]; simpl; [reflexivity|].
  now destruct (String.eqb k' k).
Qed.

Lemma assoc_remove_key {V} (k k' : string) (l : list (string * V)) :
  assoc k (remove_key k' l) = if String.eqb k' k then None else assoc k l.
Proof.
  unfold remove_key. induction l as [|[k0 v] l IH]; simpl.
  - now destruct (String.eqb k' k).
  - destruct (String.eqb k0 k') eqn:E0; simpl.
    + apply String.eqb_eq in E0. subst k0. rewrite IH.
      now destruct (String.eqb k' k).
    + rewrite IH. destruct (String.eqb k0 k) eqn:E1; [|reflexivity].
      apply String.eqb_eq in E1. subst k0.
      rewrite String.eqb_sym in E0. now rewrite E0.
Qed.

Lemma assoc_put (c : Cache) (u u' : string) (r : Response) :
  assoc u (put c (u', r)) = if String.eqb u' u then Some r else assoc u c.
Proof.
  unfold put. simpl. rewrite assoc_app, assoc_remove_key. simpl.
  destruct (String.eqb u' u); [reflexivity|].
  now destruct (assoc u c).
Qed.

Lemma assoc_fold_put_other (entries : list (string * Response)) (u : string) :
  forall c, ~ In u (map fst entries) ->
            assoc u (fold_left put entries c) = assoc u c.
Proof.
  induction entries as [|[u' r] entries IH]; intros c H; simpl; [reflexivity|].
  simpl in H. rewrite IH by tauto. rewrite assoc_put.
  destruct (String.eqb u' u) eqn:E; [|reflexivity].
  apply String.eqb_eq in E. tauto.
Qed.

Lemma assoc_fold_put (entries : list (string * Response)) (u : string) (r : Response) :
  forall c, NoDup (map fst entries) -> In (u, r) entries ->
            assoc u (fold_left put entries c) = Some r.
Proof.
  induction entries as [|[u' r'] entries IH]; intros c Hnd Hin; [destruct Hin|].
  simpl in Hnd. inversion Hnd as [|? ? Hnotin Hrest]; subst. simpl.
  destruct Hin as [Heq|Hin].
  - injection Heq as -> ->.
    rewrite assoc_fold_put_other by assumption.
    rewrite assoc_put. now rewrite String.eqb_refl.
  - now apply IH.
Qed.

Lemma fetch_all_some (net : Net) (urls : list string) :
  Forall (fetchable net) urls ->
  exists entries,
    fetch_all net urls = Some entries
    /\ map fst entries = urls
    /\ forall u, In u urls -> exists r, net (GET u) = Some r /\ In (u, r) entries.
Proof.
  induction 1 as [|u urls [r [Hr Hok]] _ [entries [He [Hm Hin]]]]; simpl.
  - exists []. repeat split. intros u [].
  - exists ((u, r) :: entries). rewrite Hr, Hok, He. simpl.
    repeat split; [now rewrite Hm|].
    intros u' [<-|Hu'].
    + exists r. split; [exact Hr | now left].
    + destruct (Hin u' Hu') as [r' [H1 H2]]. exists r'. split; [exact H1 | now right].
Qed.

Lemma fetch_all_none (net : Net) (urls : list string) :
  ~ Forall (fetchable net) urls -> fetch_all net urls = None.
Proof.
  induction urls as [|u urls IH]; intros H; simpl.
  - exfalso. apply H. constructor.
  - destruct (net (GET u)) as [r|] eqn:Hr; [|reflexivity].
    destruct (response_ok r) eqn:Hok; [|reflexivity].
    rewrite IH; [reflexivity|]. intros Hall. apply H.
    constructor; [now exists r | exact Hall].
Qed.

Lemma assoc_update_same (name : string) (c : Cache) (cs : CacheStorage) :
  assoc name (update name c cs)
  = match assoc name cs with Some _ => Some c | None => None end.
Proof.
  unfold update. induction cs as [|[n c0] cs IH]; simpl; [reflexivity|].
  destruct (String.eqb n name) eqn:E; simpl; rewrite E; auto.
Qed.

Lemma assoc_update_other (name n : string) (c : Cache) (cs : CacheStorage) :
  n <> name -> assoc n (update name c cs) = assoc n cs.
Proof.
  intros Hne. unfold update. induction cs as [|[n0 c0] cs IH]; simpl; [reflexivity|].
  destruct (String.eqb n0 name) eqn:E; simpl.
  - apply String.eqb_eq in E. subst n0.
    destruct (String.eqb name n) eqn:E'; [|exact IH].
    apply String.eqb_eq in E'. congruence.
  - destruct (String.eqb n0 n); [reflexivity | exact IH].
Qed.

Lemma assoc_open_same (name : string) (cs : CacheStorage) :
  assoc name (open name cs) <> None.
Proof.
  unfold open. destruct (assoc name cs) eqn:E; [now rewrite E|].
  rewrite assoc_app, E. simpl. now rewrite String.eqb_refl.
Qed.

Lemma assoc_open_other (name n : string) (cs : CacheStorage) :
  n <> name -> assoc n (open name cs) = assoc n cs.
Proof.
  intros Hne. unfold open. destruct (assoc name cs) eqn:E; [reflexivity|].
  rewrite assoc_app. destruct (assoc n cs); [reflexivity|]. simpl.
  destruct (String.eqb name n) eqn:E'; [|reflexivity].
  apply String.eqb_eq in E'. congruence.
Qed.

Lemma NoDup_urlsToCache : NoDup urlsToCache.
Proof. unfold urlsToCache. repeat constructor; simpl; intuition discriminate. Qed.

(** What [activate] leaves, in closed form. *)
Lemma fold_activate_step (ks : list string) :
  forall (cs : CacheStorage) (eff : list Worker.Effect),
    fst (fold_left activate_step ks (cs, eff))
    = filter (fun nc => negb (existsb (fun n => String.eqb n (fst nc)
                                               && negb (String.eqb n CACHE_NAME)) ks))
             cs.
Proof.
  induction ks as [|k ks IH]; intros cs eff; simpl.
  - induction cs as [|nc cs IHcs]; simpl; [reflexivity | now rewrite <- IHcs].
  - unfold activate_step at 2.
    destruct (String.eqb k CACHE_NAME) eqn:E.
    + rewrite IH. apply filter_ext. intros nc. now rewrite andb_false_r.
    + simpl. rewrite IH. unfold delete, remove_key. rewrite filter_filter.
      apply filter_ext. intros nc. rewrite andb_true_r, negb_orb.
      now rewrite (String.eqb_sym k (fst nc)).
Qed.

Lemma activate_filter (cs : CacheStorage) :
  fst (activate cs) = filter (fun nc => String.eqb (fst nc) CACHE_NAME) cs.
Proof.
  unfold activate. rewrite fold_activate_step.
  apply filter_ext_in. intros nc Hnc.
  destruct (String.eqb (fst nc) CACHE_NAME) eqn:E.
  - apply negb_true_iff.
    destruct (existsb _ _) eqn:Ex; [|reflexivity].
    apply existsb_exists in Ex. destruct Ex as [n [_ Hn]].
    apply andb_true_iff in Hn. destruct Hn as [H1 H2].
    apply String.eqb_eq in H1. subst n. now rewrite E in H2.
  - apply negb_false_iff. apply existsb_exists.
    exists (fst nc). split; [unfold keys; now apply in_map|].
    now rewrite String.eqb_refl, E.
Qed.

Lemma assoc_filter_name (name : string) (cs : CacheStorage) :
  assoc name (filter (fun nc => String.eqb (fst nc) name) cs) = assoc name cs.
Proof.
  induction cs as [|[n c] cs IH]; simpl; [reflexivity|].
  destruct (String.eqb n name) eqn:E; simpl; [now rewrite E | exact IH].
Qed.

Lemma cache_named_open (name : string) (cs : CacheStorage) :
  cache_named name (open name cs) = cache_named name cs.
Proof.
  unfold cache_named, open. destruct (assoc name cs) eqn:E; [now rewrite E|].
  rewrite assoc_app, E. simpl. now rewrite String.eqb_refl.
Qed.

Lemma fetch_all_inv (net : Net) (urls : list string) :
  forall entries,
    fetch_all net urls = Some entries ->
    map fst entries = urls
    /\ Forall (fetchable net) urls
    /\ forall u, In u urls -> exists r, net (GET u) = Some r /\ In (u, r) entries.
Proof.
  induction urls as [|u urls IH]; intros entries H; simpl in H.
  - injection H as <-. repeat split; [constructor | intros u []].
  - destruct (net (GET u)) as [r|] eqn:Hr; [|discriminate].
    destruct (response_ok r) eqn:Hok; [|discriminate].
    destruct (fetch_all net urls) as [es|]; [|discriminate].
    injection H as <-. destruct (IH es eq_refl) as [Hm [Hall Hin]].
    simpl. repeat split.
    + now rewrite Hm.
    + constructor; [now exists r | exact Hall].
    + intros u' [<-|Hu'].
      * exists r. split; [exact Hr | now left].
      * destruct (Hin u' Hu') as [r' [H1 H2]]. exists r'.
        split; [exact H1 | now right].
Qed.

(** The caches kept by activation after an install that stored [c]. *)
Lemma caches_match_current (req : Req) (c : Cache) (cs : CacheStorage) :
  assoc CACHE_NAME cs <> None ->
  caches_match req
    (filter (fun nc => String.eqb (fst nc) CACHE_NAME) (update CACHE_NAME c cs))
  = cache_match req c.
Proof.
  unfold update. induction cs as [|[n c0] cs IH]; simpl; intros H; [congruence|].
  destruct (String.eqb n CACHE_NAME) eqn:E; simpl; rewrite E; simpl.
  - destruct (cache_match req c) as [r|] eqn:Em; [reflexivity|].
    clear IH H. induction cs as [|[n1 c1] cs IHcs]; simpl; [reflexivity|].
    destruct (String.eqb n1 CACHE_NAME) eqn:E1; simpl; rewrite E1; simpl.
    + now rewrite Em.
    + exact IHcs.
  - now apply IH.
Qed.

Lemma install_stores (net : Net) (cs : CacheStorage) :
  Forall (fetchable net) urlsToCache ->
  exists c,
    install net cs
    = mkInstalled (update CACHE_NAME c (open CACHE_NAME cs)) true
        [Worker.ConsoleLog "Service Worker: Installing...";
         Worker.ConsoleLog "Service Worker: Caching files";
         Worker.CacheAddAll CACHE_NAME urlsToCache;
         Worker.ConsoleLog "Service Worker: Installed";
         Worker.SkipWaiting]
    /\ forall u, In u urlsToCache -> assoc u c = net (GET u).
Proof.
  intros Hall.
  destruct (fetch_all_some net urlsToCache Hall) as [entries [He [Hm Hin]]].
  exists (fold_left put entries (cache_named CACHE_NAME (open CACHE_NAME cs))).
  split.
  - unfold install, addAll. now rewrite He.
  - intros u Hu. destruct (Hin u Hu) as [r [Hr Hur]]. rewrite Hr.
    apply assoc_fold_put; [|exact Hur].
    rewrite Hm. apply NoDup_urlsToCache.
Qed.


Lemma caches_match_shell (net0 : Net) (cs : CacheStorage) (u dest : string) :
  Forall (fetchable net0) urlsToCache ->
  In u urlsToCache ->
  caches_match (mkReq u "GET" dest) (activated net0 cs) = net0 (GET u).
Proof.
  intros Hall Hu. unfold activated.
  destruct (install_stores net0 cs Hall) as [c [-> Hc]].
  cbn [caches_after]. rewrite activate_filter.
  rewrite caches_match_current by apply assoc_open_same.
  unfold cache_match. cbn [req_method req_url]. rewrite String.eqb_refl.
  now apply Hc.
Qed.

Lemma fetchable_net_shell : Forall (fetchable net_shell) urlsToCache.
Proof.
  apply Forall_forall. intros u _. unfold fetchable, net_shell.
  eexists. split; reflexivity.
Qed.

(** X7.  Activation deletes every cache but the current one: the caches left
    are those named [CACHE_NAME], and the current cache holds what it held. *)
Theorem activate_keeps_only_current_cache (cs : CacheStorage) :
  fst (activate cs) = filter (fun nc => String.eqb (fst nc) CACHE_NAME) cs
  /\ Forall (fun n => n = CACHE_NAME) (keys (fst (activate cs)))
  /\ cache_named CACHE_NAME (fst (activate cs)) = cache_named CACHE_NAME cs.
Proof.
  rewrite activate_filter. repeat split.
  - apply Forall_forall. intros n Hn. unfold keys in Hn.
    apply in_map_iff in Hn. destruct Hn as [nc [<- Hnc]].
    apply filter_In in Hnc. destruct Hnc as [_ Hnc].
    now apply String.eqb_eq.
  - unfold cache_named. now rewrite assoc_filter_name.
Qed.

(** X8.  When the network answers every shell URL with an [ok] response, the
    install succeeds: [skipWaiting] is called, the current cache answers each
    shell URL with the response just fetched, and the other caches are not
    touched. *)
Theorem install_stores_the_shell (net : Net) (cs : CacheStorage) :
  Forall (fetchable net) urlsToCache ->
  succeeded (install net cs) = true
  /\ In Worker.SkipWaiting (install_effects (install net cs))
  /\ Forall (fun u => cache_match (GET u)
                        (cache_named CACHE_NAME (caches_after (install net cs)))
                      = net (GET u)) urlsToCache
  /\ forall n, n <> CACHE_NAME ->
               assoc n (caches_after (install net cs)) = assoc n cs.
Proof.
  intros Hall. destruct (install_stores net cs Hall) as [c [-> Hc]].
  cbn [succeeded install_effects caches_after]. repeat split.
  - simpl. tauto.
  - apply Forall_forall. intros u Hu.
    unfold cache_named. rewrite assoc_update_same.
    destruct (assoc CACHE_NAME (open CACHE_NAME cs)) eqn:E.
    + unfold cache_match. simpl. now apply Hc.
    + exfalso. now apply (assoc_open_same CACHE_NAME cs).
  - intros n Hn. rewrite assoc_update_other by assumption.
    now apply assoc_open_other.
Qed.

Lemma install_stores_the_shell_witness :
  Forall (fetchable net_shell) urlsToCache
  /\ succeeded (install net_shell old_caches) = true
  /\ cache_match (GET "/options")
                 (cache_named CACHE_NAME (caches_after (install net_shell old_caches)))
     = Some (mkResponse 200 "page /options").
Proof.
  destruct (install_stores_the_shell net_shell old_caches fetchable_net_shell)
    as [H1 [_ [H3 _]]].
  rewrite Forall_forall in H3.
  refine (conj fetchable_net_shell (conj H1 _)).
  apply (H3 "/options"%string). simpl. tauto.
Defined.

(** X9.  When one of the shell URLs cannot be fetched, or is answered with a
    status that is not [ok], the install fails as a whole: nothing is stored
    (the current cache, created empty if there was none, holds what it held)
    and [skipWaiting] is not called. *)
Theorem install_is_all_or_nothing (net : Net) (cs : CacheStorage) :
  ~ Forall (fetchable net) urlsToCache ->
  succeeded (install net cs) = false
  /\ caches_after (install net cs) = open CACHE_NAME cs
  /\ cache_named CACHE_NAME (caches_after (install net cs)) = cache_named CACHE_NAME cs
  /\ ~ In Worker.SkipWaiting (install_effects (install net cs)).
Proof.
  intros Hnot. unfold install, addAll.
  rewrite (fetch_all_none net urlsToCache Hnot).
  cbn [succeeded install_effects caches_after]. repeat split.
  - apply cache_named_open.
  - simpl. intuition discriminate.
Qed.

Lemma install_is_all_or_nothing_witness :
  ~ Forall (fetchable net_no_options) urlsToCache
  /\ succeeded (install net_no_options old_caches) = false
  /\ caches_after (install net_no_options old_caches)
     = old_caches ++ [(CACHE_NAME, [])].
Proof.
  assert (H : ~ Forall (fetchable net_no_options) urlsToCache).
  { intros Hall. rewrite Forall_forall in Hall.
    destruct (Hall "/options"%string) as [r [Hr Hok]]; [simpl; tauto|].
    vm_compute in Hr. injection Hr as <-. discriminate. }
  destruct (install_is_all_or_nothing net_no_options old_caches H) as [H1 [H2 _]].
  exact (conj H (conj H1 H2)).
Defined.

(** X10.  After an install that succeeded against [net0] and activation, a
    GET for a shell URL is answered from the cache, with the response fetched
    at install time and without any network request, whatever the network
    would answer now. *)
Theorem shell_is_served_from_the_cache
        (net0 net : Net) (cs : CacheStorage) (u dest : string) :
  Forall (fetchable net0) urlsToCache ->
  In u urlsToCache ->
  on_fetch net (activated net0 cs) (mkReq u "GET" dest) = (net0 (GET u), []).
Proof.
  intros Hall Hu. unfold on_fetch.
  rewrite (caches_match_shell net0 cs u dest Hall Hu).
  rewrite Forall_forall in Hall. destruct (Hall u Hu) as [r [Hr _]].
  now rewrite Hr.
Qed.

Lemma shell_is_served_from_the_cache_witness :
  Forall (fetchable net_shell) urlsToCache
  /\ In "/entries"%string urlsToCache
  /\ on_fetch net_offline (activated net_shell old_caches)
              (mkReq "/entries" "GET" "document")
     = (Some (mkResponse 200 "page /entries"), []).
Proof.
  assert (H2 : In "/entries"%string urlsToCache) by (simpl; tauto).
  exact (conj fetchable_net_shell (conj H2
           (shell_is_served_from_the_cache net_shell net_offline old_caches
              "/entries" "document" fetchable_net_shell H2))).
Defined.

(** X11.  After such an install and activation, a navigation made while the
    network is unreachable always gets a response: the cached one when the
    request itself is cached, and the root document fetched at install time
    otherwise. *)
Theorem offline_navigation_gets_a_page
        (net0 net : Net) (cs : CacheStorage) (req : Req) :
  Forall (fetchable net0) urlsToCache ->
  net req = None ->
  destination req = "document"%string ->
  fst (on_fetch net (activated net0 cs) req)
  = match caches_match req (activated net0 cs) with
    | Some r => Some r
    | None => net0 (GET "/")
    end
  /\ fst (on_fetch net (activated net0 cs) req) <> None.
Proof.
  intros Hall Hnet Hdest.
  assert (Hroot : caches_match (GET "/") (activated net0 cs) = net0 (GET "/")).
  { apply caches_match_shell; [exact Hall | now left]. }
  assert (Hsome : net0 (GET "/") <> None).
  { rewrite Forall_forall in Hall.
    destruct (Hall "/"%string) as [r [Hr _]]; [now left|]. now rewrite Hr. }
  unfold on_fetch.
  destruct (caches_match req (activated net0 cs)) as [r|] eqn:E; simpl.
  - split; [reflexivity | discriminate].
  - rewrite Hnet, Hdest. simpl. rewrite Hroot. split; [reflexivity | exact Hsome].
Qed.

Lemma offline_navigation_gets_a_page_witness :
  Forall (fetchable net_shell) urlsToCache
  /\ net_offline (mkReq "/clients" "GET" "document") = None
  /\ fst (on_fetch net_offline (activated net_shell old_caches)
                   (mkReq "/clients" "GET" "document"))
     = Some (mkResponse 200 "page /").
Proof.
  refine (conj fetchable_net_shell (conj eq_refl _)).
  exact (proj1 (offline_navigation_gets_a_page net_shell net_offline old_caches
                  (mkReq "/clients" "GET" "document")
                  fetchable_net_shell eq_refl eq_refl)).
Defined.

End ShellCacheProps.

(** ** The stopwatches *)

Section FormatProps.
Import Format.

Lemma length_string_of_uint (d : Decimal.uint) :
  String.length (DecimalString.NilEmpty.string_of_uint d) = Decimal.nb_digits d.
Proof. induction d; simpl; congruence. Qed.

Lemma length_String_of_lt10 (n : N) : (n < 10)%N -> String.length (String_of n) = 1%nat.
Proof.
  intros H. destruct n as [|p]; [reflexivity|].
  do 4 (try (destruct p as [p|p|]; try reflexivity; try lia)).
Qed.

Lemma length_String_of_ge10 (n : N) : (10 <= n)%N -> (2 <= String.length (String_of n))%nat.
Proof.
  intros H. unfold String_of. rewrite length_string_of_uint.
  pose proof (DecimalN.Unsigned.of_to n) as E.
  destruct (N.to_uint n) as [|u|u|u|u|u|u|u|u|u|u];
    try (destruct u; [vm_compute in E; lia| simpl; lia ..]).
  vm_compute in E. lia.
Qed.

Lemma pad_pad_lt10 (n : N) : pad n = pad_lt10 n.
Proof.
  unfold pad, pad_lt10, padStart2.
  destruct (N.ltb_spec n 10) as [H|H].
  - now rewrite (length_String_of_lt10 n H).
  - pose proof (length_String_of_ge10 n H).
    destruct (String.length (String_of n)) as [|[|k]]; [lia | lia | reflexivity].
Qed.

Lemma split_colon_digits (d : Decimal.uint) (t : string) :
  split_colon (DecimalString.NilEmpty.string_of_uint d +++ String ":" t)
  = (DecimalString.NilEmpty.string_of_uint d, t).
Proof. induction d; simpl; [reflexivity | rewrite IHd; reflexivity ..]. Qed.

Lemma read_digits_uint (d : Decimal.uint) :
  read_digits (DecimalString.NilEmpty.string_of_uint d) = Some (N.of_uint d).
Proof. unfold read_digits. now rewrite DecimalString.NilEmpty.usu. Qed.

Lemma pad_lt10_digits (n : N) :
  exists d, pad_lt10 n = DecimalString.NilEmpty.string_of_uint d /\ N.of_uint d = n.
Proof.
  unfold pad_lt10, String_of. destruct (n <? 10)%N.
  - exists (Decimal.D0 (N.to_uint n)). split; [reflexivity|].
    apply (DecimalN.Unsigned.of_to n).
  - exists (N.to_uint n). split; [reflexivity | apply DecimalN.Unsigned.of_to].
Qed.

Lemma hms_sum (s : N) :
  (3600 * (s / 3600) + 60 * ((s mod 3600) / 60) + s mod 60 = s)%N.
Proof.
  assert (E : (s mod 60 = (s mod 3600) mod 60)%N).
  { rewrite (N.div_mod s 3600) at 1 by lia.
    replace (3600 * (s / 3600))%N with ((s / 3600 * 60) * 60)%N by lia.
    rewrite N.add_comm. apply N.Div0.mod_add. }
  rewrite E.
  pose proof (N.div_mod s 3600). pose proof (N.div_mod (s mod 3600) 60). lia.
Qed.

(** X12.  The two stopwatches format a count of seconds alike: [toHHMMSS]
    and [fmt] give the same text for every count. *)
Theorem stopwatch_formats_agree (s : N) : toHHMMSS s = fmt s.
Proof.
  unfold toHHMMSS, fmt, pad, pad_lt10.
  assert (H : forall n, padStart2 (String_of n)
                        = if (n <? 10)%N then "0" +++ String_of n else String_of n).
  { intros n. exact (pad_pad_lt10 n). }
  now rewrite !H.
Qed.

(** X13.  The displayed text determines the count: read as hours, minutes
    and seconds it gives the count back, also beyond 99 hours, where the
    hours take more than two digits. *)
Theorem displayed_time_reads_back (s : N) : read_hhmmss (toHHMMSS s) = Some s.
Proof.
  unfold toHHMMSS, read_hhmmss. rewrite !pad_pad_lt10.
  destruct (pad_lt10_digits (s / 3600)) as (dh & -> & Eh).
  destruct (pad_lt10_digits ((s mod 3600) / 60)) as (dm & -> & Em).
  destruct (pad_lt10_digits (s mod 60)) as (ds & -> & Es).
  change (?a +++ ":" +++ ?b) with (a +++ String ":" b).
  rewrite split_colon_digits.
  change (?a +++ ":" +++ ?b) with (a +++ String ":" b).
  rewrite split_colon_digits.
  rewrite !read_digits_uint, Eh, Em, Es. f_equal. apply hms_sum.
Qed.

End FormatProps.

Section StopwatchProps.
Import Stopwatch.
Variable toHours2_fixed : N -> option string.

Lemma remove_handle_single (h : nat) : remove_handle h [h] = [].
Proof. unfold remove_handle. simpl. now rewrite Nat.eqb_refl. Qed.

Lemma one_timer_step (st : State) (ev : Event) :
  (0 < next_handle st)%nat ->
  one_timer (running st) (tickId st) (timeouts st) ->
  (0 < next_handle (step toHours2_fixed st ev))%nat
  /\ one_timer (running (step toHours2_fixed st ev)) (tickId (step toHours2_fixed st ev))
               (timeouts (step toHours2_fixed st ev)).
Proof.
  intros Hpos H. destruct st as [r s t d hi ts nx]. cbn [running tickId timeouts next_handle] in *.
  destruct nx as [|nx]; [lia|].
  destruct r; cbn [one_timer] in H.
  - destruct H as (h & -> & ->).
    destruct ev as [| | |k]; cbn [step on_start on_pause on_stop on_timeout clear_tick tick
                                  running tickId timeouts next_handle seconds display hoursInput].
    + split; [lia|]. exists h. now split.
    + rewrite remove_handle_single. split; [lia|]. now split.
    + rewrite remove_handle_single. split; [lia|]. now split.
    + unfold on_timeout. cbn [timeouts existsb]. rewrite Bool.orb_false_r.
      destruct (Nat.eqb_spec k (S h)) as [->|Hk];
        cbn [tick running tickId timeouts next_handle seconds display hoursInput].
      * rewrite remove_handle_single. split; [lia|]. exists nx. now split.
      * split; [lia|]. exists h. now split.
  - destruct H as [-> ->].
    destruct ev as [| | |k]; cbn [step on_start on_pause on_stop on_timeout clear_tick tick
                                  running tickId timeouts next_handle seconds display hoursInput
                                  existsb].
    + split; [lia|]. exists nx. now split.
    + split; [lia|]. now split.
    + split; [lia|]. now split.
    + unfold on_timeout. cbn [timeouts existsb running tickId next_handle].
      split; [lia|]. now split.
Qed.

Lemma one_timer_run (evs : list Event) :
  forall st,
    (0 < next_handle st)%nat ->
    one_timer (running st) (tickId st) (timeouts st) ->
    one_timer (running (run toHours2_fixed st evs)) (tickId (run toHours2_fixed st evs))
              (timeouts (run toHours2_fixed st evs)).
Proof.
  induction evs as [|ev evs IH]; intros st Hpos H; [exact H|].
  destruct (one_timer_step st ev Hpos H) as [Hpos' H'].
  exact (IH _ Hpos' H').
Qed.

(** X14.  However the buttons are pressed and the timeouts fire, the page
    holds exactly one pending timeout while the stopwatch runs, the one
    [tickId] names, and none while it does not run. *)
Theorem stopwatch_keeps_one_timeout
    (display_text : string) (hours : option string) (evs : list Event) :
  let st := run toHours2_fixed (init display_text hours) evs in
  one_timer (running st) (tickId st) (timeouts st).
Proof.
  apply one_timer_run; simpl; [lia | now split].
Qed.

Lemma display_step (st : State) (ev : Event) :
  display st = Format.toHHMMSS (seconds st) ->
  display (step toHours2_fixed st ev)
  = Format.toHHMMSS (seconds (step toHours2_fixed st ev)).
Proof.
  intros H. destruct st as [r s t d hi ts nx]. cbn [display seconds] in H.
  destruct ev as [| | |k]; cbn [step on_start on_pause on_stop on_timeout clear_tick].
  - destruct r; cbn [running tick display seconds]; [exact H | reflexivity].
  - cbn [tickId]. destruct t as [[|h]|]; cbn [display seconds]; exact H.
  - cbn [tickId]. destruct t as [[|h]|]; cbn [display seconds]; reflexivity.
  - unfold on_timeout. cbn [timeouts]. destruct (existsb (Nat.eqb k) ts); [|exact H].
    unfold tick. cbn [running]. destruct r; cbn [display seconds]; [reflexivity | exact H].
Qed.

Lemma display_run (evs : list Event) :
  forall st,
    display st = Format.toHHMMSS (seconds st) ->
    display (run toHours2_fixed st evs)
    = Format.toHHMMSS (seconds (run toHours2_fixed st evs)).
Proof.
  induction evs as [|ev evs IH]; intros st H; [exact H|].
  apply IH, display_step, H.
Qed.

(** X15.  Once Start or Stop was pressed the display shows the count of
    seconds the stopwatch holds, formatted by [toHHMMSS], whatever happened
    since. *)
Theorem stopwatch_display_shows_the_count
    (display_text : string) (hours : option string) (evs : list Event) :
  In ClickStart evs \/ In ClickStop evs ->
  let st := run toHours2_fixed (init display_text hours) evs in
  display st = Format.toHHMMSS (seconds st).
Proof.
  cbv zeta.
  induction evs as [|ev evs IH]; intros H; [destruct H as [[]|[]]|].
  destruct ev as [| | |k].
  - apply (display_run evs (step toHours2_fixed (init display_text hours) ClickStart)).
    reflexivity.
  - apply IH. destruct H as [[H|H]|[H|H]]; try discriminate; tauto.
  - apply (display_run evs (step toHours2_fixed (init display_text hours) ClickStop)).
    reflexivity.
  - apply IH. destruct H as [[H|H]|[H|H]]; try discriminate; tauto.
Qed.

Lemma seconds_pause_start (st : State) :
  seconds (on_start (on_pause st)) = (seconds st + 1)%N.
Proof.
  destruct st as [r s t d hi ts nx]. unfold on_pause, clear_tick. cbn [tickId].
  destruct t as [[|h]|]; reflexivity.
Qed.

(** X16.  Start counts a second at once, before any timeout fires: [n]
    presses of Pause, each followed by Start, add [n] seconds to the
    count. *)
Theorem pause_and_resume_adds_a_second (st : State) (n : nat) :
  seconds (run toHours2_fixed st (pause_resume n)) = (seconds st + N.of_nat n)%N.
Proof.
  revert st. induction n as [|n IH]; intros st.
  - simpl. lia.
  - cbn [pause_resume run fold_left step]. 
    change (fold_left (step toHours2_fixed) (pause_resume n) ?s)
      with (run toHours2_fixed s (pause_resume n)).
    rewrite IH, seconds_pause_start. lia.
Qed.

End StopwatchProps.

Lemma stopwatch_display_shows_the_count_witness :
  (In Stopwatch.ClickStart
      [Stopwatch.ClickStart; Stopwatch.TimeoutFires 1; Stopwatch.ClickPause]
   \/ In Stopwatch.ClickStop
         [Stopwatch.ClickStart; Stopwatch.TimeoutFires 1; Stopwatch.ClickPause])
  /\ Stopwatch.display
       (Stopwatch.run hours_if_counted (Stopwatch.init "--:--:--" None)
          [Stopwatch.ClickStart; Stopwatch.TimeoutFires 1; Stopwatch.ClickPause])
     = Format.toHHMMSS
         (Stopwatch.seconds
            (Stopwatch.run hours_if_counted (Stopwatch.init "--:--:--" None)
               [Stopwatch.ClickStart; Stopwatch.TimeoutFires 1; Stopwatch.ClickPause])).
Proof.
  assert (H : In Stopwatch.ClickStart
                [Stopwatch.ClickStart; Stopwatch.TimeoutFires 1; Stopwatch.ClickPause]
              \/ In Stopwatch.ClickStop
                    [Stopwatch.ClickStart; Stopwatch.TimeoutFires 1; Stopwatch.ClickPause])
    by (left; now left).
  exact (conj H (stopwatch_display_shows_the_count hours_if_counted "--:--:--" None _ H)).
Defined.


Section SessionTimerProps.
Import SessionTimer.
Variable trim : string -> string.
Variable STOP_MIN_SECONDS : N.
Variable toHours2_fixed : N -> string.
Variable today : string.

Local Abbreviation step := (SessionTimer.step trim STOP_MIN_SECONDS toHours2_fixed today).
Local Abbreviation run := (SessionTimer.run trim STOP_MIN_SECONDS toHours2_fixed today).
Local Abbreviation conclude := (SessionTimer.conclude trim STOP_MIN_SECONDS toHours2_fixed today).

Lemma session_run_app (st : State) (evs1 evs2 : list Event) :
  run st (evs1 ++ evs2) = run (run st evs1) evs2.
Proof. apply fold_left_app. Qed.

Lemma last_outcome_stop (st : State) (answers : list Answer) (dom : Dom) :
  last_outcome (step st (ClickStop answers dom)) = Some (conclude (secs st) answers dom).
Proof.
  unfold last_outcome. cbn [SessionTimer.step stop outcomes].
  rewrite map_app. apply last_last.
Qed.

Lemma secs_stop (st : State) (answers : list Answer) (dom : Dom) :
  secs (step st (ClickStop answers dom)) = 0%N
  /\ display (step st (ClickStop answers dom)) = Format.fmt 0
  /\ running (step st (ClickStop answers dom)) = false.
Proof.
  destruct st as [r s t d ivs nx os]. cbn [SessionTimer.step stop reset pause running].
  destruct r; cbn; repeat split; reflexivity.
Qed.

Lemma session_step (st : State) (ev : Event) :
  (0 < next_handle st)%nat ->
  one_timer (running st) (tickHandle st) (intervals st) ->
  display st = Format.fmt (secs st) ->
  (0 < next_handle (step st ev))%nat
  /\ one_timer (running (step st ev)) (tickHandle (step st ev)) (intervals (step st ev))
  /\ display (step st ev) = Format.fmt (secs (step st ev)).
Proof.
  intros Hpos H Hd. destruct st as [r s t d ivs nx os].
  cbn [running tickHandle intervals next_handle display secs] in *.
  destruct nx as [|nx]; [lia|].
  destruct r; cbn [one_timer] in H.
  - destruct H as (h & -> & ->).
    destruct ev as [| |answers dom|k];
      cbn [SessionTimer.step start pause stop reset render
           running tickHandle intervals next_handle display secs outcomes].
    + split; [lia|]. split; [|exact Hd]. exists h. now split.
    + rewrite remove_handle_single. split; [lia|]. split; [|exact Hd]. now split.
    + rewrite remove_handle_single. split; [lia|]. split; [|reflexivity]. now split.
    + unfold on_interval. cbn [intervals existsb]. rewrite Bool.orb_false_r.
      destruct (Nat.eqb k (S h));
        cbn [tick render running tickHandle intervals next_handle display secs outcomes].
      * split; [lia|]. split; [|reflexivity]. exists h. now split.
      * split; [lia|]. split; [|exact Hd]. exists h. now split.
  - destruct H as [-> ->].
    destruct ev as [| |answers dom|k];
      cbn [SessionTimer.step start pause stop reset render
           running tickHandle intervals next_handle display secs outcomes].
    + split; [lia|]. split; [|exact Hd]. exists nx. now split.
    + split; [lia|]. split; [|exact Hd]. now split.
    + split; [lia|]. split; [|reflexivity]. now split.
    + unfold on_interval. cbn [intervals existsb running tickHandle next_handle display secs].
      split; [lia|]. split; [|exact Hd]. now split.
Qed.

Lemma session_run (evs : list Event) :
  forall st,
    (0 < next_handle st)%nat ->
    one_timer (running st) (tickHandle st) (intervals st) ->
    display st = Format.fmt (secs st) ->
    one_timer (running (run st evs)) (tickHandle (run st evs)) (intervals (run st evs))
    /\ display (run st evs) = Format.fmt (secs (run st evs)).
Proof.
  induction evs as [|ev evs IH]; intros st Hpos H Hd; [now split|].
  destruct (session_step st ev Hpos H Hd) as (Hpos' & H' & Hd').
  exact (IH _ Hpos' H' Hd').
Qed.

Lemma session_init :
  (0 < next_handle init)%nat
  /\ one_timer (running init) (tickHandle init) (intervals init)
  /\ display init = Format.fmt (secs init).
Proof. simpl. repeat split. lia. Qed.

(** X17.  The session stopwatch keeps a single interval: whatever the
    buttons and the intervals do, exactly one interval is active while the
    stopwatch runs, the one [tickHandle] names, none is active while it is
    paused, and the display shows [fmt(secs)]. *)
Theorem session_timer_keeps_one_interval (evs : list Event) :
  let st := run init evs in
  one_timer (running st) (tickHandle st) (intervals st)
  /\ display st = Format.fmt (secs st).
Proof.
  destruct session_init as (Hpos & H & Hd). exact (session_run evs init Hpos H Hd).
Qed.

(** X18.  Stop clears the clock before it decides anything: after a press
    of Stop the count is zero, the stopwatch does not run, no interval is
    left active and the display shows zero, whether the session was logged,
    was too short, was discarded or its handler failed. *)
Theorem stop_always_clears_the_clock
    (evs : list Event) (answers : list Answer) (dom : Dom) :
  let st := run init (evs ++ [ClickStop answers dom]) in
  running st = false /\ secs st = 0%N /\ tickHandle st = None /\ intervals st = []
  /\ display st = Format.fmt 0.
Proof.
  cbv zeta. rewrite session_run_app.
  destruct session_init as (Hpos & H & Hd).
  destruct (session_run (evs ++ [ClickStop answers dom]) init Hpos H Hd) as [H1 _].
  rewrite session_run_app in H1.
  cbn [SessionTimer.run fold_left] in *.
  destruct (secs_stop (SessionTimer.run trim STOP_MIN_SECONDS toHours2_fixed today init evs)
                      answers dom) as (Hs & Hdisp & Hr).
  rewrite Hr in H1. cbn [one_timer] in H1. destruct H1 as [Ht Hi].
  repeat split; assumption.
Qed.

Lemma secs_step_le (st : State) (ev : Event) :
  (secs (step st ev) <= secs st + (if is_interval_firing ev then 1 else 0))%N.
Proof.
  destruct st as [r s t d ivs nx os].
  destruct ev as [| |answers dom|k]; cbn [SessionTimer.step is_interval_firing].
  - unfold start. cbn [running]. destruct r; cbn [secs]; lia.
  - unfold pause. cbn [running]. destruct r; cbn [secs]; lia.
  - destruct (secs_stop (mkState r s t d ivs nx os) answers dom) as (Hs & _).
    cbn [SessionTimer.step] in Hs. rewrite Hs. lia.
  - unfold on_interval. destruct (existsb _ _); cbn [tick render secs]; lia.
Qed.

(** X19.  The session stopwatch counts nothing but firings of its interval:
    over any run of events its count grows by at most the number of firings
    (pressing Start adds nothing, unlike the stopwatch of the hours
    field). *)
Theorem session_time_is_bounded_by_firings (evs : list Event) :
  forall st,
    (secs (run st evs)
     <= secs st + N.of_nat (List.length (filter is_interval_firing evs)))%N.
Proof.
  induction evs as [|ev evs IH]; intros st; [simpl; lia|].
  cbn [SessionTimer.run fold_left filter].
  pose proof (IH (step st ev)) as H1. pose proof (secs_step_le st ev) as H2.
  unfold SessionTimer.run in H1.
  destruct (is_interval_firing ev); cbn [List.length]; lia.
Qed.

Lemma truthy_getFieldVal (dom : Dom) (name fallback v : string) :
  getFieldVal trim dom name fallback = Normal v ->
  truthy fallback = true ->
  truthy v = true.
Proof.
  unfold getFieldVal. destruct (dom name) as [f|]; [|discriminate].
  intros E Hf. injection E as <-.
  destruct (truthy (trim _)) eqn:Et; assumption.
Qed.

Lemma askDescription_some (answers : list Answer) (desc : string) :
  askDescription trim answers = Some (Some desc) ->
  truthy desc = true /\ exists txt, In (Typed txt) answers /\ desc = trim txt.
Proof.
  induction answers as [|a rest IH]; [discriminate|].
  destruct a as [txt|[|]]; cbn [askDescription].
  - destruct (truthy (trim txt)) eqn:Et.
    + intros E. injection E as <-. split; [exact Et|]. exists txt. split; [now left | reflexivity].
    + intros E. destruct (IH E) as (H1 & t & H2 & H3). split; [exact H1|].
      exists t. split; [now right | exact H3].
  - discriminate.
  - intros E. destruct (IH E) as (H1 & t & H2 & H3). split; [exact H1|].
    exists t. split; [now right | exact H3].
Qed.

(** X20.  A session is submitted only when it lasted at least the
    threshold and the user typed a description that is not blank: the form
    carries the count the stopwatch held when Stop was pressed, the trimmed
    text of one of the answers, and a client and a matter that are not
    empty. *)
Theorem submitted_session_is_long_and_described
    (evs : list Event) (answers : list Answer) (dom : Dom) (form : Submission) :
  last_outcome (run init (evs ++ [ClickStop answers dom])) = Some (Submitted form) ->
  let elapsed := secs (run init evs) in
  (STOP_MIN_SECONDS <= elapsed)%N
  /\ sw_elapsed form = Format.String_of elapsed
  /\ sw_hours form = toHours2_fixed elapsed
  /\ truthy (sw_desc form) = true
  /\ (exists txt, In (Typed txt) answers /\ sw_desc form = trim txt)
  /\ truthy (sw_client form) = true
  /\ truthy (sw_matter form) = true.
Proof.
  rewrite session_run_app. cbv zeta.
  change (run (run init evs) [ClickStop answers dom])
    with (step (run init evs) (ClickStop answers dom)).
  rewrite last_outcome_stop.
  generalize (secs (run init evs)). intros elapsed.
  unfold SessionTimer.conclude.
  destruct (N.ltb_spec elapsed STOP_MIN_SECONDS) as [Hlt|Hge]; [discriminate|].
  destruct (askDescription trim answers) as [[desc|]|] eqn:Ea; try discriminate.
  destruct (getFieldVal trim dom "client" "(Unspecified)") as [client|] eqn:Ec;
    [|discriminate].
  destruct (getFieldVal trim dom "matter" "(Unspecified)") as [matter|] eqn:Em;
    [|discriminate].
  destruct (getFieldVal trim dom "date_of_work" today) as [date|]; [|discriminate].
  intros E. injection E as <-. cbn [sw_elapsed sw_hours sw_desc sw_client sw_matter].
  destruct (askDescription_some answers desc Ea) as [Hd Htxt].
  repeat split; try assumption; try reflexivity.
  - exact (truthy_getFieldVal _ _ _ _ Ec eq_refl).
  - exact (truthy_getFieldVal _ _ _ _ Em eq_refl).
Qed.

(** X21.  When one of the fields [client], [matter] and [date_of_work] is
    not on the page, a session that was long enough and described is lost:
    the handler fails with a TypeError after the clock was cleared, and
    nothing is submitted. *)
Theorem missing_field_loses_the_session
    (st : State) (answers : list Answer) (dom : Dom) (desc : string) :
  (STOP_MIN_SECONDS <= secs st)%N ->
  askDescription trim answers = Some (Some desc) ->
  dom "client"%string = None \/ dom "matter"%string = None
  \/ dom "date_of_work"%string = None ->
  let st' := step st (ClickStop answers dom) in
  last_outcome st' = Some (Failed TypeError) /\ secs st' = 0%N.
Proof.
  intros Hge Ea Hmiss. cbv zeta. rewrite last_outcome_stop.
  split; [|apply secs_stop].
  f_equal. unfold SessionTimer.conclude.
  destruct (N.ltb_spec (secs st) STOP_MIN_SECONDS) as [Hlt|_]; [lia|].
  rewrite Ea. unfold getFieldVal.
  destruct (dom "client"%string) as [fc|]; [|reflexivity].
  destruct (dom "matter"%string) as [fm|]; [|reflexivity].
  destruct (dom "date_of_work"%string) as [fd|]; [|reflexivity].
  destruct Hmiss as [H|[H|H]]; discriminate.
Qed.

(** X22.  [askDescription] asks until an answer decides: blank texts and
    cancellations that are not confirmed are passed over, and the first
    other answer gives the result, the trimmed text or [null]. *)
Theorem first_decisive_answer_decides
    (before after : list Answer) (a : Answer) :
  Forall (fun x => asks_again trim x = true) before ->
  asks_again trim a = false ->
  askDescription trim (before ++ a :: after)
  = Some (match a with Typed txt => Some (trim txt) | Cancelled _ => None end).
Proof.
  intros Hb Ha. induction Hb as [|x before Hx Hb IH].
  - destruct a as [txt|[|]]; cbn in *; try discriminate; try reflexivity.
    destruct (truthy (trim txt)); [reflexivity | discriminate].
  - destruct x as [txt|[|]]; cbn in *; try discriminate; try exact IH.
    destruct (truthy (trim txt)); [discriminate | exact IH].
Qed.

End SessionTimerProps.

Lemma submitted_session_is_long_and_described_witness :
  let form :=
    SessionTimer.mkSubmission "Smith" "Lease" "2024-05-01" (hours_rounded 300)
      "Call with client" (Format.String_of 300) in
  let elapsed :=
    SessionTimer.secs
      (SessionTimer.run trim_spaces 300 hours_rounded "2024-05-02" SessionTimer.init
         five_minutes) in
  last_outcome
    (SessionTimer.run trim_spaces 300 hours_rounded "2024-05-02" SessionTimer.init
       (five_minutes
        ++ [SessionTimer.ClickStop
              [SessionTimer.Typed "  "; SessionTimer.Cancelled false;
               SessionTimer.Typed " Call with client "] entry_page]))
  = Some (SessionTimer.Submitted form)
  /\ (300 <= elapsed)%N
  /\ SessionTimer.sw_elapsed form = Format.String_of elapsed
  /\ SessionTimer.sw_hours form = hours_rounded elapsed
  /\ SessionTimer.truthy (SessionTimer.sw_desc form) = true
  /\ (exists txt,
        In (SessionTimer.Typed txt)
           [SessionTimer.Typed "  "; SessionTimer.Cancelled false;
            SessionTimer.Typed " Call with client "]
        /\ SessionTimer.sw_desc form = trim_spaces txt)
  /\ SessionTimer.truthy (SessionTimer.sw_client form) = true
  /\ SessionTimer.truthy (SessionTimer.sw_matter form) = true.
Proof.
  intros form elapsed.
  assert (H : last_outcome
                (SessionTimer.run trim_spaces 300 hours_rounded "2024-05-02"
                   SessionTimer.init
                   (five_minutes
                    ++ [SessionTimer.ClickStop
                          [SessionTimer.Typed "  "; SessionTimer.Cancelled false;
                           SessionTimer.Typed " Call with client "] entry_page]))
              = Some (SessionTimer.Submitted form)) by (vm_compute; reflexivity).
  exact (conj H (submitted_session_is_long_and_described trim_spaces 300 hours_rounded
                   "2024-05-02" five_minutes _ entry_page form H)).
Defined.

Lemma missing_field_loses_the_session_witness :
  let st :=
    SessionTimer.run trim_spaces 300 hours_rounded "2024-05-02" SessionTimer.init
      five_minutes in
  let st' :=
    SessionTimer.step trim_spaces 300 hours_rounded "2024-05-02" st
      (SessionTimer.ClickStop [SessionTimer.Typed "Call with client"] bare_page) in
  (300 <= SessionTimer.secs st)%N
  /\ SessionTimer.askDescription trim_spaces [SessionTimer.Typed "Call with client"]
     = Some (Some "Call with client"%string)
  /\ (bare_page "client"%string = None \/ bare_page "matter"%string = None
      \/ bare_page "date_of_work"%string = None)
  /\ last_outcome st' = Some (SessionTimer.Failed TypeError)
  /\ SessionTimer.secs st' = 0%N.
Proof.
  intros st st'.
  assert (H1 : (300 <= SessionTimer.secs st)%N) by (vm_compute; discriminate).
  assert (H2 : SessionTimer.askDescription trim_spaces
                 [SessionTimer.Typed "Call with client"]
               = Some (Some "Call with client"%string)) by reflexivity.
  assert (H3 : bare_page "client"%string = None \/ bare_page "matter"%string = None
               \/ bare_page "date_of_work"%string = None) by (now left).
  exact (conj H1 (conj H2 (conj H3
           (missing_field_loses_the_session trim_spaces 300 hours_rounded "2024-05-02"
              st _ bare_page _ H1 H2 H3)))).
Defined.

Lemma first_decisive_answer_decides_witness :
  Forall (fun x => asks_again trim_spaces x = true)
         [SessionTimer.Typed "   "; SessionTimer.Cancelled false]
  /\ asks_again trim_spaces (SessionTimer.Cancelled true) = false
  /\ SessionTimer.askDescription trim_spaces
       ([SessionTimer.Typed "   "; SessionTimer.Cancelled false]
        ++ SessionTimer.Cancelled true :: [SessionTimer.Typed "Too late"])
     = Some None.
Proof.
  assert (H1 : Forall (fun x => asks_again trim_spaces x = true)
                      [SessionTimer.Typed "   "; SessionTimer.Cancelled false])
    by (repeat constructor).
  assert (H2 : asks_again trim_spaces (SessionTimer.Cancelled true) = false) by reflexivity.
  exact (conj H1 (conj H2
           (first_decisive_answer_decides trim_spaces _ [SessionTimer.Typed "Too late"]
              (SessionTimer.Cancelled true) H1 H2))).
Defined.


(** ** The entry form *)

Section EntryFormProps.
Import EntryForm.
Variable parseFloat : string -> JSValue.

(** X23.  A submitted form is never dropped: either the manager was online
    and the server answered with an [ok] status, and then the page goes to
    the response's URL with the queue untouched, or the entry built from the
    form is appended to the queue, unsynced, and the queue is written to
    storage. *)
Theorem submit_is_accepted_or_queued
    (server : string -> FormData -> PostResult) (action today : string) (now : Z)
    (fd : FormData) (w : World) :
  let w' := fst (on_submit parseFloat server action today now fd w) in
  let effects := snd (on_submit parseFloat server action today now fd w) in
  let entry := mkEntry (next_addr w) (new_entry (entryData parseFloat today fd) now) in
  (isOnline w = true
   /\ (exists status url,
          server action fd = Answered status url /\ ok status = true
          /\ effects = [Post action fd;
                        Navigate (if String.eqb url EmptyString then "/entries" else url)])
   /\ w' = w)
  \/ (pendingEntries w' = pendingEntries w ++ [entry]
      /\ synced entry = false
      /\ localStorage w' = Some (persist (pendingEntries w'))
      /\ Forall (fun x => match x with Navigate href => href = "/entries"%string
                                     | _ => True end) effects
      /\ exchanges w' = exchanges w).
Proof.
  cbv zeta. unfold on_submit.
  destruct (isOnline w) eqn:Eon.
  - destruct (server action fd) as [status url|] eqn:Es.
    + destruct (ok status) eqn:Eok.
      * left. split; [reflexivity|]. split; [|reflexivity].
        exists status, url. now repeat split.
      * right. cbn [fst snd saveOfflineEntry pendingEntries localStorage exchanges].
        split; [reflexivity|]. split; [apply synced_new_entry|].
        split; [reflexivity|]. split; [repeat constructor | reflexivity].
    + right. cbn [fst snd saveOfflineEntry pendingEntries localStorage exchanges].
      split; [reflexivity|]. split; [apply synced_new_entry|].
      split; [reflexivity|]. split; [repeat constructor | reflexivity].
  - right. cbn [fst snd saveOfflineEntry pendingEntries localStorage exchanges].
    split; [reflexivity|]. split; [apply synced_new_entry|].
    split; [reflexivity|]. split; [repeat constructor | reflexivity].
Qed.

(** X24.  The request a later pass sends for an entry saved from the form
    always carries the five properties [client], [matter], [hours], [desc]
    and [date_of_work], in this order, with the values of the form ([null]
    for a control the form lacks, the day of the submission for an empty
    date); the form's [timekeeper] is not sent. *)
Theorem form_entry_request_body
    (today : string) (now : Z) (fd : FormData) (a : nat) :
  quick_entry_request (mkEntry a (new_entry (entryData parseFloat today fd) now))
  = mkRequest "/api/quick-entry" "POST"
      [("Content-Type", "application/json"); ("X-Requested-With", "XMLHttpRequest")]%string
      (JSON.stringify
         (JObject [("client", field fd "client");
                   ("matter", field fd "matter");
                   ("hours", parseFloat (get_or fd "hours" "0"));
                   ("desc", field fd "desc");
                   ("date_of_work", JString (get_or fd "date_of_work" today))]%string)).
Proof. reflexivity. Qed.

End EntryFormProps.

(** ** Storage round trip *)

Section RoundTrip.
Import JSON.

Lemma digits_are_digits (d : Decimal.uint) :
  Forall (fun c => is_digit c = true) (chars (DecimalString.NilEmpty.string_of_uint d)).
Proof. induction d; simpl; constructor; auto. Qed.

Lemma digits_value_acc (d : Decimal.uint) :
  forall acc : positive,
    fold_left (fun a c => 10 * a + (Z.of_nat (nat_of_ascii c) - 48))
              (chars (DecimalString.NilEmpty.string_of_uint d)) (Zpos acc)
    = Zpos (Pos.of_uint_acc d acc).
Proof.
  induction d; intros acc; cbn [DecimalString.NilEmpty.string_of_uint chars
                                list_ascii_of_string fold_left Pos.of_uint_acc];
    [reflexivity | rewrite <- IHd; f_equal ..];
    match goal with
    | |- context [Z.of_nat (nat_of_ascii ?c)] =>
        let v := eval vm_compute in (Z.of_nat (nat_of_ascii c)) in
        change (Z.of_nat (nat_of_ascii c)) with v
    end; lia.
Qed.

Lemma digits_value_uint (d : Decimal.uint) :
  digits_value (chars (DecimalString.NilEmpty.string_of_uint d)) = Z.of_N (Pos.of_uint d).
Proof.
  unfold digits_value.
  induction d; cbn [DecimalString.NilEmpty.string_of_uint chars
                    list_ascii_of_string fold_left Pos.of_uint];
    [reflexivity | exact IHd | cbn [Z.of_N]; rewrite <- digits_value_acc; f_equal ..].
Qed.

Lemma digits_value_decimal (p : positive) : digits_value (decimal_of_Z (Zpos p)) = Zpos p.
Proof.
  unfold decimal_of_Z. cbn [Z.to_int DecimalString.NilEmpty.string_of_int].
  rewrite digits_value_uint, DecimalPos.Unsigned.of_to. reflexivity.
Qed.


Lemma digits_decimal (p : positive) :
  Forall (fun c => is_digit c = true) (decimal_of_Z (Zpos p)).
Proof. apply digits_are_digits. Qed.

Lemma decimal_head (p : positive) :
  exists c tl, decimal_of_Z (Zpos p) = c :: tl /\ c <> "0"%char.
Proof.
  unfold decimal_of_Z. cbn [Z.to_int DecimalString.NilEmpty.string_of_int].
  pose proof (DecimalPos.Unsigned.to_of (Pos.to_uint p)) as E.
  rewrite DecimalPos.Unsigned.of_to in E. cbn [N.to_uint] in E.
  pose proof (DecimalPos.Unsigned.to_uint_nonzero p) as Hnz.
  assert (Hn : Decimal.nzhead (Pos.to_uint p) = Pos.to_uint p).
  { unfold Decimal.unorm in E.
    destruct (Decimal.nzhead (Pos.to_uint p)) eqn:En; congruence. }
  pose proof (DecimalFacts.nzhead_nonzero (Pos.to_uint p)) as Hh.
  rewrite Hn in Hh.
  pose proof (DecimalPos.Unsigned.to_uint_nonnil p) as Hnil.
  destruct (Pos.to_uint p) as [|u|u|u|u|u|u|u|u|u|u];
    [congruence | exfalso; now apply (Hh u) | ..];
    cbn [DecimalString.NilEmpty.string_of_uint chars list_ascii_of_string];
    eexists; eexists; (split; [reflexivity | discriminate]).
Qed.

Lemma digits_value_snoc (l : list ascii) (c : ascii) :
  digits_value (l ++ [c]) = 10 * digits_value l + (Z.of_nat (nat_of_ascii c) - 48).
Proof. unfold digits_value. now rewrite fold_left_app. Qed.

Lemma digits_value_zeros (j : nat) (l : list ascii) :
  digits_value (repeat "0"%char j ++ l) = digits_value l.
Proof.
  unfold digits_value. induction j as [|j IH]; [reflexivity|]. exact IH.
Qed.

Lemma drop_zeros_spec (l : list ascii) :
  forall e rd e',
    drop_zeros l e = (rd, e') ->
    e <= e' /\ l = repeat "0"%char (Z.to_nat (e' - e)) ++ rd.
Proof.
  induction l as [|c l IH]; intros e rd e' H; cbn [drop_zeros] in H.
  - injection H as <- <-. split; [lia|]. now rewrite Z.sub_diag.
  - destruct (Ascii.eqb_spec c "0") as [->|Hc].
    + destruct (IH _ _ _ H) as [Hle ->]. split; [lia|].
      replace (Z.to_nat (e' - e)) with (S (Z.to_nat (e' - (e + 1)))) by lia.
      reflexivity.
    + injection H as <- <-. split; [lia|]. now rewrite Z.sub_diag.
Qed.

Lemma drop_zeros_keep (l : list ascii) (c : ascii) (e : Z) :
  c <> "0"%char -> drop_zeros (c :: l) e = (c :: l, e).
Proof.
  intros Hc. cbn [drop_zeros]. destruct (Ascii.eqb_spec c "0"); [contradiction | reflexivity].
Qed.

Lemma decimal_last (p : positive) :
  Zpos p mod 10 <> 0 ->
  exists c tl, rev (decimal_of_Z (Zpos p)) = c :: tl /\ c <> "0"%char.
Proof.
  intros Hm.
  destruct (decimal_head p) as (c0 & tl0 & E0 & _).
  destruct (rev (decimal_of_Z (Zpos p))) as [|c tl] eqn:Er.
  - apply (f_equal (@rev ascii)) in Er. rewrite rev_involutive in Er.
    rewrite E0 in Er. discriminate.
  - exists c, tl. split; [reflexivity|]. intros ->.
    apply (f_equal (@rev ascii)) in Er. rewrite rev_involutive in Er. cbn [rev] in Er.
    pose proof (digits_value_decimal p) as Hv. rewrite Er, digits_value_snoc in Hv.
    change (Z.of_nat (nat_of_ascii "0") - 48) with 0 in Hv.
    apply Hm. rewrite <- Hv. rewrite Z.add_0_r, Z.mul_comm. apply Z.mod_mul. lia.
Qed.

Lemma span_digits_app (ds rest : list ascii) :
  Forall (fun c => is_digit c = true) ds ->
  match rest with [] => True | c :: _ => is_digit c = false end ->
  span_digits (ds ++ rest) = (ds, rest).
Proof.
  intros Hds Hrest. induction Hds as [|c ds Hc Hds IH].
  - destruct rest as [|c r]; [reflexivity|]. cbn [app span_digits]. now rewrite Hrest.
  - cbn [app span_digits]. now rewrite Hc, IH.
Qed.

Lemma closes_not_number (rest : list ascii) :
  closes rest ->
  match rest with [] => True | c :: _ => is_digit c = false end
  /\ parse_fraction rest = Some ([], rest)
  /\ parse_exponent rest = Some (0, rest).
Proof.
  destruct rest as [|c r]; [now repeat split|].
  intros [ -> | [ -> | -> ] ]; now repeat split.
Qed.


Lemma positive_to_chars_plain (p : positive) (e : Z) :
  plain_number (Zpos p) e = true ->
  let ds := decimal_of_Z (Zpos p) in
  let n := Z.of_nat (List.length ds) + e in
  e <= 0 /\ -6 < n <= 21
  /\ positive_to_chars p e
     = if e =? 0 then ds
       else if 0 <? n then firstn (Z.to_nat n) ds ++ "."%char :: skipn (Z.to_nat n) ds
       else "0"%char :: "."%char :: repeat "0"%char (Z.to_nat (- n)) ++ ds.
Proof.
  intros H ds n. unfold plain_number in H. cbn [Z.eqb Z.abs] in H. fold ds in H.
  unfold positive_to_chars. fold ds.
  destruct (Z.eqb_spec e 0) as [->|He].
  - rewrite Bool.andb_false_l, Bool.orb_false_r in H. cbn [andb] in H.
    apply Z.leb_le in H. subst n. rewrite Z.add_0_r.
    split; [lia|]. split; [lia|].
    destruct (drop_zeros (rev ds) 0) as [rd e'] eqn:Ed.
    destruct (drop_zeros_spec _ _ _ _ Ed) as [Hle Hrev].
    rewrite Z.sub_0_r in Hrev.
    assert (Hds : ds = rev rd ++ repeat "0"%char (Z.to_nat e')).
    { rewrite <- (rev_involutive ds), Hrev, rev_app_distr. f_equal.
      clear. induction (Z.to_nat e') as [|j IH]; [reflexivity|].
      cbn [repeat rev]. rewrite IH. clear. 
      induction j as [|j IH]; [reflexivity|]. cbn [repeat app]. now rewrite IH. }
    assert (Hlen : Z.of_nat (List.length ds)
                   = Z.of_nat (List.length (rev rd)) + e').
    { rewrite Hds at 1. rewrite length_app, repeat_length. lia. }
    replace ((Z.of_nat (List.length (rev rd)) <=? Z.of_nat (List.length (rev rd)) + e')
             && (Z.of_nat (List.length (rev rd)) + e' <=? 21)) with true
      by (symmetry; apply Bool.andb_true_iff; split; apply Z.leb_le; lia).
    replace (Z.of_nat (List.length (rev rd)) + e' - Z.of_nat (List.length (rev rd)))
      with e' by lia.
    now symmetry.
  - cbn [andb orb] in H.
    apply Bool.andb_true_iff in H. destruct H as [H H4].
    apply Bool.andb_true_iff in H. destruct H as [H H3].
    apply Bool.andb_true_iff in H. destruct H as [H1 H2].
    apply Z.ltb_lt in H1. apply Z.ltb_lt in H3. apply Z.leb_le in H4.
    apply Bool.negb_true_iff, Z.eqb_neq in H2.
    split; [lia|]. split; [subst n; lia|].
    destruct (decimal_last p H2) as (c & tl & Er & Hc). fold ds in Er.
    rewrite Er, (drop_zeros_keep tl c e Hc), <- Er, rev_involutive.
    replace ((Z.of_nat (List.length ds) <=? Z.of_nat (List.length ds) + e)
             && (Z.of_nat (List.length ds) + e <=? 21)) with false
      by (symmetry; apply Bool.andb_false_iff; left; apply Z.leb_gt; lia).
    fold n.
    destruct (Z.ltb_spec 0 n) as [Hn|Hn].
    + replace (n <=? 21) with true by (symmetry; apply Z.leb_le; subst n; lia).
      reflexivity.
    + cbn [andb].
      replace ((-6 <? n) && (n <=? 0)) with true
        by (symmetry; apply Bool.andb_true_iff; split;
            [apply Z.ltb_lt | apply Z.leb_le]; subst n; lia).
      reflexivity.
Qed.


Lemma valid_int_head (c : ascii) (tl : list ascii) :
  c <> "0"%char -> valid_int (c :: tl) = true.
Proof.
  intros Hc. unfold valid_int. destruct tl; [reflexivity|].
  destruct (Ascii.eqb_spec c "0"); [contradiction | reflexivity].
Qed.

Lemma unsigned_parts (p : positive) (e : Z) (rest : list ascii) :
  plain_number (Zpos p) e = true ->
  closes rest ->
  exists ip fp s2 c t,
    positive_to_chars p e = c :: t /\ is_digit c = true
    /\ span_digits (positive_to_chars p e ++ rest) = (ip, s2)
    /\ valid_int ip = true
    /\ parse_fraction s2 = Some (fp, rest)
    /\ digits_value (ip ++ fp) = Zpos p
    /\ 0 - Z.of_nat (List.length fp) = e.
Proof.
  intros Hp Hr.
  destruct (positive_to_chars_plain p e Hp) as (He & Hn & ->).
  destruct (closes_not_number rest Hr) as (Hd & Hf & _).
  pose proof (digits_decimal p) as Hds.
  pose proof (digits_value_decimal p) as Hv.
  destruct (decimal_head p) as (c0 & tl0 & E0 & Hc0).
  set (ds := decimal_of_Z (Zpos p)) in *.
  set (n := Z.of_nat (List.length ds) + e) in *.
  assert (Hc0d : is_digit c0 = true).
  { rewrite E0 in Hds. now inversion Hds. }
  destruct (Z.eqb_spec e 0) as [->|He0].
  - exists ds, [], rest, c0, tl0.
    split; [exact E0|]. split; [exact Hc0d|].
    split; [now apply span_digits_app|].
    split; [rewrite E0; now apply valid_int_head|].
    split; [exact Hf|]. split; [now rewrite app_nil_r | reflexivity].
  - destruct (Z.ltb_spec 0 n) as [Hpos|Hneg].
    + assert (Hlt : (Z.to_nat n < List.length ds)%nat) by (subst n; lia).
      assert (Hfirst : exists t, firstn (Z.to_nat n) ds = c0 :: t).
      { rewrite E0. destruct (Z.to_nat n) as [|j] eqn:Ej; [lia|].
        cbn [firstn]. now eexists. }
      destruct Hfirst as [t Ht].
      exists (firstn (Z.to_nat n) ds), (skipn (Z.to_nat n) ds),
             ("."%char :: skipn (Z.to_nat n) ds ++ rest), c0,
             (t ++ "."%char :: skipn (Z.to_nat n) ds).
      split; [now rewrite Ht|]. split; [exact Hc0d|].
      split.
      { rewrite <- app_assoc. apply span_digits_app; [|reflexivity].
        rewrite <- (firstn_skipn (Z.to_nat n) ds) in Hds.
        now apply Forall_app in Hds. }
      split; [rewrite Ht; now apply valid_int_head|].
      split.
      { unfold parse_fraction. cbn [Ascii.eqb Bool.eqb andb].
        rewrite span_digits_app; [| |exact Hd].
        - destruct (skipn (Z.to_nat n) ds) eqn:Es; [|reflexivity].
          apply (f_equal (@List.length ascii)) in Es.
          rewrite length_skipn in Es. simpl in Es. lia.
        - rewrite <- (firstn_skipn (Z.to_nat n) ds) in Hds.
          now apply Forall_app in Hds. }
      split; [now rewrite firstn_skipn|].
      rewrite length_skipn. subst n. lia.
    + exists ["0"%char], (repeat "0"%char (Z.to_nat (- n)) ++ ds),
             ("."%char :: (repeat "0"%char (Z.to_nat (- n)) ++ ds) ++ rest),
             "0"%char, ("."%char :: repeat "0"%char (Z.to_nat (- n)) ++ ds).
      assert (Hall : Forall (fun c => is_digit c = true)
                            (repeat "0"%char (Z.to_nat (- n)) ++ ds)).
      { apply Forall_app. split; [|exact Hds].
        apply Forall_forall. intros x Hx. apply repeat_spec in Hx. now subst. }
      split; [reflexivity|]. split; [reflexivity|].
      split.
      { change (("0"%char :: "."%char :: repeat "0"%char (Z.to_nat (- n)) ++ ds) ++ rest)
          with (["0"%char] ++ "."%char :: (repeat "0"%char (Z.to_nat (- n)) ++ ds) ++ rest).
        apply span_digits_app; [|reflexivity]. now repeat constructor. }
      split; [reflexivity|].
      split.
      { unfold parse_fraction. cbn [Ascii.eqb Bool.eqb andb].
        rewrite span_digits_app; [|exact Hall|exact Hd].
        destruct (repeat "0"%char (Z.to_nat (- n)) ++ ds) eqn:Es; [|reflexivity].
        apply (f_equal (@List.length ascii)) in Es.
        rewrite length_app, E0 in Es. simpl in Es. lia. }
      split.
      { change (["0"%char] ++ repeat "0"%char (Z.to_nat (- n)) ++ ds)
          with (repeat "0"%char (S (Z.to_nat (- n))) ++ ds).
        now rewrite digits_value_zeros. }
      rewrite length_app, repeat_length. subst n. lia.
Qed.

Lemma parse_number_plain (m e : Z) (rest : list ascii) :
  plain_number m e = true ->
  closes rest ->
  parse_number (number_to_chars m e ++ rest) = Some (JNumber m e, rest)
  /\ exists c t, number_to_chars m e = c :: t
                 /\ (is_digit c = true \/ c = "-"%char).
Proof.
  intros Hp Hr.
  destruct (closes_not_number rest Hr) as (Hd & Hf & Hx).
  destruct m as [|p|p].
  - unfold plain_number in Hp. cbn [Z.eqb] in Hp. apply Z.eqb_eq in Hp. subst e.
    split; [|exists "0"%char, []; split; [reflexivity | now left]].
    unfold number_to_chars, parse_number. cbn [app parse_sign Ascii.eqb Bool.eqb andb].
    change ("0"%char :: rest) with (["0"%char] ++ rest).
    rewrite span_digits_app; [|now repeat constructor|exact Hd].
    cbn [valid_int]. rewrite Hf, Hx. reflexivity.
  - destruct (unsigned_parts p e rest Hp Hr)
      as (ip & fp & s2 & c & t & Et & Hc & Hs & Hv & Hfr & Hval & He).
    split; [|exists c, t; split; [exact Et | now left]].
    unfold number_to_chars, parse_number.
    assert (Hsign : parse_sign (positive_to_chars p e ++ rest)
                    = (false, positive_to_chars p e ++ rest)).
    { rewrite Et. cbn [app parse_sign].
      destruct (Ascii.eqb_spec c "-") as [->|_]; [discriminate Hc | reflexivity]. }
    rewrite Hsign, Hs, Hv, Hfr, Hx, Hval. now rewrite He.
  - assert (Hp' : plain_number (Zpos p) e = true) by exact Hp.
    destruct (unsigned_parts p e rest Hp' Hr)
      as (ip & fp & s2 & c & t & Et & Hc & Hs & Hv & Hfr & Hval & He).
    split; [|eexists; eexists; split; [reflexivity | now right]].
    unfold number_to_chars, parse_number.
    cbn [app parse_sign Ascii.eqb Bool.eqb andb].
    rewrite Hs, Hv, Hfr, Hx, Hval. now rewrite He.
Qed.


Lemma parse_string_quote_char (c : ascii) (tl acc : list ascii) :
  parse_string (quote_char c ++ tl) acc = parse_string tl (c :: acc).
Proof.
  destruct c as [[|] [|] [|] [|] [|] [|] [|] [|]]; reflexivity.
Qed.

Lemma parse_string_quoted (l : list ascii) :
  forall rest acc,
    parse_string (flat_map quote_char l ++ dquote :: rest) acc
    = Some (string_of_list_ascii (rev acc ++ l), rest).
Proof.
  induction l as [|c l IH]; intros rest acc.
  - now rewrite app_nil_r.
  - cbn [flat_map]. rewrite <- app_assoc, parse_string_quote_char, IH.
    cbn [rev]. now rewrite <- app_assoc.
Qed.

Lemma parse_quote (k : string) (rest : list ascii) :
  exists body,
    quote k ++ rest = dquote :: body
    /\ parse_string body [] = Some (k, rest).
Proof.
  exists (flat_map quote_char (chars k) ++ dquote :: rest). split.
  - unfold quote. cbn [app]. now rewrite <- app_assoc.
  - rewrite parse_string_quoted. cbn [rev app]. unfold chars.
    now rewrite string_of_list_ascii_of_string.
Qed.

Lemma parse_value_number (f : nat) (c : ascii) (r : list ascii) :
  is_digit c = true \/ c = "-"%char ->
  parse_value (S f) (c :: r) = parse_number (c :: r).
Proof.
  intros H.
  destruct c as [[|] [|] [|] [|] [|] [|] [|] [|]];
    first [reflexivity | exfalso; destruct H as [H|H]; discriminate].
Qed.

Lemma Put_fresh (o : Obj) (k : string) (v : JSValue) :
  ~ In k (map fst o) -> Put o k v = o ++ [(k, v)].
Proof.
  induction o as [|[k' v'] o IH]; intros H; [reflexivity|].
  cbn [Put app]. destruct (String.eqb_spec k' k) as [->|Hk].
  - exfalso. apply H. now left.
  - rewrite IH; [reflexivity|]. intros Hin. apply H. now right.
Qed.

Lemma distinct_keys_NoDup (ks : list string) : distinct_keys ks = true -> NoDup ks.
Proof.
  induction ks as [|k ks IH]; intros H; [constructor|].
  cbn [distinct_keys] in H. apply Bool.andb_true_iff in H. destruct H as [H1 H2].
  constructor; [|now apply IH].
  intros Hin. apply Bool.negb_true_iff in H1.
  assert (Hex : existsb (String.eqb k) ks = true).
  { apply existsb_exists. exists k. split; [exact Hin | apply String.eqb_refl]. }
  congruence.
Qed.

Lemma join_cons2 (sep : ascii) (p q : list ascii) (ps : list (list ascii)) :
  join sep (p :: q :: ps) = p ++ sep :: join sep (q :: ps).
Proof. reflexivity. Qed.

Lemma JSValue_nested_ind (P : JSValue -> Prop) :
  P JNull ->
  (forall b, P (JBool b)) ->
  (forall m e, P (JNumber m e)) ->
  (forall s, P (JString s)) ->
  (forall l, Forall P l -> P (JArray l)) ->
  (forall ps, Forall (fun kv => P (snd kv)) ps -> P (JObject ps)) ->
  forall v, P v.
Proof.
  intros Hnull Hbool Hnum Hstr Harr Hobj.
  fix IH 1. intros [ |b|m e|s|l|ps].
  - exact Hnull.
  - apply Hbool.
  - apply Hnum.
  - apply Hstr.
  - apply Harr. induction l as [|x l IHl]; constructor; [apply IH | exact IHl].
  - apply Hobj. induction ps as [|[k x] ps IHps]; constructor; [apply IH | exact IHps].
Qed.


Lemma parse_value_array (f : nat) (r : list ascii) :
  parse_value (S f) ("["%char :: r)
  = match skip_ws r with
    | [] => None
    | c' :: r' =>
        if Ascii.eqb c' "]" then Some (JArray [], r') else parse_elements f r []
    end.
Proof. reflexivity. Qed.

Lemma parse_value_object (f : nat) (r : list ascii) :
  parse_value (S f) ("{"%char :: r)
  = match skip_ws r with
    | [] => None
    | c' :: r' =>
        if Ascii.eqb c' "}" then Some (JObject [], r') else parse_members f r []
    end.
Proof. reflexivity. Qed.

Lemma parse_value_string (f : nat) (r : list ascii) :
  parse_value (S f) (dquote :: r)
  = option_map (fun p => (JString (fst p), snd p)) (parse_string r []).
Proof. reflexivity. Qed.

Lemma parse_elements_S (f : nat) (s : list ascii) (acc : list JSValue) :
  parse_elements (S f) s acc
  = match parse_value f s with
    | None => None
    | Some (v, r) =>
        match skip_ws r with
        | [] => None
        | c :: r' =>
            if Ascii.eqb c "," then parse_elements f r' (v :: acc)
            else if Ascii.eqb c "]" then Some (JArray (rev (v :: acc)), r')
            else None
        end
    end.
Proof. reflexivity. Qed.

Lemma parse_members_S (f : nat) (body : list ascii) (acc : Obj) :
  parse_members (S f) (dquote :: body) acc
  = match parse_string body [] with
    | None => None
    | Some (k, r1) =>
        match skip_ws r1 with
        | [] => None
        | c1 :: r2 =>
            if Ascii.eqb c1 ":" then
              match parse_value f r2 with
              | None => None
              | Some (v, r3) =>
                  match skip_ws r3 with
                  | [] => None
                  | c :: r4 =>
                      if Ascii.eqb c "," then parse_members f r4 (Put acc k v)
                      else if Ascii.eqb c "}" then Some (JObject (Put acc k v), r4)
                      else None
                  end
              end
            else None
        end
    end.
Proof. reflexivity. Qed.

Lemma skip_ws_head (c : ascii) (r : list ascii) :
  is_ws c = false -> skip_ws (c :: r) = c :: r.
Proof. intros H. cbn [skip_ws]. now rewrite H. Qed.

Lemma digit_head (c : ascii) :
  is_digit c = true \/ c = "-"%char -> is_ws c = false /\ c <> "]"%char.
Proof.
  intros H.
  destruct c as [[|] [|] [|] [|] [|] [|] [|] [|]];
    first [now split | exfalso; destruct H as [H|H]; discriminate].
Qed.

Lemma stringify_head (v : JSValue) :
  storable v = true ->
  exists c t, stringify_chars v = c :: t /\ is_ws c = false /\ c <> "]"%char.
Proof.
  destruct v as [ |[|]|m e|s|l|ps]; intros H;
    try (eexists; eexists; split; [reflexivity | now split]).
  destruct (parse_number_plain m e [] H I) as [_ (c & t & E & Hc)].
  exists c, t. split; [exact E | now apply digit_head].
Qed.

Lemma join_head (v : JSValue) (l : list JSValue) :
  storable v = true ->
  exists c t,
    join ","%char (map stringify_chars (v :: l)) = c :: t
    /\ is_ws c = false /\ c <> "]"%char.
Proof.
  intros H. destruct (stringify_head v H) as (c & t & E & Hc).
  destruct l as [|v2 l].
  - exists c, t. now split.
  - cbn [map]. rewrite join_cons2, E. eexists; eexists. split; [reflexivity | exact Hc].
Qed.

Lemma parse_elements_join (l : list JSValue) :
  Forall (fun v =>
            storable v = true ->
            forall rest f,
              closes rest ->
              (2 * List.length (stringify_chars v) + 1 <= f)%nat ->
              parse_value f (stringify_chars v ++ rest) = Some (v, rest)) l ->
  forallb storable l = true ->
  l <> [] ->
  forall acc rest f,
    (2 * List.length (join ","%char (map stringify_chars l)) + 2 <= f)%nat ->
    parse_elements f (join ","%char (map stringify_chars l) ++ "]"%char :: rest) acc
    = Some (JArray (rev acc ++ l), rest).
Proof.
  induction 1 as [|v l Hv Hl IH]; intros Hs Hne acc rest f Hf; [congruence|].
  cbn [forallb] in Hs. apply Bool.andb_true_iff in Hs. destruct Hs as [Hsv Hsl].
  destruct f as [|f]; [lia|]. rewrite parse_elements_S.
  destruct l as [|v2 l].
  - cbn [map join] in *.
    rewrite (Hv Hsv ("]"%char :: rest) f) by (simpl; auto; lia).
    rewrite skip_ws_head by reflexivity. reflexivity.
  - cbn [map] in *. rewrite join_cons2 in *. rewrite <- app_assoc. cbn [app].
    rewrite length_app in Hf. cbn [List.length] in Hf.
    rewrite (Hv Hsv) by (simpl; auto; lia).
    rewrite skip_ws_head by reflexivity. cbn [Ascii.eqb Bool.eqb andb].
    rewrite (IH Hsl) by (try discriminate; lia).
    cbn [rev]. now rewrite <- app_assoc.
Qed.


Lemma parse_members_join (ps : Obj) :
  Forall (fun kv =>
            storable (snd kv) = true ->
            forall rest f,
              closes rest ->
              (2 * List.length (stringify_chars (snd kv)) + 1 <= f)%nat ->
              parse_value f (stringify_chars (snd kv) ++ rest) = Some (snd kv, rest)) ps ->
  forallb (fun kv => storable (snd kv)) ps = true ->
  ps <> [] ->
  forall acc rest f,
    NoDup (map fst acc ++ map fst ps) ->
    (2 * List.length
           (join ","%char
              (map (fun kv => quote (fst kv) ++ ":"%char :: stringify_chars (snd kv)) ps))
     + 2 <= f)%nat ->
    parse_members f
      (join ","%char
         (map (fun kv => quote (fst kv) ++ ":"%char :: stringify_chars (snd kv)) ps)
       ++ "}"%char :: rest) acc
    = Some (JObject (acc ++ ps), rest).
Proof.
  induction 1 as [|[k v] ps Hv Hps IH]; intros Hs Hne acc rest f Hnd Hf; [congruence|].
  cbn [forallb snd] in Hs. apply Bool.andb_true_iff in Hs. destruct Hs as [Hsv Hsl].
  cbn [snd] in Hv.
  assert (Hk : ~ In k (map fst acc)).
  { cbn [map fst] in Hnd. apply NoDup_remove_2 in Hnd.
    intros Hin. apply Hnd, in_or_app. now left. }
  destruct f as [|f]; [lia|].
  destruct ps as [|kv2 ps].
  - cbn [map join fst snd] in *.
    rewrite <- app_assoc. cbn [app].
    destruct (parse_quote k (":"%char :: stringify_chars v ++ "}"%char :: rest))
      as (body & -> & Hbody).
    rewrite length_app in Hf. cbn [List.length] in Hf.
    rewrite parse_members_S, Hbody.
    rewrite skip_ws_head by reflexivity. cbn [Ascii.eqb Bool.eqb andb].
    rewrite (Hv Hsv) by (simpl; auto; lia).
    rewrite skip_ws_head by reflexivity. cbn [Ascii.eqb Bool.eqb andb].
    now rewrite Put_fresh.
  - cbn [map fst snd] in *. rewrite join_cons2 in *.
    repeat (rewrite <- app_assoc; cbn [app]).
    destruct (parse_quote k
                (":"%char :: stringify_chars v
                 ++ ","%char
                    :: join ","%char
                         ((quote (fst kv2) ++ ":"%char :: stringify_chars (snd kv2))
                          :: map (fun kv => quote (fst kv)
                                            ++ ":"%char :: stringify_chars (snd kv)) ps)
                       ++ "}"%char :: rest))
      as (body & -> & Hbody).
    rewrite !length_app in Hf. cbn [List.length] in Hf.
    rewrite parse_members_S, Hbody.
    rewrite skip_ws_head by reflexivity. cbn [Ascii.eqb Bool.eqb andb].
    rewrite (Hv Hsv) by (simpl; auto; lia).
    rewrite skip_ws_head by reflexivity. cbn [Ascii.eqb Bool.eqb andb].
    rewrite Put_fresh by exact Hk.
    rewrite (IH Hsl); [now rewrite <- app_assoc | discriminate | | lia].
    rewrite map_app, <- app_assoc. exact Hnd.
Qed.

Lemma parse_stringify_chars (v : JSValue) :
  storable v = true ->
  forall rest f,
    closes rest ->
    (2 * List.length (stringify_chars v) + 1 <= f)%nat ->
    parse_value f (stringify_chars v ++ rest) = Some (v, rest).
Proof.
  induction v as [ |b|m e|s|l IHl|ps IHps] using JSValue_nested_ind;
    intros Hs rest f Hr Hf; (destruct f as [|f]; [lia|]).
  - reflexivity.
  - destruct b; reflexivity.
  - destruct (parse_number_plain m e rest Hs Hr) as [Hp (c & t & E & Hc)].
    cbn [stringify_chars] in *. rewrite E in *. cbn [app] in *.
    now rewrite parse_value_number.
  - cbn [stringify_chars].
    destruct (parse_quote s rest) as (body & -> & Hbody).
    now rewrite parse_value_string, Hbody.
  - cbn [stringify_chars storable] in *. cbn [app]. rewrite <- app_assoc. cbn [app].
    rewrite parse_value_array.
    destruct l as [|v l].
    + cbn [map join app]. rewrite skip_ws_head by reflexivity. reflexivity.
    + assert (Hv : storable v = true).
      { cbn [forallb] in Hs. now apply Bool.andb_true_iff in Hs. }
      destruct (join_head v l Hv) as (c & t & E & Hws & Hc).
      cbn [List.length] in Hf. rewrite length_app in Hf. cbn [List.length] in Hf.
      rewrite <- (parse_elements_join (v :: l) IHl Hs) with (acc := []) (f := f)
        by (try discriminate; lia).
      rewrite E. cbn [app]. rewrite skip_ws_head by exact Hws.
      destruct (Ascii.eqb_spec c "]"); [contradiction | reflexivity].
  - cbn [stringify_chars storable] in *. cbn [app]. rewrite <- app_assoc. cbn [app].
    apply Bool.andb_true_iff in Hs. destruct Hs as [Hk Hs].
    rewrite parse_value_object.
    destruct ps as [|[k v] ps].
    + cbn [map join app]. rewrite skip_ws_head by reflexivity. reflexivity.
    + cbn [List.length] in Hf. rewrite length_app in Hf. cbn [List.length] in Hf.
      rewrite <- (parse_members_join ((k, v) :: ps) IHps Hs) with (acc := []) (f := f);
        [ | discriminate | cbn [map app]; now apply distinct_keys_NoDup | lia].
      destruct ps as [|kv2 ps].
      * cbn [map join fst snd]. unfold quote at 1. cbn [app].
        rewrite skip_ws_head by reflexivity. reflexivity.
      * cbn [map]. rewrite join_cons2. cbn [fst snd]. unfold quote at 1. cbn [app].
        rewrite skip_ws_head by reflexivity. reflexivity.
Qed.

Lemma parse_stringify (v : JSValue) :
  storable v = true -> JSON.parse (JSON.stringify v) = Some v.
Proof.
  intros Hs. unfold JSON.parse, JSON.stringify, chars.
  rewrite list_ascii_of_string_of_list_ascii.
  pose proof (parse_stringify_chars v Hs [] (2 * List.length (stringify_chars v) + 2) I)
    as H.
  rewrite app_nil_r in H. rewrite H by lia. reflexivity.
Qed.


Lemma objects_fields (q : list Entry) :
  objects (map (fun e => JObject (fields e)) q) = Some (map fields q).
Proof.
  induction q as [|e q IH]; [reflexivity|]. cbn [map objects]. now rewrite IH.
Qed.

Lemma storable_queue (q : list Entry) :
  Forall (fun e => storable (JObject (fields e)) = true) q ->
  storable (queue_value q) = true.
Proof.
  intros H. unfold queue_value. cbn [storable].
  apply forallb_forall. intros v Hv. apply in_map_iff in Hv.
  destruct Hv as (e & <- & He). rewrite Forall_forall in H. now apply H.
Qed.

Lemma boot_persisted (online : bool) (path : string) (q : list Entry) :
  Forall (fun e => storable (JObject (fields e)) = true) q ->
  boot online path (Some (persist q))
  = Some (mkWorld online (allocate 0 (map fields q)) (Some (persist q))
                  (List.length q) [] [] path).
Proof.
  intros H. unfold boot, constructor_pendingEntries, loadPendingEntries.
  assert (Hne : String.eqb (persist q) EmptyString = false) by reflexivity.
  rewrite Hne. unfold JSON_parse, persist.
  rewrite (parse_stringify _ (storable_queue q H)).
  unfold queue_value. cbn [bind GetLength try_catch].
  now rewrite objects_fields, length_map.
Qed.

Lemma portable_storable (v : JSValue) : portable v = true -> storable v = true.
Proof.
  induction v as [ |b|m e|s|l IHl|ps IHps] using JSValue_nested_ind;
    cbn [portable storable]; try reflexivity.
  - unfold short_number. intros H. now apply Bool.andb_true_iff in H.
  - intros H. apply forallb_forall. intros x Hx.
    rewrite Forall_forall in IHl. apply IHl; [exact Hx|].
    rewrite forallb_forall in H. now apply H.
  - intros H. apply Bool.andb_true_iff in H. destruct H as [Hk Hp].
    rewrite Hk. cbn [andb]. apply forallb_forall. intros kv Hkv.
    rewrite Forall_forall in IHps. apply IHps; [exact Hkv|].
    rewrite forallb_forall in Hp. specialize (Hp kv Hkv).
    now apply Bool.andb_true_iff in Hp.
Qed.

(** X25.  What the manager writes to storage the next page reads back: a
    stored queue whose entries hold numbers of at most 15 significant
    digits, written without an exponent, and name each property once and
    none by a numeral, is loaded with the same properties, in the same
    order, as new objects, and storage still is the text of the loaded
    queue. *)
Theorem reload_restores_the_queue (online : bool) (path : string) (w : World) :
  in_sync w ->
  Forall (fun e => portable (JObject (fields e)) = true) (pendingEntries w) ->
  exists w',
    boot online path (localStorage w) = Some w'
    /\ map fields (pendingEntries w') = map fields (pendingEntries w)
    /\ NoDup (addrs (pendingEntries w'))
    /\ in_sync w'.
Proof.
  intros Hsync Hp.
  assert (Hst : Forall (fun e => storable (JObject (fields e)) = true) (pendingEntries w)).
  { apply Forall_forall. intros e He. rewrite Forall_forall in Hp.
    apply portable_storable. now apply Hp. }
  unfold in_sync in Hsync. rewrite Hsync, (boot_persisted _ _ _ Hst).
  eexists. split; [reflexivity|]. cbn [pendingEntries].
  assert (Hf : forall os n, map fields (allocate n os) = os).
  { induction os as [|o os IH]; intros n; [reflexivity|]. cbn [allocate map fields].
    now rewrite IH. }
  split; [apply Hf|]. split.
  - rewrite addrs_allocate. apply seq_NoDup.
  - unfold in_sync. cbn [localStorage pendingEntries]. unfold persist, queue_value.
    do 3 f_equal.
    rewrite <- (map_map fields JObject (allocate _ _)), Hf. symmetry. apply map_map.
Qed.

End RoundTrip.

Section FormReload.
Import EntryForm.
Variable parseFloat : string -> JSValue.

Lemma storable_field (fd : FormData) (k : string) : storable (field fd k) = true.
Proof. unfold field. now destruct (get fd k). Qed.

Lemma storable_form_entry (today : string) (now : Z) (fd : FormData) :
  storable (parseFloat (get_or fd "hours" "0")) = true ->
  plain_number now 0 = true ->
  storable (JObject (new_entry (entryData parseFloat today fd) now)) = true.
Proof.
  intros Hh Hn. unfold new_entry, entryData.
  cbn [Put String.eqb Ascii.eqb Bool.eqb andb].
  cbn [storable map fst snd distinct_keys existsb String.eqb Ascii.eqb Bool.eqb
       andb orb negb forallb].
  now rewrite !storable_field, Hh, Hn.
Qed.

(** X26.  An entry submitted while offline is delivered once the connection
    is back: the submit handler stores it, the entries page it navigates to
    loads it from storage, and when the manager is told it is online and the
    server accepts the request, the entry is sent in exactly one request and
    the queue and the stored queue are empty. *)
Theorem offline_entry_is_delivered_after_reload
    (server : string -> FormData -> PostResult) (action today : string) (now : Z)
    (fd : FormData) (w : World) (fetch : Network) :
  isOnline w = false ->
  pendingEntries w = [] ->
  storable (parseFloat (get_or fd "hours" "0")) = true ->
  plain_number now 0 = true ->
  let entry := mkEntry 0 (new_entry (entryData parseFloat today fd) now) in
  accepted (exchange_for fetch 0 entry) = true ->
  let saved := fst (on_submit parseFloat server action today now fd w) in
  exists page,
    boot false "/entries" (localStorage saved) = Some page
    /\ pendingEntries page = [entry]
    /\ pendingEntries (handleOnline fetch page) = []
    /\ localStorage (handleOnline fetch page) = Some (persist [])
    /\ exchanges (handleOnline fetch page) = [exchange_for fetch 0 entry].
Proof.
  intros Hoff Hq Hh Hn entry Hacc saved.
  assert (Hsaved : localStorage saved
                   = Some (persist [mkEntry (next_addr w)
                                      (new_entry (entryData parseFloat today fd) now)])).
  { subst saved. unfold on_submit. rewrite Hoff.
    cbn [fst saveOfflineEntry localStorage]. now rewrite Hq. }
  rewrite Hsaved, boot_persisted
    by (repeat constructor; now apply storable_form_entry).
  eexists. split; [reflexivity|]. cbn [pendingEntries map fields allocate List.length].
  fold entry.
  split; [reflexivity|].
  unfold accepted, exchange_for in Hacc. cbn [result] in Hacc.
  destruct (fetch 0%nat (quick_entry_request entry)) as [status|] eqn:Ef; [|discriminate].
  unfold handleOnline, syncPendingEntries.
  cbn [pendingEntries sync_loop].
  assert (Hs : synced entry = false) by apply synced_new_entry.
  rewrite Hs, Ef, Hacc.
  cbn [filter exchanges localStorage pendingEntries app].
  rewrite synced_mark_synced. cbn [negb].
  repeat split. unfold exchange_for. now rewrite Ef.
Qed.

End FormReload.

Lemma reload_restores_the_queue_witness :
  in_sync world_AB
  /\ Forall (fun e => portable (JObject (fields e)) = true) (pendingEntries world_AB)
  /\ exists w',
       boot true "/entries" (localStorage world_AB) = Some w'
       /\ map fields (pendingEntries w') = map fields (pendingEntries world_AB)
       /\ NoDup (addrs (pendingEntries w'))
       /\ in_sync w'.
Proof.
  assert (H1 : in_sync world_AB) by reflexivity.
  assert (H2 : Forall (fun e => portable (JObject (fields e)) = true)
                      (pendingEntries world_AB))
    by (repeat constructor).
  exact (conj H1 (conj H2 (reload_restores_the_queue true "/entries" world_AB H1 H2))).
Defined.

Lemma offline_entry_is_delivered_after_reload_witness :
  let entry :=
    mkEntry 0 (new_entry (EntryForm.entryData parseFloat_decimal "2024-05-02" filled_form)
                         1700000000000) in
  let saved :=
    fst (EntryForm.on_submit parseFloat_decimal form_server_down "/save" "2024-05-02"
           1700000000000 filled_form (fresh false "/entry")) in
  isOnline (fresh false "/entry") = false
  /\ pendingEntries (fresh false "/entry") = []
  /\ storable (parseFloat_decimal (EntryForm.get_or filled_form "hours" "0")) = true
  /\ plain_number 1700000000000 0 = true
  /\ accepted (exchange_for net_accept 0 entry) = true
  /\ exists page,
       boot false "/entries" (localStorage saved) = Some page
       /\ pendingEntries page = [entry]
       /\ pendingEntries (handleOnline net_accept page) = []
       /\ localStorage (handleOnline net_accept page) = Some (persist [])
       /\ exchanges (handleOnline net_accept page) = [exchange_for net_accept 0 entry].
Proof.
  intros entry saved.
  assert (H1 : isOnline (fresh false "/entry") = false) by reflexivity.
  assert (H2 : pendingEntries (fresh false "/entry") = []) by reflexivity.
  assert (H3 : storable (parseFloat_decimal (EntryForm.get_or filled_form "hours" "0"))
               = true) by (vm_compute; reflexivity).
  assert (H4 : plain_number 1700000000000 0 = true) by (vm_compute; reflexivity).
  assert (H5 : accepted (exchange_for net_accept 0 entry) = true) by reflexivity.
  exact (conj H1 (conj H2 (conj H3 (conj H4 (conj H5
           (offline_entry_is_delivered_after_reload parseFloat_decimal form_server_down
              "/save" "2024-05-02" 1700000000000 filled_form (fresh false "/entry")
              net_accept H1 H2 H3 H4 H5)))))).
Defined.

Section ReloadAfterRun.

Lemma NoDup_distinct_keys (ks : list string) : NoDup ks -> distinct_keys ks = true.
Proof.
  induction 1 as [|k ks Hk Hnd IH]; [reflexivity|].
  cbn [distinct_keys]. rewrite IH, Bool.andb_true_r. apply Bool.negb_true_iff.
  destruct (existsb (String.eqb k) ks) eqn:E; [|reflexivity].
  apply existsb_exists in E. destruct E as (x & Hx & Ex).
  apply String.eqb_eq in Ex. subst x. contradiction.
Qed.

Lemma In_keys_Put (o : Obj) (k x : string) (v : JSValue) :
  In x (map fst (Put o k v)) -> x = k \/ In x (map fst o).
Proof.
  induction o as [|[k' v'] o IH]; cbn [Put map fst].
  - intros [H|[]]. now left.
  - destruct (String.eqb_spec k' k) as [->|Hk]; cbn [map fst In].
    + tauto.
    + intros [H|H]; [tauto|]. destruct (IH H); tauto.
Qed.

Lemma NoDup_keys_Put (o : Obj) (k : string) (v : JSValue) :
  NoDup (map fst o) -> NoDup (map fst (Put o k v)).
Proof.
  induction o as [|[k' v'] o IH]; intros H; cbn [Put map fst].
  - repeat constructor. intros [].
  - cbn [map fst] in H. inversion H as [|? ? Hk' Hnd]; subst.
    destruct (String.eqb_spec k' k) as [->|Hk]; cbn [map fst].
    + now constructor.
    + constructor; [|now apply IH].
      intros Hin. destruct (In_keys_Put _ _ _ _ Hin); [congruence | contradiction].
Qed.

Lemma storable_values_Put (o : Obj) (k : string) (v : JSValue) :
  forallb (fun kv => storable (snd kv)) o = true ->
  storable v = true ->
  forallb (fun kv => storable (snd kv)) (Put o k v) = true.
Proof.
  intros Ho Hv. induction o as [|[k' v'] o IH]; cbn [Put forallb snd].
  - now rewrite Hv.
  - cbn [forallb snd] in Ho. apply Bool.andb_true_iff in Ho. destruct Ho as [H1 H2].
    destruct (String.eqb k' k); cbn [forallb snd].
    + now rewrite Hv, H2.
    + now rewrite H1, IH.
Qed.

Lemma storable_Put (o : Obj) (k : string) (v : JSValue) :
  storable (JObject o) = true ->
  storable v = true ->
  storable (JObject (Put o k v)) = true.
Proof.
  cbn [storable]. intros Ho Hv.
  apply Bool.andb_true_iff in Ho. destruct Ho as [H1 H2].
  apply Bool.andb_true_iff. split.
  - apply NoDup_distinct_keys, NoDup_keys_Put. now apply distinct_keys_NoDup.
  - now apply storable_values_Put.
Qed.

Lemma storable_new_entry (entryData : Obj) (now : Z) :
  storable (JObject entryData) = true ->
  plain_number now 0 = true ->
  storable (JObject (new_entry entryData now)) = true.
Proof.
  intros Hd Hn. unfold new_entry. repeat apply storable_Put; auto.
Qed.

Lemma storable_loop_entries (fetch : Network) (q : list Entry) :
  forall k,
    Forall (fun e => storable (JObject (fields e)) = true) q ->
    Forall (fun e => storable (JObject (fields e)) = true) (loop_entries fetch k q).
Proof.
  induction q as [|e q IH]; intros k H; [exact H|].
  inversion H as [|? ? He Hq]; subst.
  rewrite loop_entries_cons.
  destruct (synced e); [constructor; auto|].
  destruct (fetch k (quick_entry_request e)) as [status|]; [|exact H].
  constructor; [|auto].
  destruct (ok status); [|exact He].
  unfold mark_synced. cbn [fields]. now apply storable_Put.
Qed.

Lemma storable_step (w : World) (op : Op) :
  saves_storable op = true ->
  Forall (fun e => storable (JObject (fields e)) = true) (pendingEntries w) ->
  Forall (fun e => storable (JObject (fields e)) = true) (pendingEntries (step w op)).
Proof.
  intros Hop H. rewrite pendingEntries_step.
  destruct op as [d now|f|f|]; cbn [op_queue saves_storable] in *.
  - apply Bool.andb_true_iff in Hop. destruct Hop as [Hd Hn].
    apply Forall_app. split; [exact H|]. constructor; [|constructor].
    cbn [fields]. now apply storable_new_entry.
  - unfold pass_queue. apply Forall_forall. intros e He.
    apply filter_In in He. destruct He as [He _].
    pose proof (storable_loop_entries f _ 0%nat H) as Hl.
    rewrite Forall_forall in Hl. now apply Hl.
  - unfold pass_queue. apply Forall_forall. intros e He.
    apply filter_In in He. destruct He as [He _].
    pose proof (storable_loop_entries f _ 0%nat H) as Hl.
    rewrite Forall_forall in Hl. now apply Hl.
  - exact H.
Qed.

Lemma stored_or_empty_step (w : World) (op : Op) :
  in_sync w \/ (localStorage w = None /\ pendingEntries w = []) ->
  in_sync (step w op) \/ (localStorage (step w op) = None /\ pendingEntries (step w op) = []).
Proof.
  intros [H|[H1 H2]]; [left; now apply in_sync_step|].
  destruct op as [d now|f|f|]; cbn [step].
  - left. reflexivity.
  - right. unfold syncPendingEntries. rewrite H2. now split.
  - right. unfold handleOnline, syncPendingEntries. cbn [pendingEntries]. rewrite H2.
    now split.
  - right. now split.
Qed.

Lemma reload_invariant_run (ops : list Op) :
  forall w,
    Forall (fun op => saves_storable op = true) ops ->
    Forall (fun e => storable (JObject (fields e)) = true) (pendingEntries w) ->
    in_sync w \/ (localStorage w = None /\ pendingEntries w = []) ->
    Forall (fun e => storable (JObject (fields e)) = true) (pendingEntries (run w ops))
    /\ (in_sync (run w ops)
        \/ (localStorage (run w ops) = None /\ pendingEntries (run w ops) = [])).
Proof.
  induction ops as [|op ops IH]; intros w Hops Hst Hs; [now split|].
  inversion Hops as [|? ? Hop Hrest]; subst.
  apply (IH (step w op) Hrest); [now apply storable_step | now apply stored_or_empty_step].
Qed.

(** X27.  Whatever was saved and synced since the installation, a page
    loaded afterwards starts with the queue the last page left: the same
    entries in the same order, provided the saved data hold plain numbers
    and the clock gives times of at most 21 digits. *)
Theorem queue_survives_reload
    (online online' : bool) (path path' : string) (ops : list Op) :
  Forall (fun op => saves_storable op = true) ops ->
  exists w',
    boot online' path' (localStorage (run (fresh online path) ops)) = Some w'
    /\ map fields (pendingEntries w')
       = map fields (pendingEntries (run (fresh online path) ops)).
Proof.
  intros Hops.
  destruct (reload_invariant_run ops (fresh online path) Hops) as [Hst [Hs|[H1 H2]]].
  - constructor.
  - right. now split.
  - unfold in_sync in Hs. rewrite Hs, (boot_persisted _ _ _ Hst).
    eexists. split; [reflexivity|]. cbn [pendingEntries].
    generalize (map fields (pendingEntries (run (fresh online path) ops))) 0%nat.
    intros os. induction os as [|o os IH]; intros n; [reflexivity|].
    cbn [allocate map fields]. now rewrite IH.
  - rewrite H1, H2. eexists. split; reflexivity.
Qed.

End ReloadAfterRun.

Lemma queue_survives_reload_witness :
  Forall (fun op => saves_storable op = true) ops_ABC_then_sync
  /\ exists w',
       boot true "/entries" (localStorage (run (fresh false "/entry") ops_ABC_then_sync))
       = Some w'
       /\ map fields (pendingEntries w')
          = map fields (pendingEntries (run (fresh false "/entry") ops_ABC_then_sync)).
Proof.
  assert (H : Forall (fun op => saves_storable op = true) ops_ABC_then_sync)
    by (repeat constructor).
  exact (conj H (queue_survives_reload false true "/entry" "/entries"
                   ops_ABC_then_sync H)).
Defined.

(** ** Touch gestures *)

Section SwipeProps.
Import Swipe.
Variable entryId : option string.

(** X28.  The end of a touch compares its start with the position of the
    last move, also when that move belongs to an earlier touch (the position
    is 0 on a fresh page): a touch that never moves and starts more than 50
    pixels right of that position asks whether to delete the entry, and
    deletes it when the user confirms. *)
Theorem touch_without_move_asks_to_delete (st : State) (x : Z) (confirmed : bool) :
  50 < x - currentX st ->
  snd (run entryId st [TouchStart x; TouchEnd confirmed])
  = AskDelete :: (if confirmed then deleteEntry entryId else []) ++ [ResetRow].
Proof.
  intros H. cbn [run step swiping startX currentX snd app].
  apply Z.ltb_lt in H. rewrite H. now rewrite app_nil_r.
Qed.

Lemma last_cons_default (moves : list Z) :
  forall y d, last (y :: moves) d = last moves y.
Proof.
  induction moves as [|z moves IH]; intros y d; [reflexivity|].
  change (last (y :: z :: moves) d) with (last (z :: moves) d).
  now rewrite !IH.
Qed.

Lemma swipe_moves (moves : list Z) :
  forall st,
    swiping st = true ->
    fst (run entryId st (map TouchMove moves))
    = mkState (startX st) (last moves (currentX st)) true
    /\ Forall (fun e => match e with Slide _ _ => True | _ => False end)
              (snd (run entryId st (map TouchMove moves))).
Proof.
  induction moves as [|y moves IH]; intros st Hs.
  - destruct st as [sx cx sw]. cbn in *. subst. split; [reflexivity | constructor].
  - cbn [map run step]. rewrite Hs.
    destruct (IH (mkState (startX st) y true) eq_refl) as [E1 E2].
    destruct (run entryId (mkState (startX st) y true) (map TouchMove moves))
      as [st2 out2].
    cbn [fst snd startX currentX] in *. subst st2. split.
    + f_equal. symmetry. apply last_cons_default.
    + apply Forall_app. split; [|exact E2].
      destruct ((0 <? startX st - y) && (startX st - y <? 100)); repeat constructor.
Qed.

Lemma swipe_run_app (evs1 evs2 : list Event) :
  forall st,
    run entryId st (evs1 ++ evs2)
    = (fst (run entryId (fst (run entryId st evs1)) evs2),
       snd (run entryId st evs1) ++ snd (run entryId (fst (run entryId st evs1)) evs2)).
Proof.
  induction evs1 as [|ev evs1 IH]; intros st.
  - cbn [app run fst snd]. now destruct (run entryId st evs2).
  - cbn [app run]. destruct (step entryId st ev) as [st1 out1]. rewrite IH.
    destruct (run entryId st1 evs1) as [st2 out2]. cbn [fst snd].
    now rewrite app_assoc.
Qed.

(** X29.  A touch whose last move is at most 50 pixels left of its start,
    or right of it, neither asks nor deletes, wherever the finger went in
    between. *)
Theorem short_swipe_never_deletes
    (st : State) (x y : Z) (moves : list Z) (confirmed : bool) :
  x - y <= 50 ->
  let out :=
    snd (run entryId st
           (TouchStart x :: map TouchMove (moves ++ [y]) ++ [TouchEnd confirmed])) in
  ~ In AskDelete out /\ forall id, ~ In (PostDelete id) out.
Proof.
  intros H. cbv zeta. cbn [run step]. rewrite swipe_run_app.
  destruct (swipe_moves (moves ++ [y]) (mkState x (currentX st) true) eq_refl) as [E1 E2].
  rewrite E1. rewrite last_last. cbn [fst snd startX currentX swiping run step app] in *.
  replace (50 <? x - y) with false by (symmetry; apply Z.ltb_ge; lia).
  cbn [app]. rewrite Forall_forall in E2.
  split; [|intros id]; intros Hin; apply in_app_or in Hin;
    (destruct Hin as [Hin|[Hin|[]]]; [apply E2 in Hin; exact Hin | discriminate]).
Qed.

End SwipeProps.

Lemma touch_without_move_asks_to_delete_witness :
  50 < 120 - Swipe.currentX Swipe.init
  /\ snd (Swipe.run (Some "17"%string) Swipe.init
            [Swipe.TouchStart 120; Swipe.TouchEnd true])
     = Swipe.AskDelete
       :: (if true then Swipe.deleteEntry (Some "17"%string) else []) ++ [Swipe.ResetRow].
Proof.
  assert (H : 50 < 120 - Swipe.currentX Swipe.init) by reflexivity.
  exact (conj H (touch_without_move_asks_to_delete (Some "17"%string) Swipe.init 120 true H)).
Defined.

Lemma short_swipe_never_deletes_witness :
  300 - 260 <= 50
  /\ ~ In Swipe.AskDelete
        (snd (Swipe.run (Some "17"%string) Swipe.init
                (Swipe.TouchStart 300
                 :: map Swipe.TouchMove ([280; 200] ++ [260]) ++ [Swipe.TouchEnd true])))
  /\ forall id,
       ~ In (Swipe.PostDelete id)
           (snd (Swipe.run (Some "17"%string) Swipe.init
                   (Swipe.TouchStart 300
                    :: map Swipe.TouchMove ([280; 200] ++ [260]) ++ [Swipe.TouchEnd true]))).
Proof.
  assert (H : 300 - 260 <= 50) by (vm_compute; discriminate).
  exact (conj H (short_swipe_never_deletes (Some "17"%string) Swipe.init 300 260
                   [280; 200] true H)).
Defined.

Section PullProps.
Import Pull.

(** X30.  The end of a pull compares the start of the touch with the
    position of the last move, also one of an earlier touch: a touch at the
    top of the page that never moves and starts more than 80 pixels above
    that position reloads the page. *)
Theorem touch_without_move_refreshes (st : State) (y : Z) :
  threshold < currentY st - y ->
  snd (run st [TouchStart 0 y; TouchEnd]) = [Refresh; HideIndicator].
Proof.
  intros H. cbn [run step Z.eqb pulling startY currentY snd app].
  apply Z.ltb_lt in H. now rewrite H.
Qed.

End PullProps.

Lemma touch_without_move_refreshes_witness :
  let st :=
    fst (Pull.run Pull.init [Pull.TouchStart 0 250; Pull.TouchMove 300; Pull.TouchEnd]) in
  snd (Pull.run Pull.init [Pull.TouchStart 0 250; Pull.TouchMove 300; Pull.TouchEnd])
  = [Pull.PreventDefault; Pull.ShowIndicator 50; Pull.HideIndicator]
  /\ Pull.threshold < Pull.currentY st - 100
  /\ snd (Pull.run st [Pull.TouchStart 0 100; Pull.TouchEnd])
     = [Pull.Refresh; Pull.HideIndicator].
Proof.
  intros st.
  assert (H : Pull.threshold < Pull.currentY st - 100) by reflexivity.
  exact (conj eq_refl (conj H (touch_without_move_refreshes st 100 H))).
Defined.
